(** * Game2048: a shallow embedding of [gym_game2048/envs/game2048.py]

  The engine of the 2048 environment is modelled function by function:
  NumPy arrays are lists (the board is a list of rows of [uint8] cells,
  written as [Z] with the wrap-around of the write-back spelled out),
  Python exceptions are [None] in the option monad, and the attributes of
  [self] that the engine mutates are the fields of the record [Game]. *)

From Stdlib Require Import ZArith Lia Bool.
From stdpp Require Import base option list.

Local Open Scope Z_scope.

(** ** Python and NumPy primitives *)

Module Py.

(** Position addressed by index [i] on an axis of length [len], with
    Python's negative indices; [None] is [IndexError]. *)
Definition index_n (len : nat) (i : Z) : option nat :=
  let n := Z.of_nat len in
  if (0 <=? i) && (i <? n) then Some (Z.to_nat i)
  else if (- n <=? i) && (i <? 0) then Some (Z.to_nat (n + i))
  else None.

Definition index {A} (l : list A) (i : Z) : option nat :=
  index_n (length l) i.

Definition get {A} (l : list A) (i : Z) : option A :=
  k ← index l i; l !! k.

Definition set {A} (l : list A) (i : Z) (v : A) : option (list A) :=
  k ← index l i; Some (<[k := v]> l).

(** [range(n)] and [range(n - 1, -1, -1)]. *)
Definition range (n : nat) : list nat := seq 0 n.
Definition range_down (n : nat) : list nat := reverse (seq 0 n).

(** [for i in idxs: s = body(i, s)], stopping at the first exception. *)
Fixpoint for_ {S} (idxs : list nat) (body : nat → S → option S) (s : S)
  : option S :=
  match idxs with
  | [] => Some s
  | i :: rest => s' ← body i s; for_ rest body s'
  end.

(** [sum(l)] of Python: a left fold of [+] from 0, every addition in the
    scalar type of the elements. *)
Definition sum (add : Z → Z → Z) (l : list Z) : Z := foldl add 0 l.

End Py.

(** Signed two's-complement wrap-around on [w] bits. *)
Definition wrap (w : Z) (x : Z) : Z :=
(x + 2 ^ (w - 1)) mod 2 ^ w - 2 ^ (w - 1).

(** The cast of a value stored into the [uint8] board. *)
Definition to_uint8 (x : Z) : Z := x mod 256.

(** Shape and range of a concrete board, by computation. *)
Ltac board_wf :=
  split; [reflexivity|];
  repeat first [apply Forall_nil_2 | apply Forall_cons_2 | split];
  try reflexivity; try lia.

(** ** The engine *)

Section Engine.

(** Width of the NumPy integer scalar in which [2 ** new_line[k]], the sum
    of the merged values and the score are computed: [new_line] is an
    [int32] array, so the width is 32 under NumPy's current promotion
    rules and 64 under the legacy ones (the Python [2] is then a C long). *)
Variable W : Z.

Definition scalar_add (a b : Z) : Z := wrap W (a + b).
Definition scalar_pow2 (e : Z) : Z := wrap W (2 ^ e).

(** *** [_combiner] *)

(** The local variables of [_combiner], with [self.score_per_step]. *)
Record Comb := MkComb {
  new_line : list Z;
  is_combined : list Z;
  cur : Z;
  sps : list Z
}.

(** Body of [for i in range(self.size)] in the [way == 0] branch. *)
Definition combine_left (line : list Z) (i : nat) (s : Comb) : option Comb :=
  x ← Py.get line (Z.of_nat i);
  if negb (x =? 0) then
    if cur s =? 0 then
      nl ← Py.set (new_line s) (cur s) x;
      Some (MkComb nl (is_combined s) (cur s + 1) (sps s))
    else
      p ← Py.get (new_line s) (cur s - 1);
      f ← Py.get (is_combined s) (cur s - 1);
      if (p =? x) && (f =? 0) then
        nl ← Py.set (new_line s) (cur s - 1) (p + 1);
        v ← Py.get nl (cur s - 1);
        ic ← Py.set (is_combined s) (cur s - 1) 1;
        Some (MkComb nl ic (cur s) (sps s ++ [scalar_pow2 v]))
      else
        nl ← Py.set (new_line s) (cur s) x;
        Some (MkComb nl (is_combined s) (cur s + 1) (sps s))
  else Some s.

(** Body of [for i in range(self.size - 1, -1, -1)] in the other branch. *)
Definition combine_right (size : nat) (line : list Z) (i : nat) (s : Comb)
  : option Comb :=
  x ← Py.get line (Z.of_nat i);
  if negb (x =? 0) then
    if cur s =? Z.of_nat size - 1 then
      nl ← Py.set (new_line s) (cur s) x;
      Some (MkComb nl (is_combined s) (cur s - 1) (sps s))
    else
      p ← Py.get (new_line s) (cur s + 1);
      f ← Py.get (is_combined s) (cur s + 1);
      if (p =? x) && (f =? 0) then
        nl ← Py.set (new_line s) (cur s + 1) (p + 1);
        v ← Py.get nl (cur s + 1);
        ic ← Py.set (is_combined s) (cur s + 1) 1;
        Some (MkComb nl ic (cur s) (sps s ++ [scalar_pow2 v]))
      else
        nl ← Py.set (new_line s) (cur s) x;
        Some (MkComb nl (is_combined s) (cur s - 1) (sps s))
  else Some s.

(** [_combiner(line, way)]: the new line and the extended
    [self.score_per_step]; [None] when the assertion on [way] fails or an
    index is out of range. *)
Definition _combiner (size : nat) (line : list Z) (way : Z)
    (score_per_step : list Z) : option (list Z * list Z) :=
  if negb ((way =? 0) || (way =? 1)) then None
  else
    let new_line0 := replicate size 0 in
    let is_combined0 := replicate size 0 in
    s ← (if way =? 0 then
           Py.for_ (Py.range size) (combine_left line)
             (MkComb new_line0 is_combined0 0 score_per_step)
         else
           Py.for_ (Py.range_down size) (combine_right size line)
             (MkComb new_line0 is_combined0 (Z.of_nat size - 1)
                score_per_step));
    Some (new_line s, sps s).

(** *** The board: [self.board], a [size] x [size] array of [uint8] *)

Definition cell (b : list (list Z)) (r c : nat) : Z := (b !!! r) !!! c.

(** [board[:, c]] and the assignments [board[r, :] = v], [board[:, c] = v]
    and [board[r][c] = v], which cast to [uint8]. *)
Definition col (b : list (list Z)) (c : nat) : list Z := (λ l, l !!! c) <$> b.

Definition set_row (r : nat) (v : list Z) (b : list (list Z))
  : list (list Z) := <[r := to_uint8 <$> v]> b.

Definition set_col (c : nat) (v : list Z) (b : list (list Z))
  : list (list Z) := zip_with (λ l x, <[c := to_uint8 x]> l) b v.

Definition set_cell (r c : nat) (v : Z) (b : list (list Z))
  : list (list Z) := alter (<[c := to_uint8 v]>) r b.

(** *** [_check_if_same] *)
Definition _check_if_same (size : nat) (b : list (list Z)) (way : Z) : bool :=
  if way =? 0 then
    existsb (λ r,
      existsb (λ c,
        negb (cell b r c =? 0) && (cell b r c =? cell b r (c + 1)))
        (Py.range (size - 1)))
      (Py.range size)
  else
    existsb (λ c,
      existsb (λ r,
        negb (cell b r c =? 0) && (cell b r c =? cell b (r + 1) c))
        (Py.range (size - 1)))
      (Py.range size).

(** *** [_check_legal] *)

(** [line != 0] on a slice of the board. *)
Definition occupied (l : list Z) : list bool := (λ x, negb (x =? 0)) <$> l.

(** [np.any(a)]. *)
Definition np_any (a : list bool) : bool := existsb id a.

(** The loop shared by the four branches, over the slices [slice i]:
    [if np.any((checker ^ line) & checker): return True] and otherwise
    [checker |= line]; [return False] when the loop ends. *)
Fixpoint slide_loop (slice : nat → list Z) (idxs : list nat)
    (checker : list bool) : bool :=
  match idxs with
  | [] => false
  | i :: rest =>
      let line := occupied (slice i) in
      if np_any (zip_with andb (zip_with xorb checker line) checker)
      then true
      else slide_loop slice rest (zip_with orb checker line)
  end.

(** [board[:, i]] and [board[i, :]] for an integer [i]; for a board without
    cells the index [self.size - 1] is out of range. *)
Definition np_col (size : nat) (b : list (list Z)) (i : Z)
  : option (list Z) := k ← Py.index_n size i; Some (col b k).

Definition np_row (size : nat) (b : list (list Z)) (i : Z)
  : option (list Z) := k ← Py.index_n size i; Some (b !!! k).

Definition _check_legal (size : nat) (b : list (list Z)) (way : Z)
  : option bool :=
  if way =? 0 then
    first ← np_col size b (Z.of_nat size - 1);
    Some (slide_loop (col b) (Py.range_down (size - 1)) (occupied first))
  else if way =? 1 then
    first ← np_col size b 0;
    Some (slide_loop (col b) (seq 1 (size - 1)) (occupied first))
  else if way =? 2 then
    first ← np_row size b (Z.of_nat size - 1);
    Some (slide_loop (λ i, b !!! i) (Py.range_down (size - 1))
            (occupied first))
  else
    first ← np_row size b 0;
    Some (slide_loop (λ i, b !!! i) (seq 1 (size - 1)) (occupied first)).

(** *** [_update_legal_moves], on the array [self.legal_moves] *)
Definition _update_legal_moves (size : nat) (b : list (list Z))
    (legal_moves : list Z) : option (list Z) :=
  let lm : list Z :=
    if _check_if_same size b 0
    then <[1%nat := 1]> (<[0%nat := 1]> legal_moves)
    else <[1%nat := 0]> (<[0%nat := 0]> legal_moves) in
  let lm : list Z :=
    if _check_if_same size b 1
    then <[3%nat := 1]> (<[2%nat := 1]> lm)
    else <[3%nat := 0]> (<[2%nat := 0]> lm) in
  Py.for_ (Py.range 4)
    (λ i (lm : list Z),
       x ← lm !! i;
       if x =? 0 then
         ok ← _check_legal size b (Z.of_nat i);
         Some (if (ok : bool) then <[i := 1]> lm else lm)
       else Some lm)
    lm.

(** *** The random source [self.np_random] *)

(** A generator is the stream of its raw draws and a position in it. *)
Record Generator := MkGen { draws : nat → nat; position : nat }.

(** [np_random.integers(high)]: a value in [[0, high)]; [ValueError] when
    [high <= 0]. *)
Definition integers (rng : Generator) (high : Z) : option (Z * Generator) :=
  if high <=? 0 then None
  else Some (Z.of_nat (draws rng (position rng)) mod high,
             MkGen (draws rng) (S (position rng))).

(** The outcome of [np_random.random() < 0.9]. *)
Definition random_lt_09 (rng : Generator) : bool * Generator :=
  (Nat.ltb (draws rng (position rng) mod 10) 9,
   MkGen (draws rng) (S (position rng))).

(** *** [_random_1_2] and [_spawn_block] *)
Definition _random_1_2 (rng : Generator) : Z * Generator :=
  let '(lt, rng) := random_lt_09 rng in (if lt then 1 else 2, rng).

(** [np.where(self.board == 0)]: the empty cells in row-major order. *)
Definition zero_pos (size : nat) (b : list (list Z)) : list (nat * nat) :=
  r ← Py.range size;
  c ← Py.range size;
  if cell b r c =? 0 then [(r, c)] else [].

Definition _spawn_block (size : nat) (b : list (list Z)) (rng : Generator)
  : option (list (list Z) * Generator) :=
  let zp := zero_pos size b in
  '(idx, rng) ← integers rng (Z.of_nat (length zp));
  '(r, c) ← Py.get zp idx;
  let '(v, rng) := _random_1_2 rng in
  Some (set_cell r c v b, rng).

(** *** The environment *)

(** The attributes of [self] used by the engine. [board_goal] is the
    integer [int(np.log2(goal))] that [__init__] stores once its assertion
    has passed. *)
Record Game := MkGame {
  size : nat;
  board_goal : Z;
  best_score : Z;
  n_episode : Z;
  board : list (list Z);
  legal_moves : list Z;
  is_legal : bool;
  score : Z;
  score_per_step : list Z;
  n_step : Z;
  np_random : Generator
}.

(** What the assertion of [__init__] leaves true of [board_goal]. *)
Definition valid_goal (g : Game) : Prop := 2 < board_goal g < 256.

(** *** [__init__], for a goal given as a Python [int] *)

(** What [np.log2] returns on a positive [float64]: a float that holds the
    integer [k], or a float that holds no integer. *)
Inductive Log2 := Whole (k : Z) | Fractional.

(** The two exceptions of the constructor: the failed assertion, and the
    [TypeError] of a ufunc that has no loop for its argument. *)
Inductive InitError := AssertionError | TypeError.

(** The cast of a NumPy integer to [float64], which [np.log2] applies to
    its argument: 53 significant bits, rounded to nearest, ties to even.
    The value of the float is an integer again. *)
Definition to_float64 (n : Z) : Z :=
  if n <? 2 ^ 53 then n
  else
    let e := Z.log2 n - 52 in
    let q := n / 2 ^ e in
    let r := n mod 2 ^ e in
    let q' := if 2 * r <? 2 ^ e then q
              else if 2 ^ e <? 2 * r then q + 1
              else if Z.even q then q else q + 1 in
    q' * 2 ^ e.

(** [__init__(render_mode=None, size, goal)]: the goal check and the
    attributes that the constructor sets. [float_log2] is the logarithm of
    the C library on [float64], applied to the value of the float. A Python
    [int] outside the ranges of [int64] and [uint64] stays a Python object,
    for which [np.log2] has no loop; on 0 and on negative integers
    [np.log2] gives [-inf] and [nan], which hold no integer. The
    attributes that only [reset] creates are left empty. *)
Definition __init__ (float_log2 : Z → Log2) (size : nat) (goal : Z)
    (rng : Generator) : InitError + Game :=
  if negb ((- 2 ^ 63 <=? goal) && (goal <? 2 ^ 64)) then inl TypeError
  else if goal <=? 0 then inl AssertionError
  else
    match float_log2 (to_float64 goal) with
    | Whole k =>
        if (2 <? k) && (k <? 256)
        then inr (MkGame size k 0 0 [] [] true 0 [] 0 rng)
        else inl AssertionError
    | Fractional => inl AssertionError
    end.

(** *** [_is_game_over], [_update_best_score], [_is_reach_goal] *)
Definition _is_game_over (size : nat) (b : list (list Z)) : bool :=
  if existsb (λ l, existsb (λ x, x =? 0) l) b then false
  else if _check_if_same size b 0 || _check_if_same size b 1 then false
  else true.

Definition _update_best_score (best_score score : Z) : Z :=
  Z.max best_score score.

Definition _is_reach_goal (b : list (list Z)) (board_goal : Z) : bool :=
  existsb (λ l, existsb (λ x, x =? board_goal) l) b.

(** *** [step] *)

(** The two loops of [step] that apply the move, line by line. *)
Definition move_rows (size : nat) (action : Z)
    (b : list (list Z)) (score_per_step : list Z)
  : option (list (list Z) * list Z) :=
  Py.for_ (Py.range size)
    (λ r '(b, sps),
       line ← b !! r;
       '(new_line, sps) ← _combiner size line action sps;
       Some (set_row r new_line b, sps))
    (b, score_per_step).

Definition move_cols (size : nat) (action : Z)
    (b : list (list Z)) (score_per_step : list Z)
  : option (list (list Z) * list Z) :=
  Py.for_ (Py.range size)
    (λ c '(b, sps),
       '(new_line, sps) ← _combiner size (col b c) (action - 2) sps;
       Some (set_col c new_line b, sps))
    (b, score_per_step).

Definition move (size : nat) (action : Z)
    (b : list (list Z)) (score_per_step : list Z)
  : option (list (list Z) * list Z) :=
  if action <? 2 then move_rows size action b score_per_step
  else move_cols size action b score_per_step.

(** [step(action)]: the new state, [reward] and [terminated]. The
    observation is the board of the new state and [info] is read from its
    fields. *)
Definition step (g : Game) (action : Z) : option (Game * Z * bool) :=
  let n_step' := n_step g + 1 in
  flag ← Py.get (legal_moves g) action;
  let is_changed := flag =? 1 in
  '(g', reward, terminated) ←
    (if is_changed then
       '(b, sps) ← move (size g) action (board g) [];
       let score' := scalar_add (score g) (Py.sum scalar_add sps) in
       if _is_reach_goal b (board_goal g) then
         Some (MkGame (size g) (board_goal g) (best_score g) (n_episode g)
                 b (legal_moves g) true score' sps n_step' (np_random g),
               1, true)
       else
         '(b, rng) ← _spawn_block (size g) b (np_random g);
         let terminated := _is_game_over (size g) b in
         if terminated then
           Some (MkGame (size g) (board_goal g)
                   (_update_best_score (best_score g) score') (n_episode g)
                   b (legal_moves g) true score' sps n_step' rng,
                 -1, true)
         else
           Some (MkGame (size g) (board_goal g) (best_score g) (n_episode g)
                   b (legal_moves g) true score' sps n_step' rng,
                 0, false)
     else
       Some (MkGame (size g) (board_goal g) (best_score g) (n_episode g)
               (board g) (legal_moves g) false (score g) [] n_step'
               (np_random g),
             0, false));
  lm ← _update_legal_moves (size g') (board g') (legal_moves g');
  Some (MkGame (size g') (board_goal g') (best_score g') (n_episode g')
          (board g') lm (is_legal g') (score g') (score_per_step g')
          (n_step g') (np_random g'),
        reward, terminated).

(** *** [reset] *)

(** [reset(seed)]; a seed installs a fresh generator. *)
Definition reset (g : Game) (seed : option Generator) : option Game :=
  let rng := default (np_random g) seed in
  let b := replicate (size g) (replicate (size g) 0) in
  let lm := replicate 4 1 in
  '(b, rng) ← _spawn_block (size g) b rng;
  '(b, rng) ← _spawn_block (size g) b rng;
  lm ← _update_legal_moves (size g) b lm;
  Some (MkGame (size g) (board_goal g) (best_score g) (n_episode g + 1)
          b lm true 0 [] 0 rng).

(** *** [_get_info] *)

(** [np.max(a)] of a two-dimensional array; [ValueError] on an array
    without elements. *)
Definition np_max (b : list (list Z)) : option Z :=
  match concat b with
  | [] => None
  | x :: rest => Some (foldl Z.max x rest)
  end.

(** The dictionary returned by [_get_info], one field per key. *)
Record Info := MkInfo {
  info_score_per_step : list Z;
  info_score : Z;
  info_max : Z;
  info_action_mask : list Z;
  info_is_legal : bool
}.

Definition _get_info (g : Game) : option Info :=
  m ← np_max (board g);
  Some (MkInfo (score_per_step g) (score g) m (legal_moves g) (is_legal g)).

(** ** Specification-level definitions *)

(** *** Lines *)

(** The tiles of a line, in order, without the empty cells. *)
Fixpoint tiles (l : list Z) : list Z :=
  match l with
  | [] => []
  | x :: rest => if x =? 0 then tiles rest else x :: tiles rest
  end.

(** One pass of merging over a list of tiles, first tile at the
    compaction edge: two equal neighbours fuse, and the tile they produce
    is not looked at again. *)
Fixpoint merge (ts : list Z) : list Z :=
  match ts with
  | [] => []
  | a :: rest =>
      match rest with
      | [] => [a]
      | b :: rest' =>
          if a =? b then (a + 1) :: merge rest' else a :: merge rest
      end
  end.

(** The exponents produced by the merges of that pass, in order. *)
Fixpoint merged (ts : list Z) : list Z :=
  match ts with
  | [] => []
  | a :: rest =>
      match rest with
      | [] => []
      | b :: rest' =>
          if a =? b then (a + 1) :: merged rest' else merged rest
      end
  end.

Definition pad (n : nat) (l : list Z) : list Z :=
  l ++ replicate (n - length l) 0.

(** A line read from its compaction edge: as it is for [way = 0], reversed
    otherwise. *)
Definition orient (way : Z) (l : list Z) : list Z :=
  if way =? 0 then l else reverse l.

(** The line that a move leaves, as a function of the line before. *)
Definition combined (way : Z) (line : list Z) : list Z :=
  orient way (pad (length line) (merge (tiles (orient way line)))).

(** *** The loop of [_combiner], abstractly *)

(** Both loop bodies are instances of one body: [first] is the value of
    [cur] at which the first tile is placed and [d] the step of [cur]. *)
Definition combine_body (first d : Z) (line : list Z) (i : nat) (s : Comb)
  : option Comb :=
  x ← Py.get line (Z.of_nat i);
  if negb (x =? 0) then
    if cur s =? first then
      nl ← Py.set (new_line s) (cur s) x;
      Some (MkComb nl (is_combined s) (cur s + d) (sps s))
    else
      p ← Py.get (new_line s) (cur s - d);
      f ← Py.get (is_combined s) (cur s - d);
      if (p =? x) && (f =? 0) then
        nl ← Py.set (new_line s) (cur s - d) (p + 1);
        v ← Py.get nl (cur s - d);
        ic ← Py.set (is_combined s) (cur s - d) 1;
        Some (MkComb nl ic (cur s) (sps s ++ [scalar_pow2 v]))
      else
        nl ← Py.set (new_line s) (cur s) x;
        Some (MkComb nl (is_combined s) (cur s + d) (sps s))
  else Some s.

(** The tiles placed so far, most recent first, whether the most recent
    one comes from a merge, and the merge events. *)
Record Acc := MkAcc { out : list Z; blocked : bool; ev : list Z }.

Definition place (a : Acc) (x : Z) : Acc :=
  if x =? 0 then a
  else
    match out a with
    | [] => MkAcc [x] false (ev a)
    | h :: r =>
        if (h =? x) && negb (blocked a)
        then MkAcc ((h + 1) :: r) true (ev a ++ [scalar_pow2 (h + 1)])
        else MkAcc (x :: h :: r) false (ev a)
    end.

(** The array position of the [j]-th placed tile. *)
Definition slot (first d : Z) (j : nat) : nat :=
  Z.to_nat (first + d * Z.of_nat j).

(** The two geometries of the loop on a line of [n] cells. *)
Definition geometry (n : nat) (first d : Z) : Prop :=
  (first = 0 ∧ d = 1) ∨ (first = Z.of_nat n - 1 ∧ d = -1).

(** Loop invariant after [k] cells have been read. *)
Record Inv (n : nat) (first d : Z) (sps0 : list Z) (k : nat)
    (s : Comb) (a : Acc) : Prop := MkInv {
  inv_len_nl : length (new_line s) = n;
  inv_len_ic : length (is_combined s) = n;
  inv_count : (length (out a) ≤ k)%nat;
  inv_cur : cur s = first + d * Z.of_nat (length (out a));
  inv_nl : ∀ j, (j < n)%nat →
    new_line s !! slot first d j = Some (default 0 (reverse (out a) !! j));
  inv_free : ∀ j, (length (out a) ≤ j < n)%nat →
    is_combined s !! slot first d j = Some 0;
  inv_flag : ∀ j, S j = length (out a) →
    is_combined s !! slot first d j = Some (if blocked a then 1 else 0);
  inv_sps : sps s = sps0 ++ ev a
}.

(** What remains to be done by [merge] when the fold is in state [a]. *)
Definition pending (a : Acc) (ts : list Z) : list Z * list Z :=
  match out a with
  | [] => (reverse (merge ts), merged ts)
  | h :: r =>
      if blocked a then (reverse (merge ts) ++ h :: r, merged ts)
      else (reverse (merge (h :: ts)) ++ r, merged (h :: ts))
  end.

(** *** Legality of a line *)

(** An empty cell with a tile farther from the head of the line. *)
Definition gap (l : list Z) : Prop :=
  ∃ i j x, (i < j)%nat ∧ l !! i = Some 0 ∧ l !! j = Some x ∧ x ≠ 0.

(** Two neighbouring cells that hold the same tile. *)
Definition adjacent (l : list Z) : Prop :=
  ∃ c a, l !! c = Some a ∧ l !! S c = Some a ∧ a ≠ 0.

(** Two equal neighbours in a list of tiles. *)
Fixpoint pair_in (ts : list Z) : bool :=
  match ts with
  | [] => false
  | a :: rest =>
      match rest with
      | [] => false
      | b :: _ => (a =? b) || pair_in rest
      end
  end.

(** *** Boards *)

(** A [size] x [size] array of [uint8]. *)
Definition wf_board (n : nat) (b : list (list Z)) : Prop :=
  length b = n
  ∧ Forall (λ l, length l = n ∧ Forall (λ x, 0 ≤ x < 256) l) b.

(** The [k]-th line along the axis of direction [D] (a row for left and
    right, a column for up and down) and the [way] passed to [_combiner]. *)
Definition axis_line (b : list (list Z)) (D : Z) (k : nat) : list Z :=
  if D <? 2 then b !!! k else col b k.

Definition way_of (D : Z) : Z := if D <? 2 then D else D - 2.

(** Direction [D] moves something on the board: some line has two equal
    neighbours, or an empty cell between a tile and the compaction edge. *)
Definition movable (n : nat) (b : list (list Z)) (D : Z) : Prop :=
  ∃ k, (k < n)%nat
       ∧ (adjacent (axis_line b D k)
          ∨ gap (orient (way_of D) (axis_line b D k))).

Definition shape (n : nat) (b : list (list Z)) : Prop :=
  length b = n ∧ Forall (λ l, length l = n) b.

(** The values that the merges of one line append to
    [self.score_per_step], and those of a whole move, line after line. *)
Definition line_events (way : Z) (l : list Z) : list Z :=
  scalar_pow2 <$> merged (tiles (orient way l)).

Definition move_events (n : nat) (b : list (list Z)) (D : Z) : list Z :=
  concat ((λ k, line_events (way_of D) (axis_line b D k)) <$> seq 0 n).

(** The line written back by a move. *)
Definition moved_line (way : Z) (l : list Z) : list Z :=
  to_uint8 <$> combined way l.

(** The numeric values of the tiles that the merges of a move produce, line
    after line, as exact powers of two. *)
Definition merged_values (n : nat) (b : list (list Z)) (D : Z) : list Z :=
  concat ((λ k, (λ e, 2 ^ e)
                  <$> merged (tiles (orient (way_of D) (axis_line b D k))))
            <$> seq 0 n).

(** The [k]-th line across the slices [slice 0 .. slice (n - 1)]. *)
Definition cross (slice : nat → list Z) (n k : nat) : list Z :=
  (λ i, slice i !!! k) <$> seq 0 n.

(** Some cell of [b'] differs from the same cell of [b]. *)
Definition changed (n : nat) (b b' : list (list Z)) : Prop :=
  ∃ r c, (r < n)%nat ∧ (c < n)%nat ∧ cell b' r c ≠ cell b r c.

(** *** The slide check in the words of the specification *)

(** "Maintain a running occupancy bitmask that is the bitwise OR of all
    lines scanned so far. For each subsequent line, if it has an occupied
    position where the running mask has a zero, the direction is legal;
    otherwise OR the line's occupancy into the running mask and continue.
    If no such gap is found across all lines, the slide check is false." *)
Fixpoint spec_slide_loop (slice : nat → list Z) (idxs : list nat)
    (mask : list bool) : bool :=
  match idxs with
  | [] => false
  | i :: rest =>
      let line := occupied (slice i) in
      if np_any (zip_with andb line (negb <$> mask)) then true
      else spec_slide_loop slice rest (zip_with orb mask line)
  end.

(** "Starting from the line at the compaction edge ..., scanning from the
    compaction edge outward": column 0 for left, the last column for right,
    row 0 for up and the last row for down. *)
Definition spec_slide_check (n : nat) (b : list (list Z)) (D : Z) : bool :=
  if D =? 0 then
    spec_slide_loop (col b) (seq 1 (n - 1)) (occupied (col b 0))
  else if D =? 1 then
    spec_slide_loop (col b) (Py.range_down (n - 1))
      (occupied (col b (n - 1)))
  else if D =? 2 then
    spec_slide_loop (λ i, b !!! i) (seq 1 (n - 1)) (occupied (b !!! 0%nat))
  else
    spec_slide_loop (λ i, b !!! i) (Py.range_down (n - 1))
      (occupied (b !!! (n - 1)%nat)).

(** *** States *)

Definition no_empty (n : nat) (b : list (list Z)) : Prop :=
  ∀ r c, (r < n)%nat → (c < n)%nat → cell b r c ≠ 0.

Definition has_empty (n : nat) (b : list (list Z)) : Prop :=
  ∃ r c, (r < n)%nat ∧ (c < n)%nat ∧ cell b r c = 0.

(** A state of the environment between two calls: the arrays have their
    shapes and [self.legal_moves] is the vector computed from the board,
    as [reset] and [step] leave it. *)
Record wf_state (g : Game) : Prop := MkWf {
  wf_size : (0 < size g)%nat;
  wf_cells : wf_board (size g) (board g);
  wf_legal : length (legal_moves g) = 4%nat
}.

Definition in_sync (g : Game) : Prop :=
  _update_legal_moves (size g) (board g) (legal_moves g)
  = Some (legal_moves g).

(** The states of an episode: [reset] on an environment whose goal passed
    the assertion of [__init__], then calls of [step] for as long as none
    has returned [terminated = True]. The flag is the last [terminated]. *)
Inductive reachable : Game → bool → Prop :=
| reach_reset g0 seed g :
    valid_goal g0 → reset g0 seed = Some g → reachable g false
| reach_step g action g' reward terminated :
    reachable g false → step g action = Some (g', reward, terminated) →
    reachable g' terminated.

(** What holds of the states of an episode: the state is well formed, the
    goal is the validated one, the legal-move vector is up to date, and no
    cell exceeds [board_goal] (nor reaches it while the episode goes on). *)
Record episode_inv (g : Game) (t : bool) : Prop := MkEpisodeInv {
  inv_wf : wf_state g;
  inv_goal : valid_goal g;
  inv_sync : in_sync g;
  inv_cells : ∀ r c, (r < size g)%nat → (c < size g)%nat →
                0 ≤ cell (board g) r c ≤ board_goal g;
  inv_live : t = false →
             ∀ r c, (r < size g)%nat → (c < size g)%nat →
               0 ≤ cell (board g) r c ≤ board_goal g - 1
}.

Definition has_tile (n : nat) (b : list (list Z)) : Prop :=
  ∃ r c, (r < n)%nat ∧ (c < n)%nat ∧ cell b r c ≠ 0.

(** *** Numeric value *)

Definition zsum (l : list Z) : Z := foldr Z.add 0 l.

(** The numeric value [2 ^ e] of a cell, 0 for an empty one, and the totals
    over a line and over the board. *)
Definition tile_value (e : Z) : Z := if e =? 0 then 0 else 2 ^ e.

Definition line_value (l : list Z) : Z := zsum (tile_value <$> l).

Definition board_value (b : list (list Z)) : Z := zsum (line_value <$> b).

(** Every cell lies in [[lo, hi]]. *)
Definition bounded (n : nat) (b : list (list Z)) (lo hi : Z) : Prop :=
  ∀ r c, (r < n)%nat → (c < n)%nat → lo ≤ cell b r c ≤ hi.

(** *** Provenance of the tiles of a moved line *)

(** A tile of the result is a tile of the line moved as it is, or the
    fusion of two equal tiles of the line. *)
Inductive group := Moved (e : Z) | Fused (e : Z).

Definition sources (g : group) : list Z :=
  match g with Moved e => [e] | Fused e => [e; e] end.

Definition result (g : group) : Z :=
  match g with Moved e => e | Fused e => e + 1 end.

Definition fused (gs : list group) : list Z :=
  gs ≫= λ g, match g with Moved _ => [] | Fused e => [e + 1] end.

Fixpoint grouping (ts : list Z) : list group :=
  match ts with
  | [] => []
  | a :: rest =>
      match rest with
      | [] => [Moved a]
      | b :: rest' =>
          if a =? b then Fused a :: grouping rest'
          else Moved a :: grouping rest
      end
  end.

(** *** Sample environments *)

Definition sample_rng : Generator := MkGen (λ k, (7 * k + 3)%nat) 0.

(** A fresh 2 x 2 environment with goal [2048], and its first state. *)
Definition sample_env : Game :=
  MkGame 2 11 0 0 [] [] true 0 [] 0 sample_rng.

Definition sample_start : Game := default sample_env (reset sample_env None).

(** A state of a 2 x 2 game: left, right and down are legal, up is not. *)
Definition sample_state : Game :=
  MkGame 2 11 0 1 [[1; 1]; [0; 0]] [1; 1; 0; 1] true 0 [] 0 sample_rng.

(** A 1 x 1 environment. *)
Definition tiny_env : Game := MkGame 1 11 0 0 [] [] true 0 [] 0 sample_rng.

(** A state of a 6 x 6 game with goal [2 ** 70] in which two tiles of
    exponent [e] are neighbours. *)
Definition twin_state (e : Z) : Game :=
  MkGame 6 70 0 1
    [ [e; e; 2; 1; 0; 0]; [0; 0; 0; 0; 0; 0]; [0; 0; 0; 0; 0; 0];
      [0; 0; 0; 0; 0; 0]; [0; 0; 0; 0; 0; 0]; [0; 0; 0; 0; 0; 0] ]
    [1; 1; 0; 1] true 0 [] 0 sample_rng.

(** The state that [step 0] leaves from [sample_state]. *)
Definition sample_next : Game :=
  MkGame 2 11 0 1 [[2; 1]; [0; 0]] [0; 0; 0; 1] true 4 [4] 1
    (MkGen (draws sample_rng) 2).

(** A state of a 2 x 2 game one move away from a loss, and the state that
    [step 0] leaves from it. *)
Definition loss_state : Game :=
  MkGame 2 11 0 1 [[0; 3]; [2; 4]] [1; 0; 1; 0] true 0 [] 0 sample_rng.

Definition lost_state : Game :=
  MkGame 2 11 0 1 [[3; 1]; [2; 4]] [0; 0; 0; 0] true 0 [] 1
    (MkGen (draws sample_rng) 2).

(** A state of a 6 x 6 game with goal [2 ** 30] whose score, an [int32]
    scalar, is 4 below [2 ** 31]; two tiles of value 2 are neighbours. The
    score and the step count are those of a game that built the tiles of
    the board from 41943040 spawned tiles of value 2 and 1048577 of value
    4. *)
Definition brim_state : Game :=
  MkGame 6 30 0 1
    [ [26; 24; 22; 1; 1; 0]; [0; 0; 0; 0; 0; 0]; [0; 0; 0; 0; 0; 0];
      [0; 0; 0; 0; 0; 0]; [0; 0; 0; 0; 0; 0]; [0; 0; 0; 0; 0; 0] ]
    [1; 1; 0; 1] true 2147483644 [] 42991615 sample_rng.

(** A logarithm without rounding error: the exponent on a power of two, no
    integer elsewhere. *)
Definition exact_log2 (x : Z) : Log2 :=
  if x =? 2 ^ Z.log2 x then Whole (Z.log2 x) else Fractional.

(** ** Proofs *)

(** *** Indexing *)

Lemma index_n_of_nat (n i : nat) :
  (i < n)%nat → Py.index_n n (Z.of_nat i) = Some i.
Proof.
  intros Hi. unfold Py.index_n.
  destruct (Z.leb_spec 0 (Z.of_nat i)); [|lia].
  destruct (Z.ltb_spec (Z.of_nat i) (Z.of_nat n)); [|lia].
  simpl. f_equal. lia.
Qed.

Lemma get_of_nat {A} (l : list A) (i : nat) :
  Py.get l (Z.of_nat i) = l !! i.
Proof.
  unfold Py.get, Py.index, Py.index_n.
  destruct (Z.leb_spec 0 (Z.of_nat i)); [|lia].
  destruct (Z.ltb_spec (Z.of_nat i) (Z.of_nat (length l))); simpl.
  - by rewrite Nat2Z.id.
  - destruct (Z.ltb_spec (Z.of_nat i) 0); [lia|].
    rewrite andb_false_r. simpl. symmetry. apply lookup_ge_None. lia.
Qed.

Lemma index_slot {A} (l : list A) (n : nat) (first d : Z) (j : nat) :
  geometry n first d → length l = n → (j < n)%nat →
  Py.index l (first + d * Z.of_nat j) = Some (slot first d j)
  ∧ (slot first d j < n)%nat.
Proof.
  intros G Hl Hj. unfold Py.index, Py.index_n, slot. rewrite Hl.
  destruct G as [[-> ->]|[-> ->]].
  - destruct (Z.leb_spec 0 (0 + 1 * Z.of_nat j)); [|lia].
    destruct (Z.ltb_spec (0 + 1 * Z.of_nat j) (Z.of_nat n)); [|lia].
    simpl. split; [done|lia].
  - destruct (Z.leb_spec 0 (Z.of_nat n - 1 + -1 * Z.of_nat j)); [|lia].
    destruct (Z.ltb_spec (Z.of_nat n - 1 + -1 * Z.of_nat j) (Z.of_nat n));
      [|lia].
    simpl. split; [done|lia].
Qed.

Lemma slot_inj (n : nat) (first d : Z) (i j : nat) :
  geometry n first d → (i < n)%nat → (j < n)%nat →
  slot first d i = slot first d j → i = j.
Proof. intros [[-> ->]|[-> ->]] Hi Hj; unfold slot; lia. Qed.

Lemma get_slot {A} (l : list A) (n : nat) (first d i : Z) (j : nat) :
  geometry n first d → length l = n → (j < n)%nat →
  i = first + d * Z.of_nat j →
  Py.get l i = l !! slot first d j.
Proof.
  intros G Hl Hj ->. unfold Py.get.
  destruct (index_slot l n first d j G Hl Hj) as [-> _]. done.
Qed.

Lemma set_slot {A} (l : list A) (n : nat) (first d i : Z) (j : nat) v :
  geometry n first d → length l = n → (j < n)%nat →
  i = first + d * Z.of_nat j →
  Py.set l i v = Some (<[slot first d j := v]> l).
Proof.
  intros G Hl Hj ->. unfold Py.set.
  destruct (index_slot l n first d j G Hl Hj) as [-> _]. done.
Qed.

Lemma reverse_lookup_last (x : Z) (l : list Z) :
  reverse (x :: l) !! length l = Some x.
Proof.
  rewrite reverse_cons. apply list_lookup_middle. by rewrite length_reverse.
Qed.

Lemma reverse_lookup_other (x : Z) (l : list Z) (j : nat) :
  j ≠ length l → reverse (x :: l) !! j = reverse l !! j.
Proof.
  intros Hj. rewrite reverse_cons.
  destruct (decide (j < length l)%nat) as [Hlt|Hge].
  - apply lookup_app_l. by rewrite length_reverse.
  - rewrite !lookup_ge_None_2; [done| |];
      rewrite ?length_app, length_reverse; simpl; lia.
Qed.

(** *** One iteration of the loop follows [place] *)

Lemma combine_body_inv n first d sps0 k s a line i x :
  geometry n first d → Inv n first d sps0 k s a → (k < n)%nat →
  line !! i = Some x →
  ∃ s', combine_body first d line i s = Some s'
        ∧ Inv n first d sps0 (S k) s' (place a x).
Proof.
  intros G [H1 H2 H3 H4 H5 H6 H7 H8] Hk Hx.
  unfold combine_body. rewrite get_of_nat, Hx. simpl. unfold place.
  destruct (Z.eqb_spec x 0) as [->|Hx0]; simpl.
  { exists s. split; [done|]. constructor; auto. }
  destruct (out a) as [|h r] eqn:Hout; simpl in *.
  - (* the first tile of the line *)
    assert (cur s = first) as Hc by lia.
    rewrite Hc, Z.eqb_refl.
    rewrite (set_slot _ n first d first 0%nat) by (auto; lia). simpl.
    eexists. split; [done|]. constructor; simpl; auto.
    + by rewrite length_insert.
    + lia.
    + lia.
    + intros j Hj. destruct (decide (j = 0%nat)) as [->|Hne].
      * rewrite list_lookup_insert_eq; [done|].
        rewrite H1. by apply (index_slot (new_line s) n first d 0%nat).
      * rewrite list_lookup_insert_ne
          by (intros E; apply (slot_inj n) in E; auto; lia).
        rewrite H5 by done. destruct j; [done|]. done.
    + intros j Hj. apply H6. lia.
    + intros j Hj. apply H6. lia.
  - (* a tile is already placed at [cur - d] *)
    assert (length r < n)%nat as Hr by lia.
    assert (cur s ≠ first) as Hc
      by (destruct G as [[-> ->]|[-> ->]]; lia).
    destruct (Z.eqb_spec (cur s) first) as [|_]; [done|].
    rewrite (get_slot (new_line s) n first d _ (length r))
      by (auto; destruct G as [[-> ->]|[-> ->]]; lia).
    rewrite H5 by done. rewrite reverse_lookup_last. simpl.
    rewrite (get_slot (is_combined s) n first d _ (length r))
      by (auto; destruct G as [[-> ->]|[-> ->]]; lia).
    rewrite (H7 (length r)) by done. simpl.
    assert (((if blocked a then 1 else 0) =? 0) = negb (blocked a)) as ->
      by (by destruct (blocked a)).
    destruct ((h =? x) && negb (blocked a)) eqn:Hm.
    + (* merge into the tile at [cur - d] *)
      rewrite (set_slot (new_line s) n first d _ (length r))
        by (auto; destruct G as [[-> ->]|[-> ->]]; lia).
      simpl.
      rewrite (get_slot _ n first d _ (length r))
        by (auto; rewrite ?length_insert; auto;
            destruct G as [[-> ->]|[-> ->]]; lia).
      assert (slot first d (length r) < n)%nat as Hs
        by (by apply (index_slot (new_line s) n first d (length r))).
      rewrite list_lookup_insert_eq by lia. simpl.
      rewrite (set_slot (is_combined s) n first d _ (length r))
        by (auto; destruct G as [[-> ->]|[-> ->]]; lia).
      simpl. eexists. split; [done|]. constructor; simpl; auto.
      * by rewrite length_insert.
      * by rewrite length_insert.
      * intros j Hj. destruct (decide (j = length r)) as [->|Hne].
        -- rewrite list_lookup_insert_eq by lia.
           by rewrite reverse_lookup_last.
        -- rewrite list_lookup_insert_ne
             by (intros E; apply (slot_inj n) in E; auto).
           rewrite H5 by done.
           by rewrite !reverse_lookup_other.
      * intros j Hj. rewrite list_lookup_insert_ne
          by (intros E; apply (slot_inj n) in E; auto; lia).
        apply H6. lia.
      * intros j Hj. assert (j = length r) as -> by lia.
        by rewrite list_lookup_insert_eq by lia.
      * by rewrite H8, app_assoc.
    + (* place the tile at [cur] *)
      rewrite (set_slot (new_line s) n first d _ (S (length r)))
        by (auto; lia).
      simpl. eexists. split; [done|]. constructor; simpl; auto.
      * by rewrite length_insert.
      * lia.
      * lia.
      * intros j Hj. destruct (decide (j = S (length r))) as [->|Hne].
        -- rewrite list_lookup_insert_eq; [|].
           ++ pose proof (reverse_lookup_last x (h :: r)) as E.
              change (length (h :: r)) with (S (length r)) in E.
              by rewrite E.
           ++ rewrite H1.
              by apply (index_slot (new_line s) n first d (S (length r))).
        -- rewrite list_lookup_insert_ne
             by (intros E; apply (slot_inj n) in E; auto; lia).
           rewrite H5 by done.
           by rewrite (reverse_lookup_other x (h :: r)) by (simpl; lia).
      * intros j Hj. apply H6. lia.
      * intros j Hj. apply H6. lia.
Qed.

(** *** The whole loop follows a fold of [place] *)

Lemma combine_loop_inv n first d sps0 line idxs xs :
  geometry n first d →
  Forall2 (λ i x, line !! i = Some x) idxs xs →
  ∀ k s a, Inv n first d sps0 k s a → (k + length idxs ≤ n)%nat →
  ∃ s', Py.for_ idxs (combine_body first d line) s = Some s'
        ∧ Inv n first d sps0 (k + length idxs) s' (foldl place a xs).
Proof.
  intros G HF. induction HF as [|i x idxs xs Hx HF IH]; intros k s a HI Hk.
  - exists s. split; [done|]. simpl. by rewrite Nat.add_0_r.
  - simpl in Hk.
    destruct (combine_body_inv n first d sps0 k s a line i x)
      as (s1 & E1 & I1); [done|done|lia|done|].
    destruct (IH (S k) s1 (place a x) I1) as (s2 & E2 & I2); [lia|].
    exists s2. split.
    + simpl. rewrite E1. simpl. done.
    + simpl. by replace (k + S (length idxs))%nat
        with (S k + length idxs)%nat by lia.
Qed.

Lemma range_reads (line : list Z) :
  Forall2 (λ i x, line !! i = Some x) (Py.range (length line)) line.
Proof.
  apply Forall2_same_length_lookup_2.
  - unfold Py.range. by rewrite length_seq.
  - intros i j x Hj Hx. unfold Py.range in Hj.
    apply lookup_seq in Hj as [-> _]. done.
Qed.

Lemma range_down_reads (line : list Z) :
  Forall2 (λ i x, line !! i = Some x)
    (Py.range_down (length line)) (reverse line).
Proof.
  apply Forall2_same_length_lookup_2.
  - unfold Py.range_down. by rewrite !length_reverse, length_seq.
  - intros i j x Hj Hx. unfold Py.range_down in Hj.
    apply reverse_lookup_Some in Hj as [Hj _].
    apply reverse_lookup_Some in Hx as [Hx _].
    rewrite length_seq in Hj. apply lookup_seq in Hj as [-> _]. done.
Qed.

Lemma Inv_init n first d sps0 :
  geometry n first d →
  Inv n first d sps0 0
    (MkComb (replicate n 0) (replicate n 0) first sps0)
    (MkAcc [] false []).
Proof.
  intros G. constructor; simpl.
  - by rewrite length_replicate.
  - by rewrite length_replicate.
  - done.
  - lia.
  - intros j Hj. rewrite lookup_replicate_2; [done|].
    by apply (index_slot (replicate n 0) n first d j);
      rewrite ?length_replicate.
  - intros j Hj. rewrite lookup_replicate_2; [done|].
    by apply (index_slot (replicate n 0) n first d j);
      rewrite ?length_replicate; try lia.
  - intros j Hj. lia.
  - by rewrite app_nil_r.
Qed.

(** *** A fold of [place] is one pass of [merge] *)

Lemma merge_cons2 a b l :
  merge (a :: b :: l)
  = if a =? b then (a + 1) :: merge l else a :: merge (b :: l).
Proof. done. Qed.

Lemma merged_cons2 a b l :
  merged (a :: b :: l)
  = if a =? b then (a + 1) :: merged l else merged (b :: l).
Proof. done. Qed.

Lemma tiles_cons x l :
  tiles (x :: l) = if x =? 0 then tiles l else x :: tiles l.
Proof. done. Qed.

Lemma foldl_place_merge xs : ∀ a,
  out (foldl place a xs) = (pending a (tiles xs)).1
  ∧ ev (foldl place a xs) = ev a ++ (scalar_pow2 <$> (pending a (tiles xs)).2).
Proof.
  induction xs as [|x xs IH]; intros a.
  - unfold pending. simpl.
    destruct (out a) as [|h r]; simpl; [by rewrite app_nil_r|].
    destruct (blocked a); simpl; by rewrite app_nil_r.
  - simpl foldl. rewrite tiles_cons.
    destruct (IH (place a x)) as [IH1 IH2]. rewrite IH1, IH2. clear IH.
    unfold place, pending.
    destruct (Z.eqb_spec x 0) as [->|Hx]; [done|].
    destruct (out a) as [|h r]; simpl out; simpl blocked; simpl ev.
    + lazy beta iota. cbn [fst snd]. by rewrite app_nil_r.
    + destruct (blocked a).
      * rewrite andb_false_r. lazy beta iota. cbn [fst snd out blocked ev].
        done.
      * rewrite andb_true_r, !merge_cons2, !merged_cons2.
        destruct (h =? x); lazy beta iota; cbn [fst snd out blocked ev].
        -- rewrite reverse_cons, <- !app_assoc, fmap_cons. done.
        -- rewrite (reverse_cons _ h), <- !app_assoc. done.
Qed.

(** *** Induction along [merge] *)

Lemma merge_ind (P : list Z → Prop) :
  P [] → (∀ a, P [a]) →
  (∀ a l, P l → P (a :: a :: l)) →
  (∀ a b l, a ≠ b → P (b :: l) → P (a :: b :: l)) →
  ∀ l, P l.
Proof.
  intros H0 H1 Heq Hne l.
  assert (∀ n l, (length l ≤ n)%nat → P l) as Hn; [|by apply (Hn (length l))].
  clear l. induction n as [|n IH]; intros l Hl.
  - destruct l; [done|simpl in Hl; lia].
  - destruct l as [|a [|b l]]; [done|done|]. simpl in Hl.
    destruct (decide (a = b)) as [->|Hab].
    + apply Heq, IH. lia.
    + apply Hne; [done|]. apply IH. simpl. lia.
Qed.

Lemma merge_eq a l : merge (a :: a :: l) = (a + 1) :: merge l.
Proof. by rewrite merge_cons2, Z.eqb_refl. Qed.

Lemma merge_ne a b l : a ≠ b → merge (a :: b :: l) = a :: merge (b :: l).
Proof. intros H. rewrite merge_cons2. by destruct (Z.eqb_spec a b). Qed.

Lemma merged_eq a l : merged (a :: a :: l) = (a + 1) :: merged l.
Proof. by rewrite merged_cons2, Z.eqb_refl. Qed.

Lemma merged_ne a b l : a ≠ b → merged (a :: b :: l) = merged (b :: l).
Proof. intros H. rewrite merged_cons2. by destruct (Z.eqb_spec a b). Qed.

Lemma length_merge ts :
  (length (merge ts) + length (merged ts) = length ts)%nat.
Proof.
  induction ts as [| |a l IH|a b l Hab IH] using merge_ind; [done|done| |].
  - rewrite merge_eq, merged_eq. simpl. lia.
  - rewrite merge_ne, merged_ne by done. simpl in *. lia.
Qed.

Lemma length_tiles l : (length (tiles l) ≤ length l)%nat.
Proof.
  induction l as [|x l IH]; [done|]. rewrite tiles_cons.
  destruct (x =? 0); simpl; lia.
Qed.

Lemma tiles_app l1 l2 : tiles (l1 ++ l2) = tiles l1 ++ tiles l2.
Proof.
  induction l1 as [|x l1 IH]; [done|]. simpl. destruct (x =? 0); [done|].
  simpl. by rewrite IH.
Qed.

Lemma tiles_reverse l : tiles (reverse l) = reverse (tiles l).
Proof.
  induction l as [|x l IH]; [done|].
  rewrite reverse_cons, tiles_app, IH, tiles_cons. simpl.
  destruct (x =? 0); [by rewrite app_nil_r|by rewrite reverse_cons].
Qed.

Lemma length_pad n l : (length l ≤ n)%nat → length (pad n l) = n.
Proof. intros H. unfold pad. rewrite length_app, length_replicate. lia. Qed.

Lemma lookup_pad n l j :
  (length l ≤ n)%nat → (j < n)%nat →
  pad n l !! j = Some (default 0 (l !! j)).
Proof.
  intros Hl Hj. unfold pad. destruct (decide (j < length l)%nat) as [H|H].
  - rewrite lookup_app_l by done.
    destruct (lookup_lt_is_Some_2 l j H) as [x ->]. done.
  - rewrite lookup_app_r by lia. rewrite lookup_replicate_2 by lia.
    by rewrite lookup_ge_None_2 by lia.
Qed.

(** *** [_combiner] computes [combined] *)

Lemma combine_loop_spec n first d sps0 line idxs xs :
  geometry n first d →
  Forall2 (λ i x, line !! i = Some x) idxs xs → length idxs = n →
  ∃ s', Py.for_ idxs (combine_body first d line)
          (MkComb (replicate n 0) (replicate n 0) first sps0) = Some s'
        ∧ length (new_line s') = n
        ∧ (∀ j, (j < n)%nat →
             new_line s' !! slot first d j
             = pad n (merge (tiles xs)) !! j)
        ∧ sps s' = sps0 ++ (scalar_pow2 <$> merged (tiles xs)).
Proof.
  intros G HF Hn.
  destruct (combine_loop_inv n first d sps0 line idxs xs G HF 0%nat _ _
              (Inv_init n first d sps0 G)) as (s' & E & I); [lia|].
  exists s'. split; [done|].
  destruct (foldl_place_merge xs (MkAcc [] false [])) as [Ho He].
  unfold pending in Ho, He. simpl in Ho, He.
  destruct I as [H1 H2 H3 H4 H5 H6 H7 H8].
  split; [done|]. split.
  - intros j Hj. rewrite H5 by done. rewrite Ho, reverse_involutive.
    rewrite lookup_pad; [done| |done].
    pose proof (length_merge (tiles xs)). pose proof (length_tiles xs).
    apply Forall2_length in HF. lia.
  - by rewrite H8, He.
Qed.

Theorem combiner_spec n line way sps0 :
  length line = n → way = 0 ∨ way = 1 →
  _combiner n line way sps0
  = Some (combined way line,
          sps0 ++ (scalar_pow2 <$> merged (tiles (orient way line)))).
Proof.
  intros Hn Hway. unfold _combiner, combined, orient.
  assert (length (merge (tiles line)) ≤ n)%nat as Hl0.
  { pose proof (length_merge (tiles line)).
    pose proof (length_tiles line). lia. }
  assert (length (merge (tiles (reverse line))) ≤ n)%nat as Hl1.
  { pose proof (length_merge (tiles (reverse line))).
    pose proof (length_tiles (reverse line)).
    rewrite length_reverse in *. lia. }
  destruct Hway as [-> | ->]; simpl.
  - change (combine_left line) with (combine_body 0 1 line).
    destruct (combine_loop_spec n 0 1 sps0 line (Py.range n) line)
      as (s' & -> & Hlen & Hnl & Hsps).
    + by left.
    + rewrite <- Hn. apply range_reads.
    + unfold Py.range. by rewrite length_seq.
    + simpl. f_equal. f_equal; [|done]. rewrite Hn.
      apply list_eq. intros j.
      destruct (decide (j < n)%nat) as [Hj|Hj].
      * rewrite <- Hnl by done. unfold slot. f_equal. lia.
      * rewrite !lookup_ge_None_2; [done| |]; rewrite ?length_pad; lia.
  - change (combine_right n line)
      with (combine_body (Z.of_nat n - 1) (-1) line).
    destruct (combine_loop_spec n (Z.of_nat n - 1) (-1) sps0 line
                (Py.range_down n) (reverse line))
      as (s' & -> & Hlen & Hnl & Hsps).
    + by right.
    + rewrite <- Hn. apply range_down_reads.
    + unfold Py.range_down. by rewrite length_reverse, length_seq.
    + simpl. f_equal. f_equal; [|done]. rewrite Hn.
      apply list_eq. intros j.
      destruct (decide (j < n)%nat) as [Hj|Hj].
      * rewrite reverse_lookup by (rewrite length_pad; lia).
        rewrite length_pad by done.
        rewrite <- Hnl by lia. unfold slot. f_equal. lia.
      * rewrite !lookup_ge_None_2; [done| |];
          rewrite ?length_reverse, ?length_pad; lia.
Qed.

(** *** Which lines a move changes *)

Lemma tiles_nonzero l : Forall (λ x, x ≠ 0) (tiles l).
Proof.
  induction l as [|x l IH]; [constructor|]. rewrite tiles_cons.
  destruct (Z.eqb_spec x 0); [done|by constructor].
Qed.

Lemma tiles_nonempty l j x : l !! j = Some x → x ≠ 0 → tiles l ≠ [].
Proof.
  revert j. induction l as [|a l IH]; intros [|j] Hj Hx; simpl in Hj;
    try done; rewrite tiles_cons.
  - injection Hj as ->. by destruct (Z.eqb_spec x 0).
  - destruct (a =? 0); [by eapply IH|done].
Qed.

(** The last tile of a line sits at or after position [#tiles - 1]. *)
Lemma last_tile l :
  tiles l ≠ [] →
  ∃ p y, l !! p = Some y ∧ y ≠ 0 ∧ (length (tiles l) ≤ S p)%nat.
Proof.
  induction l as [|a l IH]; [done|]. rewrite tiles_cons. intros Hne.
  destruct (tiles l) as [|t ts] eqn:E.
  - destruct (Z.eqb_spec a 0) as [|Ha]; [done|].
    exists 0%nat, a. simpl. split; [done|]. split; [done|lia].
  - destruct IH as (p & y & Hp & Hy & Hlen); [done|].
    exists (S p), y. split; [done|]. split; [done|].
    destruct (a =? 0); simpl in *; lia.
Qed.

Lemma gap_tiles l :
  gap l → ∃ p y, l !! p = Some y ∧ y ≠ 0 ∧ (length (tiles l) ≤ p)%nat.
Proof.
  intros (i & j & x & Hij & Hi & Hj & Hx). revert i j Hij Hi Hj.
  induction l as [|a l IH]; intros i j Hij Hi Hj; [done|].
  destruct j as [|j]; [lia|]. simpl in Hj. rewrite tiles_cons.
  destruct i as [|i]; simpl in Hi.
  - injection Hi as ->. simpl.
    destruct (last_tile l) as (p & y & Hp & Hy & Hlen);
      [by eapply tiles_nonempty|].
    exists (S p), y. split; [done|]. split; [done|lia].
  - destruct (IH i j) as (p & y & Hp & Hy & Hlen); [lia|done|done|].
    exists (S p), y. split; [done|]. split; [done|].
    destruct (a =? 0); simpl; lia.
Qed.

Lemma pair_in_cons a ts : pair_in ts = true → pair_in (a :: ts) = true.
Proof. destruct ts as [|b ts]; [done|]. intros H. simpl in *.
  rewrite H. apply orb_true_r. Qed.

Lemma adjacent_pair_in l : adjacent l → pair_in (tiles l) = true.
Proof.
  intros (c & a & Hc & Hc' & Ha). revert c Hc Hc'.
  induction l as [|x l IH]; intros c Hc Hc'; [done|].
  destruct c as [|c]; simpl in Hc, Hc'.
  - injection Hc as ->. destruct l as [|y l]; [done|]. simpl in Hc'.
    injection Hc' as ->. rewrite !tiles_cons.
    destruct (Z.eqb_spec a 0); [done|]. simpl. by rewrite Z.eqb_refl.
  - rewrite tiles_cons. specialize (IH c Hc Hc').
    destruct (x =? 0); [done|by apply pair_in_cons].
Qed.

Lemma pair_in_merged ts : pair_in ts = true → (0 < length (merged ts))%nat.
Proof.
  induction ts as [| |a l IH|a b l Hab IH] using merge_ind; [done|done| |].
  - intros _. rewrite merged_eq. simpl. lia.
  - intros H. rewrite merged_ne by done. apply IH.
    change (pair_in (a :: b :: l)) with ((a =? b) || pair_in (b :: l)) in H.
    by destruct (Z.eqb_spec a b).
Qed.

(** A line with two equal neighbours or a gap has a tile at a position that
    the merged tiles do not reach. *)
Lemma line_moves l :
  adjacent l ∨ gap l →
  ∃ p y, l !! p = Some y ∧ y ≠ 0 ∧ (length (merge (tiles l)) ≤ p)%nat.
Proof.
  pose proof (length_merge (tiles l)) as Hm. intros [Ha|Hg].
  - pose proof (pair_in_merged _ (adjacent_pair_in l Ha)) as Hp.
    destruct (last_tile l) as (p & y & Hp' & Hy & Hlen).
    { intros E. rewrite E in Hp. simpl in Hp. lia. }
    exists p, y. split; [done|]. split; [done|lia].
  - destruct (gap_tiles l Hg) as (p & y & Hp & Hy & Hlen).
    exists p, y. split; [done|]. split; [done|lia].
Qed.

Lemma tiles_all_zero l :
  (∀ j y, l !! j = Some y → y = 0) →
  tiles l = [] ∧ l = replicate (length l) 0.
Proof.
  induction l as [|a l IH]; [done|]. intros H.
  rewrite (H 0%nat a eq_refl). rewrite tiles_cons. simpl.
  destruct IH as [-> E]; [intros j y Hj; by apply (H (S j))|].
  by rewrite <- E.
Qed.

Lemma no_gap_compact l : ¬ gap l → pad (length l) (tiles l) = l.
Proof.
  induction l as [|a l IH]; [done|]. intros Hg. rewrite tiles_cons.
  destruct (Z.eqb_spec a 0) as [->|Ha].
  - destruct (tiles_all_zero l) as [-> E].
    { intros j y Hj. destruct (decide (y = 0)) as [|Hy]; [done|].
      exfalso. apply Hg. exists 0%nat, (S j), y. split; [lia|done]. }
    unfold pad. simpl. by rewrite <- E.
  - unfold pad in *. simpl. f_equal. apply IH.
    intros (i & j & x & Hij & Hi & Hj & Hx). apply Hg.
    exists (S i), (S j), x. split; [lia|done].
Qed.

Lemma pair_in_adjacent ts :
  pair_in ts = true → ∃ c a, ts !! c = Some a ∧ ts !! S c = Some a.
Proof.
  induction ts as [|a ts IH]; [done|]. destruct ts as [|b ts]; [done|].
  change (pair_in (a :: b :: ts)) with ((a =? b) || pair_in (b :: ts)).
  destruct (Z.eqb_spec a b) as [->|Hab]; simpl orb.
  - intros _. by exists 0%nat, b.
  - intros H. destruct (IH H) as (c & x & Hc & Hc'). by exists (S c), x.
Qed.

Lemma no_pair_merge ts : pair_in ts = false → merge ts = ts.
Proof.
  induction ts as [| |a l IH|a b l Hab IH] using merge_ind; [done|done| |].
  - simpl. by rewrite Z.eqb_refl.
  - change (pair_in (a :: b :: l)) with ((a =? b) || pair_in (b :: l)).
    destruct (Z.eqb_spec a b); [done|]. simpl orb. intros H.
    rewrite merge_ne by done. by rewrite IH.
Qed.

(** A line without equal neighbours and without a gap is left as it is. *)
Lemma line_stays l :
  ¬ adjacent l → ¬ gap l → pad (length l) (merge (tiles l)) = l.
Proof.
  intros Ha Hg. pose proof (no_gap_compact l Hg) as Hc.
  rewrite no_pair_merge; [done|].
  destruct (pair_in (tiles l)) eqn:E; [|done]. exfalso. apply Ha.
  destruct (pair_in_adjacent _ E) as (c & a & H1 & H2).
  exists c, a. rewrite <- Hc. unfold pad.
  rewrite !lookup_app_l by (by eapply lookup_lt_Some).
  split; [done|]. split; [done|].
  pose proof (tiles_nonzero l) as Hnz.
  rewrite Forall_lookup in Hnz. by apply (Hnz c).
Qed.

Lemma adjacent_reverse_1 l : adjacent (reverse l) → adjacent l.
Proof.
  intros (c & a & H1 & H2 & Ha).
  apply reverse_lookup_Some in H1 as [H1 _].
  apply reverse_lookup_Some in H2 as [H2 Hlt].
  exists (length l - S (S c))%nat, a. split; [done|]. split; [|done].
  by replace (S (length l - S (S c))) with (length l - S c)%nat by lia.
Qed.

Lemma adjacent_reverse l : adjacent (reverse l) ↔ adjacent l.
Proof.
  split; [apply adjacent_reverse_1|]. intros H. apply adjacent_reverse_1.
  by rewrite reverse_involutive.
Qed.

Lemma to_uint8_id l : Forall (λ x, 0 ≤ x < 256) l → to_uint8 <$> l = l.
Proof.
  induction 1 as [|x l Hx _ IH]; [done|]. rewrite fmap_cons, IH. f_equal.
  unfold to_uint8. by apply Z.mod_small.
Qed.

Lemma length_combined way l : length (combined way l) = length l.
Proof.
  unfold combined, orient.
  assert (∀ l', length l' = length l →
            length (pad (length l) (merge (tiles l'))) = length l) as H.
  { intros l' Hl'. apply length_pad. pose proof (length_merge (tiles l')).
    pose proof (length_tiles l'). lia. }
  destruct (way =? 0); [by apply H|].
  rewrite length_reverse. apply H. by rewrite length_reverse.
Qed.

(** A movable line loses the tile of some cell, also after the cast. *)
Lemma line_changed way l :
  way = 0 ∨ way = 1 →
  adjacent l ∨ gap (orient way l) →
  ∃ p y, l !! p = Some y ∧ y ≠ 0
         ∧ (to_uint8 <$> combined way l) !! p = Some 0.
Proof.
  intros Hway Hl. unfold combined. destruct Hway as [-> | ->].
  - change (orient 0 l) with l in *.
    change (orient 0 (pad (length l) (merge (tiles l))))
      with (pad (length l) (merge (tiles l))).
    destruct (line_moves l Hl) as (p & y & Hp & Hy & Hlen).
    exists p, y. split; [done|]. split; [done|].
    rewrite list_lookup_fmap, lookup_pad.
    + by rewrite lookup_ge_None_2 by done.
    + pose proof (length_merge (tiles l)). pose proof (length_tiles l). lia.
    + by eapply lookup_lt_Some.
  - change (orient 1 l) with (reverse l) in *.
    change (orient 1 (pad (length l) (merge (tiles (reverse l)))))
      with (reverse (pad (length l) (merge (tiles (reverse l))))).
    destruct (line_moves (reverse l)) as (p & y & Hp & Hy & Hlen).
    { destruct Hl as [Ha|Hg]; [left; by apply adjacent_reverse|by right]. }
    apply reverse_lookup_Some in Hp as [Hp Hlt].
    assert (length (merge (tiles (reverse l))) ≤ length l)%nat as Hm.
    { pose proof (length_merge (tiles (reverse l))).
      pose proof (length_tiles (reverse l)).
      rewrite length_reverse in *. lia. }
    exists (length l - S p)%nat, y. split; [done|]. split; [done|].
    rewrite list_lookup_fmap, reverse_lookup by (rewrite length_pad; lia).
    rewrite length_pad by done.
    replace (length l - S (length l - S p))%nat with p by lia.
    rewrite lookup_pad by done.
    by rewrite lookup_ge_None_2 by done.
Qed.

(** A line that is not movable is written back unchanged. *)
Lemma line_unchanged way l :
  way = 0 ∨ way = 1 → Forall (λ x, 0 ≤ x < 256) l →
  ¬ adjacent l → ¬ gap (orient way l) →
  to_uint8 <$> combined way l = l.
Proof.
  intros Hway Hu Ha Hg. unfold combined. destruct Hway as [-> | ->].
  - change (orient 0 l) with l in *.
    change (orient 0 (pad (length l) (merge (tiles l))))
      with (pad (length l) (merge (tiles l))).
    rewrite line_stays by done. by apply to_uint8_id.
  - change (orient 1 l) with (reverse l) in *.
    change (orient 1 (pad (length l) (merge (tiles (reverse l)))))
      with (reverse (pad (length l) (merge (tiles (reverse l))))).
    rewrite <- (length_reverse l), line_stays; [| |done].
    + rewrite reverse_involutive. by apply to_uint8_id.
    + intros H. by apply Ha, adjacent_reverse.
Qed.

(** *** The two loops of [step] *)

Lemma wf_board_shape n b : wf_board n b → shape n b.
Proof.
  intros [Hl HF]. split; [done|]. eapply Forall_impl; [done|]. by intros l [].
Qed.

Lemma move_rows_loop n way (todo : list (list Z)) :
  way = 0 ∨ way = 1 → Forall (λ l, length l = n) todo →
  ∀ (done_ : list (list Z)) sps0,
    Py.for_ (seq (length done_) (length todo))
      (λ r '(b, sps),
         line ← b !! r;
         '(new_line, sps) ← _combiner n line way sps;
         Some (set_row r new_line b, sps))
      (done_ ++ todo, sps0)
    = Some (done_ ++ (moved_line way <$> todo),
            sps0 ++ concat (line_events way <$> todo)).
Proof.
  intros Hway HF. induction HF as [|l todo Hl HF IH]; intros done_ sps0.
  - simpl. by rewrite !app_nil_r.
  - simpl length. simpl seq. simpl Py.for_.
    rewrite list_lookup_middle by done. simpl.
    rewrite (combiner_spec n l way sps0 Hl Hway). simpl.
    unfold set_row in *. rewrite insert_app_r_alt by done.
    rewrite Nat.sub_diag. simpl.
    specialize (IH (done_ ++ [moved_line way l])
                  (sps0 ++ line_events way l)).
    rewrite length_app in IH. simpl in IH.
    rewrite Nat.add_1_r in IH. rewrite <- !app_assoc in IH. simpl in IH.
    exact IH.
Qed.

Lemma seq_lookup_total_id (b : list (list Z)) :
  ((λ k, b !!! k) <$> seq 0 (length b)) = b.
Proof.
  apply list_eq. intros i. rewrite list_lookup_fmap.
  destruct (decide (i < length b)%nat) as [H|H].
  - rewrite lookup_seq_lt by done. simpl.
    destruct (lookup_lt_is_Some_2 b i H) as [x Hx].
    by rewrite (list_lookup_total_correct _ _ _ Hx).
  - rewrite lookup_seq_ge by lia. by rewrite lookup_ge_None_2 by lia.
Qed.

Lemma move_rows_spec n D b sps0 :
  D = 0 ∨ D = 1 → shape n b →
  move_rows n D b sps0
  = Some (moved_line D <$> b, sps0 ++ move_events n b D).
Proof.
  intros HD [Hn HF]. unfold move_rows, Py.range.
  pose proof (move_rows_loop n D b HD HF [] sps0) as H.
  simpl in H. rewrite Hn in H. rewrite H. f_equal. f_equal. f_equal.
  unfold move_events, axis_line, way_of.
  assert ((D <? 2) = true) as -> by (destruct HD as [-> | ->]; done).
  rewrite <- Hn.
  rewrite <- (seq_lookup_total_id b) at 1.
  by rewrite <- list_fmap_compose.
Qed.

Lemma length_col b c : length (col b c) = length b.
Proof. unfold col. by rewrite length_fmap. Qed.

Lemma set_col_lookup c v b i :
  set_col c v b !! i
  = (l ← b !! i; x ← v !! i; Some (<[c := to_uint8 x]> l)).
Proof. unfold set_col. by rewrite lookup_zip_with. Qed.

Lemma shape_set_col n c v b :
  shape n b → length v = n → shape n (set_col c v b).
Proof.
  intros [Hb HF] Hv. split.
  - unfold set_col. rewrite length_zip_with. lia.
  - apply Forall_lookup. intros i l Hl. rewrite set_col_lookup in Hl.
    destruct (b !! i) as [l0|] eqn:E; [|done]. simpl in Hl.
    destruct (v !! i) as [x|]; [|done]. simpl in Hl. injection Hl as <-.
    rewrite length_insert. rewrite Forall_lookup in HF. by eapply HF.
Qed.

Lemma col_set_col n c c' v b :
  shape n b → length v = n → (c < n)%nat →
  col (set_col c v b) c'
  = if decide (c' = c) then to_uint8 <$> v else col b c'.
Proof.
  intros [Hb HF] Hv Hc. apply list_eq. intros i. unfold col at 1.
  rewrite list_lookup_fmap, set_col_lookup.
  destruct (decide (i < n)%nat) as [Hi|Hi].
  - destruct (lookup_lt_is_Some_2 b i) as [l Hl]; [lia|].
    destruct (lookup_lt_is_Some_2 v i) as [x Hx]; [lia|].
    rewrite Hl, Hx. simpl.
    assert (length l = n) as Hlen
      by (rewrite Forall_lookup in HF; by eapply HF).
    destruct (decide (c' = c)) as [->|Hne].
    + rewrite list_lookup_total_insert_eq by lia.
      by rewrite list_lookup_fmap, Hx.
    + rewrite list_lookup_total_insert_ne by done.
      unfold col. by rewrite list_lookup_fmap, Hl.
  - rewrite (lookup_ge_None_2 b) by lia. simpl.
    destruct (decide (c' = c)).
    + by rewrite lookup_ge_None_2 by (rewrite length_fmap; lia).
    + by rewrite lookup_ge_None_2 by (rewrite length_col; lia).
Qed.

Lemma move_cols_loop n way :
  way = 0 ∨ way = 1 →
  ∀ k c0 b sps0, (c0 + k = n)%nat → shape n b →
    ∃ b',
      Py.for_ (seq c0 k)
        (λ c '(b, sps),
           '(new_line, sps) ← _combiner n (col b c) way sps;
           Some (set_col c new_line b, sps))
        (b, sps0)
      = Some (b', sps0
                  ++ concat ((λ c, line_events way (col b c)) <$> seq c0 k))
      ∧ shape n b'
      ∧ ∀ c, (c < n)%nat →
          col b' c
          = if decide (c0 ≤ c)%nat then moved_line way (col b c) else col b c.
Proof.
  intros Hway. induction k as [|k IH]; intros c0 b sps0 Hk Hb.
  - exists b. simpl. rewrite app_nil_r. split; [done|]. split; [done|].
    intros c Hc. destruct (decide (c0 ≤ c)%nat); [lia|done].
  - simpl seq. simpl Py.for_.
    assert (length (col b c0) = n) as Hlc
      by (rewrite length_col; apply Hb).
    rewrite (combiner_spec n (col b c0) way sps0 Hlc Hway). simpl.
    assert (length (combined way (col b c0)) = n) as Hlen
      by (by rewrite length_combined).
    pose proof (shape_set_col n c0 _ b Hb Hlen) as Hb1.
    destruct (IH (S c0) (set_col c0 (combined way (col b c0)) b)
                (sps0 ++ (scalar_pow2 <$>
                   merged (tiles (orient way (col b c0))))))
      as (b' & E & Hb' & Hcols); [lia|done|].
    exists b'. split; [|split; [done|]].
    + rewrite E. f_equal. f_equal. rewrite <- app_assoc. f_equal.
      unfold line_events at 3. f_equal. f_equal.
      apply list_fmap_ext. intros i c Hc.
      apply lookup_seq in Hc as [-> Hi].
      rewrite (col_set_col n) by (auto; lia).
      destruct (decide (S c0 + i = c0)%nat); [lia|done].
    + intros c Hc. rewrite Hcols by done.
      rewrite (col_set_col n) by (auto; lia).
      destruct (decide (S c0 ≤ c)%nat), (decide (c = c0)),
        (decide (c0 ≤ c)%nat); try lia; try done.
      by subst.
Qed.

Lemma move_cols_spec n D b sps0 :
  D = 2 ∨ D = 3 → shape n b →
  ∃ b', move_cols n D b sps0 = Some (b', sps0 ++ move_events n b D)
        ∧ shape n b'
        ∧ ∀ c, (c < n)%nat → col b' c = moved_line (D - 2) (col b c).
Proof.
  intros HD Hb. unfold move_cols, Py.range.
  destruct (move_cols_loop n (D - 2)) with (k := n) (c0 := 0%nat) (b := b)
    (sps0 := sps0) as (b' & E & Hb' & Hcols);
    [destruct HD as [-> | ->]; auto|lia|done|].
  exists b'. split; [|split; [done|]].
  - rewrite E. unfold move_events, axis_line, way_of.
    by assert ((D <? 2) = false) as -> by (destruct HD as [-> | ->]; done).
  - intros c Hc. rewrite Hcols by done.
    destruct (decide (0 ≤ c)%nat); [done|lia].
Qed.

(** *** The scan of [_check_legal] *)

Lemma np_any_lookup (a : list bool) :
  np_any a = true ↔ ∃ k, a !! k = Some true.
Proof.
  unfold np_any. rewrite existsb_exists. split.
  - intros ([|] & Hin & Hx); [|done].
    apply list_elem_of_In in Hin. by apply list_elem_of_lookup.
  - intros (k & Hk). exists true. split; [|done].
    apply list_elem_of_In. apply list_elem_of_lookup. by exists k.
Qed.

Lemma occupied_true l k :
  occupied l !! k = Some true ↔ ∃ x, l !! k = Some x ∧ x ≠ 0.
Proof.
  unfold occupied. rewrite list_lookup_fmap. split.
  - destruct (l !! k) as [x|]; [|done]. simpl. intros [= H].
    exists x. split; [done|]. by destruct (Z.eqb_spec x 0).
  - intros (x & -> & Hx). simpl. by destruct (Z.eqb_spec x 0).
Qed.

Lemma occupied_false l k : occupied l !! k = Some false ↔ l !! k = Some 0.
Proof.
  unfold occupied. rewrite list_lookup_fmap. split.
  - destruct (l !! k) as [x|]; [|done]. simpl. intros [= H].
    destruct (Z.eqb_spec x 0) as [E|E]; [by rewrite E|done].
  - by intros ->.
Qed.

Lemma found_lookup (checker line : list bool) :
  np_any (zip_with andb (zip_with xorb checker line) checker) = true
  ↔ ∃ k, checker !! k = Some true ∧ line !! k = Some false.
Proof.
  rewrite np_any_lookup. split.
  - intros (k & Hk). exists k.
    apply lookup_zip_with_Some in Hk as (x & y & E & Hx & Hy).
    apply lookup_zip_with_Some in Hx as (u & v & -> & Hu & Hv).
    assert (u = y) as -> by congruence.
    destruct y, v; try done.
  - intros (k & Hc & Hl). exists k.
    apply lookup_zip_with_Some. exists true, true. split; [done|].
    split; [|done]. apply lookup_zip_with_Some. by exists true, false.
Qed.

Lemma or_lookup (checker line : list bool) k :
  length checker = length line →
  zip_with orb checker line !! k = Some true
  ↔ checker !! k = Some true ∨ line !! k = Some true.
Proof.
  intros Hlen. rewrite lookup_zip_with_Some. split.
  - intros (x & y & E & Hx & Hy). destruct x; [by left|].
    destruct y; [by right|done].
  - intros [H|H].
    + destruct (lookup_lt_is_Some_2 line k) as [y Hy].
      { rewrite <- Hlen. by eapply lookup_lt_Some. }
      by exists true, y.
    + destruct (lookup_lt_is_Some_2 checker k) as [x Hx].
      { rewrite Hlen. by eapply lookup_lt_Some. }
      exists x, true. by rewrite orb_true_r.
Qed.

(** The loop answers [True] exactly when some slice is empty at a position
    where the checker or an earlier slice of the loop is occupied. *)
Lemma slide_loop_spec slice n : ∀ idxs checker,
  length checker = n → (∀ i, i ∈ idxs → length (slice i) = n) →
  slide_loop slice idxs checker = true
  ↔ ∃ k q i, idxs !! q = Some i ∧ slice i !! k = Some 0
      ∧ (checker !! k = Some true
         ∨ ∃ p i' x, (p < q)%nat ∧ idxs !! p = Some i'
             ∧ slice i' !! k = Some x ∧ x ≠ 0).
Proof.
  induction idxs as [|i0 idxs IH]; intros checker Hc Hs.
  - simpl. split; [done|]. by intros (k & q & i & Hq & _).
  - simpl slide_loop.
    assert (length (occupied (slice i0)) = n) as Hl0.
    { unfold occupied. rewrite length_fmap. apply Hs. by left. }
    destruct (np_any _) eqn:Hfound.
    + split; [intros _|done].
      apply found_lookup in Hfound as (k & Hck & Hlk).
      apply occupied_false in Hlk. exists k, 0%nat, i0.
      split; [done|]. split; [done|]. by left.
    + rewrite IH; [| |].
      * split.
        -- intros (k & q & i & Hq & Hi & Hsrc). exists k, (S q), i.
           split; [done|]. split; [done|].
           destruct Hsrc as [Hor|(p & i' & x & Hp & Hi' & Hx & Hx0)].
           ++ apply or_lookup in Hor as [H|H]; [by left| |congruence].
              right. apply occupied_true in H as (x & Hx & Hx0).
              exists 0%nat, i0, x. split; [lia|done].
           ++ right. exists (S p), i', x. split; [lia|done].
        -- intros (k & q & i & Hq & Hi & Hsrc).
           destruct q as [|q].
           ++ simpl in Hq. injection Hq as <-.
              destruct Hsrc as [Hck|(p & _ & _ & Hp & _)]; [|lia].
              exfalso.
              assert (np_any (zip_with andb
                        (zip_with xorb checker (occupied (slice i0)))
                        checker) = true) as E; [|congruence].
              apply found_lookup. exists k. split; [done|].
              by apply occupied_false.
           ++ simpl in Hq. exists k, q, i. split; [done|]. split; [done|].
              destruct Hsrc as [Hck|(p & i' & x & Hp & Hi' & Hx & Hx0)].
              ** left. apply or_lookup; [congruence|]. by left.
              ** destruct p as [|p].
                 --- simpl in Hi'. injection Hi' as <-. left.
                     apply or_lookup; [congruence|]. right.
                     apply occupied_true. by exists x.
                 --- simpl in Hi'. right. exists p, i', x.
                     split; [lia|done].
      * rewrite length_zip_with. lia.
      * intros i Hi. apply Hs. by right.
Qed.

Lemma cross_lookup slice n k i :
  (i < n)%nat → cross slice n k !! i = Some (slice i !!! k).
Proof.
  intros Hi. unfold cross. rewrite list_lookup_fmap.
  by rewrite lookup_seq_lt by done.
Qed.

Lemma cross_lookup_Some slice n k i x :
  cross slice n k !! i = Some x → (i < n)%nat ∧ x = slice i !!! k.
Proof.
  intros H. assert (i < n)%nat as Hi.
  { apply lookup_lt_Some in H. unfold cross in H.
    by rewrite length_fmap, length_seq in H. }
  rewrite cross_lookup in H by done. split; [done|congruence].
Qed.

Lemma range_down_lookup m q i :
  Py.range_down m !! q = Some i ↔ (q < m)%nat ∧ i = (m - S q)%nat.
Proof.
  unfold Py.range_down. rewrite reverse_lookup_Some, length_seq, lookup_seq.
  split; intros H; (split; [lia|]); lia.
Qed.

Lemma slice_lookup_total (slice : nat → list Z) n i k :
  length (slice i) = n → (k < n)%nat → slice i !! k = Some (slice i !!! k).
Proof. intros Hl Hk. apply list_lookup_lookup_total_lt. lia. Qed.

(** Scanning from the last slice down to the first one finds, in some cross
    line, an empty cell before a tile. *)
Lemma scan_down slice n :
  (0 < n)%nat → (∀ i, (i < n)%nat → length (slice i) = n) →
  slide_loop slice (Py.range_down (n - 1)) (occupied (slice (n - 1)%nat))
    = true
  ↔ ∃ k, (k < n)%nat ∧ gap (cross slice n k).
Proof.
  intros Hn Hs. rewrite (slide_loop_spec slice n).
  - split.
    + intros (k & q & i & Hq & Hi & Hsrc).
      apply range_down_lookup in Hq as [Hq ->].
      assert (k < n)%nat as Hk.
      { apply lookup_lt_Some in Hi. rewrite Hs in Hi; lia. }
      exists k. split; [done|].
      destruct Hsrc as [Hck|(p & i' & x & Hp & Hi' & Hx & Hx0)].
      * apply occupied_true in Hck as (x & Hx & Hx0).
        exists (n - 1 - S q)%nat, (n - 1)%nat, x. split; [lia|].
        rewrite !cross_lookup by lia.
        rewrite (list_lookup_total_correct _ _ _ Hi).
        by rewrite (list_lookup_total_correct _ _ _ Hx).
      * apply range_down_lookup in Hi' as [Hp' ->].
        exists (n - 1 - S q)%nat, (n - 1 - S p)%nat, x. split; [lia|].
        rewrite !cross_lookup by lia.
        rewrite (list_lookup_total_correct _ _ _ Hi).
        by rewrite (list_lookup_total_correct _ _ _ Hx).
    + intros (k & Hk & i & j & x & Hij & Hi & Hj & Hx0).
      apply cross_lookup_Some in Hi as [Hi E0].
      apply cross_lookup_Some in Hj as [Hj Ex].
      exists k, (n - 2 - i)%nat, i. split; [apply range_down_lookup; lia|].
      split; [rewrite (slice_lookup_total slice n) by auto; congruence|].
      destruct (decide (j = n - 1)%nat) as [->|Hne].
      * left. apply occupied_true. exists x. split; [|done].
        rewrite (slice_lookup_total slice n) by (auto; lia). congruence.
      * right. exists (n - 2 - j)%nat, j, x. split; [lia|].
        split; [apply range_down_lookup; lia|]. split; [|done].
        rewrite (slice_lookup_total slice n) by auto. congruence.
  - unfold occupied. rewrite length_fmap. apply Hs. lia.
  - intros i Hi. apply list_elem_of_lookup in Hi as [q Hq].
    apply range_down_lookup in Hq as [Hq ->]. apply Hs. lia.
Qed.

(** Scanning from the first slice up to the last one finds, in some cross
    line, a tile before an empty cell. *)
Lemma scan_up slice n :
  (0 < n)%nat → (∀ i, (i < n)%nat → length (slice i) = n) →
  slide_loop slice (seq 1 (n - 1)) (occupied (slice 0%nat)) = true
  ↔ ∃ k, (k < n)%nat ∧ gap (reverse (cross slice n k)).
Proof.
  intros Hn Hs.
  assert (∀ k, length (cross slice n k) = n) as Hlc.
  { intros k. unfold cross. by rewrite length_fmap, length_seq. }
  rewrite (slide_loop_spec slice n).
  - split.
    + intros (k & q & i & Hq & Hi & Hsrc).
      apply lookup_seq in Hq as [-> Hq].
      assert (k < n)%nat as Hk.
      { apply lookup_lt_Some in Hi. rewrite Hs in Hi; lia. }
      exists k. split; [done|].
      destruct Hsrc as [Hck|(p & i' & x & Hp & Hi' & Hx & Hx0)].
      * apply occupied_true in Hck as (x & Hx & Hx0).
        exists (n - S (1 + q))%nat, (n - 1)%nat, x. split; [lia|].
        rewrite !reverse_lookup_Some, !Hlc.
        replace (n - S (n - S (1 + q)))%nat with (1 + q)%nat by lia.
        replace (n - S (n - 1))%nat with 0%nat by lia.
        rewrite !cross_lookup by lia.
        rewrite (list_lookup_total_correct _ _ _ Hi).
        rewrite (list_lookup_total_correct _ _ _ Hx).
        repeat split; (done || lia).
      * apply lookup_seq in Hi' as [-> Hp'].
        exists (n - S (1 + q))%nat, (n - S (1 + p))%nat, x. split; [lia|].
        rewrite !reverse_lookup_Some, !Hlc.
        replace (n - S (n - S (1 + q)))%nat with (1 + q)%nat by lia.
        replace (n - S (n - S (1 + p)))%nat with (1 + p)%nat by lia.
        rewrite !cross_lookup by lia.
        rewrite (list_lookup_total_correct _ _ _ Hi).
        rewrite (list_lookup_total_correct _ _ _ Hx).
        repeat split; (done || lia).
    + intros (k & Hk & i & j & x & Hij & Hi & Hj & Hx0).
      apply reverse_lookup_Some in Hi as [Hi Hi'].
      apply reverse_lookup_Some in Hj as [Hj Hj'].
      rewrite Hlc in *.
      apply cross_lookup_Some in Hi as [_ E0].
      apply cross_lookup_Some in Hj as [_ Ex].
      exists k, (n - S i - 1)%nat, (n - S i)%nat.
      split; [apply lookup_seq; lia|].
      split; [rewrite (slice_lookup_total slice n) by (try apply Hs; lia);
              congruence|].
      destruct (decide (j = n - 1)%nat) as [->|Hne].
      * left. apply occupied_true. exists x. split; [|done].
        rewrite (slice_lookup_total slice n) by (try apply Hs; lia).
        replace (n - S (n - 1))%nat with 0%nat in Ex by lia. congruence.
      * right. exists (n - S j - 1)%nat, (n - S j)%nat, x. split; [lia|].
        split; [apply lookup_seq; lia|]. split; [|done].
        rewrite (slice_lookup_total slice n) by (try apply Hs; lia). congruence.
  - unfold occupied. rewrite length_fmap. apply Hs. lia.
  - intros i Hi. apply list_elem_of_lookup in Hi as [q Hq].
    apply lookup_seq in Hq as [-> Hq]. apply Hs. lia.
Qed.

(** *** [_check_legal] and [_check_if_same], declaratively *)

Lemma shape_row n b k : shape n b → (k < n)%nat → length (b !!! k) = n.
Proof.
  intros [Hb HF] Hk. rewrite Forall_lookup in HF. apply (HF k).
  apply list_lookup_lookup_total_lt. lia.
Qed.

Lemma col_lookup_total b c k :
  (k < length b)%nat → col b c !!! k = (b !!! k) !!! c.
Proof.
  intros Hk. apply list_lookup_total_correct. unfold col.
  rewrite list_lookup_fmap. by rewrite (list_lookup_lookup_total_lt b k).
Qed.

Lemma cross_col n b k :
  shape n b → (k < n)%nat → cross (col b) n k = b !!! k.
Proof.
  intros Hb Hk. pose proof (shape_row n b k Hb Hk) as Hl.
  apply list_eq. intros i. destruct (decide (i < n)%nat) as [Hi|Hi].
  - rewrite cross_lookup by done.
    rewrite col_lookup_total by (destruct Hb; lia).
    symmetry. apply list_lookup_lookup_total_lt. lia.
  - rewrite !lookup_ge_None_2; [done|lia|].
    unfold cross. rewrite length_fmap, length_seq. lia.
Qed.

Lemma cross_row n b k :
  shape n b → cross (λ i, b !!! i) n k = col b k.
Proof.
  intros [Hb HF]. apply list_eq. intros i.
  destruct (decide (i < n)%nat) as [Hi|Hi].
  - rewrite cross_lookup by done. unfold col. rewrite list_lookup_fmap.
    by rewrite (list_lookup_lookup_total_lt b i) by lia.
  - rewrite !lookup_ge_None_2; [done| |].
    + rewrite length_col. lia.
    + unfold cross. rewrite length_fmap, length_seq. lia.
Qed.

Lemma ex_gap_ext (f g : nat → list Z) n :
  (∀ k, (k < n)%nat → f k = g k) →
  (∃ k, (k < n)%nat ∧ gap (f k)) ↔ (∃ k, (k < n)%nat ∧ gap (g k)).
Proof.
  intros E. split; intros (k & Hk & H); exists k; (split; [done|]).
  - by rewrite <- E.
  - by rewrite E.
Qed.

Lemma np_col_last n b :
  (0 < n)%nat → np_col n b (Z.of_nat n - 1) = Some (col b (n - 1)).
Proof.
  intros Hn. unfold np_col.
  replace (Z.of_nat n - 1) with (Z.of_nat (n - 1)) by lia.
  by rewrite index_n_of_nat by lia.
Qed.

Lemma np_row_last n b :
  (0 < n)%nat → np_row n b (Z.of_nat n - 1) = Some (b !!! (n - 1)%nat).
Proof.
  intros Hn. unfold np_row.
  replace (Z.of_nat n - 1) with (Z.of_nat (n - 1)) by lia.
  by rewrite index_n_of_nat by lia.
Qed.

Lemma np_col_first n b : (0 < n)%nat → np_col n b 0 = Some (col b 0).
Proof.
  intros Hn. unfold np_col. change 0 with (Z.of_nat 0).
  by rewrite index_n_of_nat by lia.
Qed.

Lemma np_row_first n b : (0 < n)%nat → np_row n b 0 = Some (b !!! 0%nat).
Proof.
  intros Hn. unfold np_row. change 0 with (Z.of_nat 0).
  by rewrite index_n_of_nat by lia.
Qed.

(** [_check_legal] finds the lines with an empty cell between a tile and
    the compaction edge. *)
Lemma check_legal_spec n b D :
  (0 < n)%nat → shape n b → D = 0 ∨ D = 1 ∨ D = 2 ∨ D = 3 →
  ∃ v, _check_legal n b D = Some v
       ∧ (v = true
          ↔ ∃ k, (k < n)%nat ∧ gap (orient (way_of D) (axis_line b D k))).
Proof.
  intros Hn Hb HD. unfold _check_legal.
  assert (∀ i, (i < n)%nat → length (col b i) = n) as Hcols.
  { intros i _. rewrite length_col. apply Hb. }
  assert (∀ i, (i < n)%nat → length (b !!! i) = n) as Hrows.
  { intros i Hi. by apply shape_row. }
  destruct HD as [-> | [-> | [-> | ->]]]; simpl.
  - rewrite np_col_last by done. simpl. eexists. split; [done|].
    rewrite (scan_down (col b) n Hn Hcols).
    apply ex_gap_ext. intros k Hk. by apply cross_col.
  - rewrite np_col_first by done. simpl. eexists. split; [done|].
    rewrite (scan_up (col b) n Hn Hcols).
    apply ex_gap_ext. intros k Hk. unfold orient. simpl.
    by rewrite cross_col.
  - rewrite np_row_last by done. simpl. eexists. split; [done|].
    rewrite (scan_down (λ i, b !!! i) n Hn Hrows).
    apply ex_gap_ext. intros k Hk. by apply cross_row.
  - rewrite np_row_first by done. simpl. eexists. split; [done|].
    rewrite (scan_up (λ i, b !!! i) n Hn Hrows).
    apply ex_gap_ext. intros k Hk. unfold orient. simpl.
    by rewrite cross_row.
Qed.

Lemma in_range n x : In x (Py.range n) ↔ (x < n)%nat.
Proof. unfold Py.range. rewrite in_seq. lia. Qed.

(** [_check_if_same] finds the lines with two equal neighbouring tiles. *)
Lemma check_if_same_spec n b D :
  shape n b → D = 0 ∨ D = 1 ∨ D = 2 ∨ D = 3 →
  _check_if_same n b (if D <? 2 then 0 else 1) = true
  ↔ ∃ k, (k < n)%nat ∧ adjacent (axis_line b D k).
Proof.
  intros Hb HD. unfold _check_if_same, axis_line.
  destruct (D <? 2) eqn:ED; simpl; rewrite existsb_exists.
  - split.
    + intros (r & Hr & H). apply in_range in Hr.
      apply existsb_exists in H as (c & Hc & H). apply in_range in Hc.
      apply andb_true_iff in H as [H0 H1].
      apply negb_true_iff, Z.eqb_neq in H0. apply Z.eqb_eq in H1.
      pose proof (shape_row n b r Hb Hr) as Hl.
      exists r. split; [done|]. exists c, (cell b r c). unfold cell in *.
      rewrite !list_lookup_lookup_total_lt by lia.
      rewrite Nat.add_1_r in H1. by rewrite <- H1.
    + intros (k & Hk & c & a & H1 & H2 & Ha).
      pose proof (shape_row n b k Hb Hk) as Hl.
      exists k. split; [by apply in_range|].
      apply existsb_exists. exists c.
      apply lookup_lt_Some in H2 as Hc. split; [apply in_range; lia|].
      unfold cell. rewrite Nat.add_1_r.
      rewrite (list_lookup_total_correct _ _ _ H1).
      rewrite (list_lookup_total_correct _ _ _ H2).
      rewrite Z.eqb_refl. by destruct (Z.eqb_spec a 0).
  - destruct Hb as [Hlen HF]. split.
    + intros (c & Hc & H). apply in_range in Hc.
      apply existsb_exists in H as (r & Hr & H). apply in_range in Hr.
      apply andb_true_iff in H as [H0 H1].
      apply negb_true_iff, Z.eqb_neq in H0. apply Z.eqb_eq in H1.
      exists c. split; [done|]. exists r, (cell b r c). unfold cell in *.
      unfold col. rewrite !list_lookup_fmap.
      rewrite !(list_lookup_lookup_total_lt b) by lia. simpl.
      rewrite Nat.add_1_r in H1. by rewrite <- H1.
    + intros (k & Hk & r & a & H1 & H2 & Ha).
      exists k. split; [by apply in_range|].
      apply existsb_exists. exists r.
      apply lookup_lt_Some in H2 as Hr. rewrite length_col in Hr.
      split; [apply in_range; lia|].
      unfold cell. rewrite Nat.add_1_r.
      rewrite <- !col_lookup_total by lia.
      rewrite (list_lookup_total_correct _ _ _ H1).
      rewrite (list_lookup_total_correct _ _ _ H2).
      rewrite Z.eqb_refl. by destruct (Z.eqb_spec a 0).
Qed.

(** *** [_update_legal_moves] *)

Lemma update_legal_moves_eq n b a0 a1 a2 a3 v0 v1 v2 v3 :
  _check_legal n b 0 = Some v0 → _check_legal n b 1 = Some v1 →
  _check_legal n b 2 = Some v2 → _check_legal n b 3 = Some v3 →
  _update_legal_moves n b [a0; a1; a2; a3]
  = Some [ (if _check_if_same n b 0 || v0 then 1 else 0);
           (if _check_if_same n b 0 || v1 then 1 else 0);
           (if _check_if_same n b 1 || v2 then 1 else 0);
           (if _check_if_same n b 1 || v3 then 1 else 0) ].
Proof.
  intros E0 E1 E2 E3. unfold _update_legal_moves.
  remember (_check_legal n b) as cl eqn:Hcl. clear Hcl.
  change 0 with (Z.of_nat 0) in E0. change 1 with (Z.of_nat 1) in E1.
  change 2 with (Z.of_nat 2) in E2. change 3 with (Z.of_nat 3) in E3.
  destruct (_check_if_same n b 0), (_check_if_same n b 1),
    v0, v1, v2, v3; simpl;
    repeat (first [rewrite E0|rewrite E1|rewrite E2|rewrite E3]; simpl);
    done.
Qed.

Lemma movable_iff n b D :
  movable n b D
  ↔ (∃ k, (k < n)%nat ∧ adjacent (axis_line b D k))
    ∨ (∃ k, (k < n)%nat ∧ gap (orient (way_of D) (axis_line b D k))).
Proof.
  unfold movable. split.
  - intros (k & Hk & [H|H]); [left|right]; by exists k.
  - intros [(k & Hk & H)|(k & Hk & H)]; exists k; auto.
Qed.

Lemma flag_movable n b D (v : bool) :
  shape n b → D = 0 ∨ D = 1 ∨ D = 2 ∨ D = 3 →
  (v = true
   ↔ ∃ k, (k < n)%nat ∧ gap (orient (way_of D) (axis_line b D k))) →
  (_check_if_same n b (if D <? 2 then 0 else 1) || v = true)
  ↔ movable n b D.
Proof.
  intros Hb HD Hv. rewrite movable_iff, orb_true_iff.
  by rewrite (check_if_same_spec n b D Hb HD), Hv.
Qed.

(** The vector that [_update_legal_moves] leaves: entry [D] is 1 when
    direction [D] moves something and 0 otherwise. *)
Lemma update_legal_moves_spec n b lm :
  (0 < n)%nat → shape n b → length lm = 4%nat →
  ∃ v, _update_legal_moves n b lm = Some v ∧ length v = 4%nat
       ∧ ∀ D, D = 0 ∨ D = 1 ∨ D = 2 ∨ D = 3 →
           ∃ f : bool, Py.get v D = Some (if f then 1 else 0)
                       ∧ (f = true ↔ movable n b D).
Proof.
  intros Hn Hb Hlm.
  destruct lm as [|a0 [|a1 [|a2 [|a3 [|]]]]]; try done.
  destruct (check_legal_spec n b 0 Hn Hb) as (v0 & E0 & H0); [auto|].
  destruct (check_legal_spec n b 1 Hn Hb) as (v1 & E1 & H1); [auto|].
  destruct (check_legal_spec n b 2 Hn Hb) as (v2 & E2 & H2); [auto|].
  destruct (check_legal_spec n b 3 Hn Hb) as (v3 & E3 & H3); [auto 6|].
  rewrite (update_legal_moves_eq n b a0 a1 a2 a3 v0 v1 v2 v3) by done.
  eexists. split; [done|]. split; [done|].
  intros D HD.
  pose proof (flag_movable n b 0 v0 Hb) as F0.
  pose proof (flag_movable n b 1 v1 Hb) as F1.
  pose proof (flag_movable n b 2 v2 Hb) as F2.
  pose proof (flag_movable n b 3 v3 Hb) as F3.
  destruct HD as [-> | [-> | [-> | ->]]].
  - exists (_check_if_same n b 0 || v0). split; [done|]. apply F0; auto.
  - exists (_check_if_same n b 0 || v1). split; [done|]. apply F1; auto.
  - exists (_check_if_same n b 1 || v2). split; [done|]. apply F2; auto.
  - exists (_check_if_same n b 1 || v3). split; [done|]. apply F3; auto 6.
Qed.

(** *** What a move does to the board *)

Lemma to_uint8_range x : 0 ≤ to_uint8 x < 256.
Proof. unfold to_uint8. apply Z.mod_pos_bound. lia. Qed.

Lemma moved_line_range way l : Forall (λ x, 0 ≤ x < 256) (moved_line way l).
Proof.
  unfold moved_line. apply Forall_fmap. apply Forall_forall.
  intros x _. apply to_uint8_range.
Qed.

Lemma length_moved_line way l : length (moved_line way l) = length l.
Proof. unfold moved_line. by rewrite length_fmap, length_combined. Qed.

Lemma move_spec n D b sps0 :
  D = 0 ∨ D = 1 ∨ D = 2 ∨ D = 3 → shape n b →
  ∃ b', move n D b sps0 = Some (b', sps0 ++ move_events n b D)
        ∧ wf_board n b'
        ∧ ∀ k, (k < n)%nat →
            axis_line b' D k = moved_line (way_of D) (axis_line b D k).
Proof.
  intros HD Hb. unfold move, axis_line, way_of.
  destruct (D <? 2) eqn:ED.
  - assert (D = 0 ∨ D = 1) as HD'
      by (destruct HD as [-> | [-> | [-> | ->]]]; auto; done).
    rewrite (move_rows_spec n D b sps0 HD' Hb).
    eexists. split; [done|]. destruct Hb as [Hlen HF]. split; [split|].
    + by rewrite length_fmap.
    + apply Forall_fmap. eapply Forall_impl; [exact HF|].
      intros l Hl. simpl. split; [by rewrite length_moved_line|].
      apply moved_line_range.
    + intros k Hk. apply list_lookup_total_correct.
      rewrite list_lookup_fmap.
      by rewrite (list_lookup_lookup_total_lt b k) by lia.
  - assert (D = 2 ∨ D = 3) as HD'
      by (destruct HD as [-> | [-> | [-> | ->]]]; auto; done).
    destruct (move_cols_spec n D b sps0 HD' Hb) as (b' & E & Hb' & Hcols).
    exists b'. split; [done|]. split; [|done].
    destruct Hb' as [Hlen HF]. split; [done|].
    apply Forall_lookup. intros r l Hr. rewrite Forall_lookup in HF.
    split; [by eapply HF|]. apply Forall_lookup. intros c x Hc.
    assert (c < n)%nat as Hcn
      by (apply lookup_lt_Some in Hc; by rewrite (HF r l Hr) in Hc).
    pose proof (moved_line_range (D - 2) (col b c)) as HR.
    rewrite <- Hcols in HR by done. rewrite Forall_lookup in HR.
    apply (HR r). unfold col. rewrite list_lookup_fmap, Hr. simpl.
    by rewrite (list_lookup_total_correct _ _ _ Hc).
Qed.

Lemma cell_axis_line n b D k p :
  shape n b → (k < n)%nat → (p < n)%nat →
  axis_line b D k !! p
  = Some (if D <? 2 then cell b k p else cell b p k).
Proof.
  intros Hb Hk Hp. unfold axis_line, cell. destruct (D <? 2).
  - apply list_lookup_lookup_total_lt. by rewrite (shape_row n).
  - unfold col. rewrite list_lookup_fmap.
    by rewrite (list_lookup_lookup_total_lt b p) by (destruct Hb; lia).
Qed.

Lemma length_axis_line n b D k :
  shape n b → (k < n)%nat → length (axis_line b D k) = n.
Proof.
  intros Hb Hk. unfold axis_line. destruct (D <? 2).
  - by apply shape_row.
  - rewrite length_col. apply Hb.
Qed.

Lemma wf_axis_line n b D k :
  wf_board n b → (k < n)%nat →
  Forall (λ x, 0 ≤ x < 256) (axis_line b D k).
Proof.
  intros Hwf Hk. pose proof (wf_board_shape n b Hwf) as Hb.
  apply Forall_lookup. intros p x Hp.
  assert (p < n)%nat as Hpn
    by (apply lookup_lt_Some in Hp; by rewrite (length_axis_line n) in Hp).
  rewrite (cell_axis_line n) in Hp by done. injection Hp as <-.
  destruct Hwf as [Hlen HF]. rewrite Forall_lookup in HF.
  assert (∀ r c, (r < n)%nat → (c < n)%nat → 0 ≤ cell b r c < 256) as Hcell.
  { intros r c Hr Hc. unfold cell.
    destruct (HF r (b !!! r)) as [Hl HR].
    { apply list_lookup_lookup_total_lt. lia. }
    rewrite Forall_lookup in HR. apply (HR c).
    apply list_lookup_lookup_total_lt. lia. }
  destruct (D <? 2); by apply Hcell.
Qed.

(** A board is determined by its lines along either axis. *)
Lemma board_ext n D b b' :
  shape n b → shape n b' →
  (∀ k, (k < n)%nat → axis_line b' D k = axis_line b D k) → b' = b.
Proof.
  intros Hb Hb' Hl.
  assert (∀ r c, (r < n)%nat → (c < n)%nat → cell b' r c = cell b r c)
    as Hcell.
  { intros r c Hr Hc. destruct (D <? 2) eqn:ED.
    - pose proof (cell_axis_line n b D r c Hb Hr Hc) as H1.
      pose proof (cell_axis_line n b' D r c Hb' Hr Hc) as H2.
      rewrite ED in H1, H2. rewrite Hl in H2 by done. congruence.
    - pose proof (cell_axis_line n b D c r Hb Hc Hr) as H1.
      pose proof (cell_axis_line n b' D c r Hb' Hc Hr) as H2.
      rewrite ED in H1, H2. rewrite Hl in H2 by done. congruence. }
  apply list_eq. intros r. destruct (decide (r < n)%nat) as [Hr|Hr].
  - rewrite (list_lookup_lookup_total_lt b' r) by (destruct Hb'; lia).
    rewrite (list_lookup_lookup_total_lt b r) by (destruct Hb; lia).
    f_equal. apply list_eq. intros c.
    destruct (decide (c < n)%nat) as [Hc|Hc].
    + rewrite !list_lookup_lookup_total_lt by (rewrite (shape_row n); done).
      f_equal. by apply Hcell.
    + rewrite !lookup_ge_None_2; [done| |]; rewrite (shape_row n); auto; lia.
  - destruct Hb, Hb'. rewrite !lookup_ge_None_2; [done| |]; lia.
Qed.

Lemma movable_dec n b D :
  shape n b → D = 0 ∨ D = 1 ∨ D = 2 ∨ D = 3 →
  movable n b D ∨ ¬ movable n b D.
Proof.
  intros Hb HD. destruct n as [|n].
  { right. intros (k & Hk & _). lia. }
  destruct (check_legal_spec (S n) b D) as (v & _ & Hv); [lia|done|done|].
  pose proof (flag_movable (S n) b D v Hb HD Hv) as H.
  destruct (_check_if_same (S n) b (if D <? 2 then 0 else 1) || v).
  - left. by apply H.
  - right. intros Hm. apply H in Hm. done.
Qed.

Lemma way_of_cases D :
  D = 0 ∨ D = 1 ∨ D = 2 ∨ D = 3 → way_of D = 0 ∨ way_of D = 1.
Proof. intros [-> | [-> | [-> | ->]]]; auto. Qed.

(** A movable direction empties a cell that held a tile. *)
Lemma move_movable n D b b' sps0 sps :
  D = 0 ∨ D = 1 ∨ D = 2 ∨ D = 3 → shape n b →
  move n D b sps0 = Some (b', sps) → movable n b D →
  ∃ r c, (r < n)%nat ∧ (c < n)%nat ∧ cell b r c ≠ 0 ∧ cell b' r c = 0.
Proof.
  intros HD Hb E (k & Hk & Hm).
  destruct (move_spec n D b sps0 HD Hb) as (b1 & E1 & Hwf & Hlines).
  rewrite E in E1. injection E1 as <- _.
  pose proof (wf_board_shape n b' Hwf) as Hb'.
  destruct (line_changed (way_of D) (axis_line b D k)
              (way_of_cases D HD) Hm) as (p & y & Hp & Hy & Hz).
  assert (p < n)%nat as Hpn
    by (apply lookup_lt_Some in Hp; by rewrite (length_axis_line n) in Hp).
  fold (moved_line (way_of D) (axis_line b D k)) in Hz.
  rewrite <- Hlines in Hz by done.
  rewrite (cell_axis_line n) in Hp, Hz by done.
  destruct (D <? 2).
  - exists k, p. repeat split; [done|done|congruence|congruence].
  - exists p, k. repeat split; [done|done|congruence|congruence].
Qed.

(** A direction that is not movable leaves the board as it is. *)
Lemma move_not_movable n D b b' sps0 sps :
  D = 0 ∨ D = 1 ∨ D = 2 ∨ D = 3 → wf_board n b →
  move n D b sps0 = Some (b', sps) → ¬ movable n b D → b' = b.
Proof.
  intros HD Hwf E Hm. pose proof (wf_board_shape n b Hwf) as Hb.
  destruct (move_spec n D b sps0 HD Hb) as (b1 & E1 & Hwf' & Hlines).
  rewrite E in E1. injection E1 as <- _.
  apply (board_ext n D); [done|by apply wf_board_shape|].
  intros k Hk. rewrite Hlines by done. unfold moved_line.
  apply line_unchanged.
  - by apply way_of_cases.
  - by apply (wf_axis_line n).
  - intros H. apply Hm. exists k. auto.
  - intros H. apply Hm. exists k. auto.
Qed.

Lemma move_changed_iff n D b b' sps0 sps :
  D = 0 ∨ D = 1 ∨ D = 2 ∨ D = 3 → wf_board n b →
  move n D b sps0 = Some (b', sps) →
  changed n b b' ↔ movable n b D.
Proof.
  intros HD Hwf E. pose proof (wf_board_shape n b Hwf) as Hb. split.
  - intros (r & c & Hr & Hc & Hne).
    destruct (movable_dec n b D Hb HD) as [H|H]; [done|].
    rewrite (move_not_movable n D b b' sps0 sps HD Hwf E H) in Hne. done.
  - intros Hm.
    destruct (move_movable n D b b' sps0 sps HD Hb E Hm)
      as (r & c & Hr & Hc & H1 & H2).
    exists r, c. split; [done|]. split; [done|]. congruence.
Qed.

(** *** The slide check of the specification implies [_check_legal] *)

Lemma spec_slide_loop_found slice : ∀ idxs mask,
  spec_slide_loop slice idxs mask = true →
  ∃ k q i x, idxs !! q = Some i ∧ slice i !! k = Some x ∧ x ≠ 0
             ∧ mask !! k = Some false.
Proof.
  induction idxs as [|i0 idxs IH]; intros mask; [done|]. simpl.
  destruct (np_any _) eqn:Hfound.
  - intros _. apply np_any_lookup in Hfound as (k & Hk).
    apply lookup_zip_with_Some in Hk as (u & v & E & Hu & Hv).
    destruct u; [|done]. destruct v; [|done].
    apply occupied_true in Hu as (x & Hx & Hx0).
    rewrite list_lookup_fmap in Hv.
    destruct (mask !! k) as [[|]|] eqn:Em; try done.
    by exists k, 0%nat, i0, x.
  - intros H. apply IH in H as (k & q & i & x & Hq & Hx & Hx0 & Hm).
    exists k, (S q), i, x. split; [done|]. split; [done|]. split; [done|].
    apply lookup_zip_with_Some in Hm as (u & v & E & Hu & Hv).
    by destruct u.
Qed.

Lemma spec_scan_up slice n :
  (0 < n)%nat → (∀ i, (i < n)%nat → length (slice i) = n) →
  spec_slide_loop slice (seq 1 (n - 1)) (occupied (slice 0%nat)) = true →
  ∃ k, (k < n)%nat ∧ gap (cross slice n k).
Proof.
  intros Hn Hs H.
  apply spec_slide_loop_found in H as (k & q & i & x & Hq & Hx & Hx0 & Hm).
  apply lookup_seq in Hq as [-> Hq]. apply occupied_false in Hm.
  assert (k < n)%nat as Hk.
  { apply lookup_lt_Some in Hm. rewrite Hs in Hm; lia. }
  exists k. split; [done|]. exists 0%nat, (1 + q)%nat, x. split; [lia|].
  rewrite !cross_lookup by lia.
  rewrite (list_lookup_total_correct _ _ _ Hm).
  by rewrite (list_lookup_total_correct _ _ _ Hx).
Qed.

Lemma spec_scan_down slice n :
  (0 < n)%nat → (∀ i, (i < n)%nat → length (slice i) = n) →
  spec_slide_loop slice (Py.range_down (n - 1))
    (occupied (slice (n - 1)%nat)) = true →
  ∃ k, (k < n)%nat ∧ gap (reverse (cross slice n k)).
Proof.
  intros Hn Hs H.
  apply spec_slide_loop_found in H as (k & q & i & x & Hq & Hx & Hx0 & Hm).
  apply range_down_lookup in Hq as [Hq ->]. apply occupied_false in Hm.
  assert (k < n)%nat as Hk.
  { apply lookup_lt_Some in Hm. rewrite Hs in Hm; lia. }
  assert (length (cross slice n k) = n) as Hlc.
  { unfold cross. by rewrite length_fmap, length_seq. }
  exists k. split; [done|]. exists 0%nat, (S q), x. split; [lia|].
  split; [|split; [|done]].
  - apply reverse_lookup_Some. rewrite Hlc. split; [|lia].
    rewrite cross_lookup by lia.
    by rewrite (list_lookup_total_correct _ _ _ Hm).
  - apply reverse_lookup_Some. rewrite Hlc. split; [|lia].
    replace (n - S (S q))%nat with (n - 1 - S q)%nat by lia.
    rewrite cross_lookup by lia.
    by rewrite (list_lookup_total_correct _ _ _ Hx).
Qed.

Lemma spec_slide_check_gap n b D :
  (0 < n)%nat → shape n b → D = 0 ∨ D = 1 ∨ D = 2 ∨ D = 3 →
  spec_slide_check n b D = true →
  ∃ k, (k < n)%nat ∧ gap (orient (way_of D) (axis_line b D k)).
Proof.
  intros Hn Hb HD. unfold spec_slide_check.
  assert (∀ i, (i < n)%nat → length (col b i) = n) as Hcols.
  { intros i _. rewrite length_col. apply Hb. }
  assert (∀ i, (i < n)%nat → length (b !!! i) = n) as Hrows.
  { intros i Hi. by apply shape_row. }
  destruct HD as [-> | [-> | [-> | ->]]]; simpl; intros H.
  - apply (spec_scan_up (col b) n Hn Hcols) in H.
    revert H. apply ex_gap_ext. intros k Hk. symmetry. by apply cross_col.
  - apply (spec_scan_down (col b) n Hn Hcols) in H.
    revert H. apply ex_gap_ext. intros k Hk. unfold orient. simpl.
    by rewrite cross_col.
  - apply (spec_scan_up (λ i, b !!! i) n Hn Hrows) in H.
    revert H. apply ex_gap_ext. intros k Hk. symmetry. by apply cross_row.
  - apply (spec_scan_down (λ i, b !!! i) n Hn Hrows) in H.
    revert H. apply ex_gap_ext. intros k Hk. unfold orient. simpl.
    by rewrite cross_row.
Qed.

(** *** Cells of a board *)

Lemma existsb_cells n b (p : Z → bool) :
  shape n b →
  existsb (λ l, existsb p l) b = true
  ↔ ∃ r c, (r < n)%nat ∧ (c < n)%nat ∧ p (cell b r c) = true.
Proof.
  intros [Hlen HF]. rewrite existsb_exists. split.
  - intros (l & Hl & H). apply existsb_exists in H as (x & Hx & Hp).
    apply list_elem_of_In, list_elem_of_lookup in Hl as [r Hr].
    apply list_elem_of_In, list_elem_of_lookup in Hx as [c Hc].
    rewrite Forall_lookup in HF. pose proof (HF r l Hr) as Hll.
    exists r, c. split; [apply lookup_lt_Some in Hr; lia|].
    split; [apply lookup_lt_Some in Hc; lia|]. unfold cell.
    rewrite (list_lookup_total_correct _ _ _ Hr).
    by rewrite (list_lookup_total_correct _ _ _ Hc).
  - intros (r & c & Hr & Hc & Hp). exists (b !!! r).
    assert (b !! r = Some (b !!! r)) as Hbr
      by (apply list_lookup_lookup_total_lt; lia).
    split; [apply list_elem_of_In, list_elem_of_lookup; by exists r|].
    apply existsb_exists. exists (cell b r c). split; [|done].
    apply list_elem_of_In, list_elem_of_lookup. exists c.
    apply list_lookup_lookup_total_lt.
    rewrite Forall_lookup in HF. by rewrite (HF r _ Hbr).
Qed.

Lemma is_reach_goal_spec n b goal :
  shape n b →
  _is_reach_goal b goal = true
  ↔ ∃ r c, (r < n)%nat ∧ (c < n)%nat ∧ cell b r c = goal.
Proof.
  intros Hb. unfold _is_reach_goal. rewrite (existsb_cells n) by done.
  split; intros (r & c & Hr & Hc & H); exists r, c;
    (split; [done|]; split; [done|]); by apply Z.eqb_eq.
Qed.

Lemma is_game_over_spec n b :
  shape n b →
  _is_game_over n b = true
  ↔ no_empty n b ∧ _check_if_same n b 0 = false
    ∧ _check_if_same n b 1 = false.
Proof.
  intros Hb. unfold _is_game_over.
  destruct (existsb _ b) eqn:E.
  - apply (existsb_cells n) in E as (r & c & Hr & Hc & H); [|done].
    apply Z.eqb_eq in H. split; [done|]. intros (Hne & _).
    by destruct (Hne r c).
  - assert (no_empty n b) as Hne.
    { intros r c Hr Hc H0.
      assert (existsb (λ l, existsb (λ x, x =? 0) l) b = true) as E';
        [|congruence].
      apply (existsb_cells n); [done|]. exists r, c.
      split; [done|]. split; [done|]. by apply Z.eqb_eq. }
    destruct (_check_if_same n b 0), (_check_if_same n b 1); simpl;
      split; try done; intros (_ & ? & ?); done.
Qed.

Lemma cell_set_cell n b r c v r' c' :
  shape n b → (r < n)%nat → (c < n)%nat →
  cell (set_cell r c v b) r' c'
  = if decide (r' = r ∧ c' = c) then to_uint8 v else cell b r' c'.
Proof.
  intros [Hlen HF] Hr Hc. unfold cell, set_cell.
  destruct (decide (r' = r)) as [->|Hne].
  - rewrite list_lookup_total_alter_eq by lia.
    assert (length (b !!! r) = n) as Hl by (by apply shape_row).
    destruct (decide (c' = c)) as [->|Hnc].
    + rewrite list_lookup_total_insert_eq by lia.
      by destruct (decide (r = r ∧ c = c)) as [|[]].
    + rewrite list_lookup_total_insert_ne by done.
      destruct (decide (r = r ∧ c' = c)) as [[_ ?]|]; done.
  - rewrite list_lookup_total_alter_ne by done.
    destruct (decide (r' = r ∧ c' = c)) as [[? _]|]; done.
Qed.

Lemma wf_set_cell n b r c v :
  wf_board n b → wf_board n (set_cell r c v b).
Proof.
  intros [Hlen HF]. unfold set_cell. split; [by rewrite length_alter|].
  apply Forall_lookup. intros i l Hl. rewrite list_lookup_alter in Hl.
  rewrite Forall_lookup in HF.
  destruct (decide (r = i)) as [->|Hne].
  - destruct (b !! i) as [l0|] eqn:E; [|done]. simpl in Hl.
    injection Hl as <-. destruct (HF i l0 E) as [Hl0 HR].
    split; [by rewrite length_insert|].
    apply Forall_insert; [done|]. apply to_uint8_range.
  - by apply (HF i).
Qed.

(** *** [_spawn_block] *)

Lemma elem_zero_pos n b r c :
  (r, c) ∈ zero_pos n b ↔ (r < n)%nat ∧ (c < n)%nat ∧ cell b r c = 0.
Proof.
  unfold zero_pos. rewrite list_elem_of_bind. split.
  - intros (r' & H & Hr'). apply list_elem_of_bind in H as (c' & H & Hc').
    apply list_elem_of_In, in_range in Hr'.
    apply list_elem_of_In, in_range in Hc'.
    destruct (Z.eqb_spec (cell b r' c') 0) as [E|E].
    + apply list_elem_of_singleton in H. injection H as -> ->. done.
    + by apply not_elem_of_nil in H.
  - intros (Hr & Hc & E). exists r.
    split; [|by apply list_elem_of_In, in_range].
    apply list_elem_of_bind. exists c.
    split; [|by apply list_elem_of_In, in_range].
    rewrite E. simpl. by apply list_elem_of_singleton.
Qed.

(** A spawn fails exactly on a board without an empty cell; otherwise it
    writes 1 or 2 into an empty cell. *)
Lemma spawn_spec n b rng :
  match _spawn_block n b rng with
  | Some (b', rng') =>
      ∃ r c v, (r < n)%nat ∧ (c < n)%nat ∧ cell b r c = 0
               ∧ (v = 1 ∨ v = 2) ∧ b' = set_cell r c v b
  | None => zero_pos n b = []
  end.
Proof.
  unfold _spawn_block, integers.
  destruct (Z.leb_spec (Z.of_nat (length (zero_pos n b))) 0) as [Hle|Hlt].
  - simpl. destruct (zero_pos n b); [done|simpl in Hle; lia].
  - simpl.
    set (idx := Z.of_nat (draws rng (position rng))
                  mod Z.of_nat (length (zero_pos n b))).
    assert (0 ≤ idx < Z.of_nat (length (zero_pos n b))) as Hidx
      by (apply Z.mod_pos_bound; lia).
    replace idx with (Z.of_nat (Z.to_nat idx)) by lia.
    rewrite get_of_nat.
    destruct (lookup_lt_is_Some_2 (zero_pos n b) (Z.to_nat idx))
      as [[r c] Hrc]; [lia|].
    rewrite Hrc. simpl.
    assert ((r, c) ∈ zero_pos n b) as Hin
      by (apply list_elem_of_lookup; eauto).
    apply elem_zero_pos in Hin as (Hr & Hc & E).
    unfold _random_1_2, random_lt_09.
    destruct (Nat.ltb _ 9); exists r, c; [exists 1|exists 2]; auto 10.
Qed.

Lemma spawn_some n b rng :
  has_empty n b → is_Some (_spawn_block n b rng).
Proof.
  intros (r & c & Hr & Hc & E). pose proof (spawn_spec n b rng) as H.
  destruct (_spawn_block n b rng) as [[b' rng']|]; [by eexists|].
  assert ((r, c) ∈ zero_pos n b) as Hin by (by apply elem_zero_pos).
  rewrite H in Hin. by apply not_elem_of_nil in Hin.
Qed.

(** *** [step] *)

Lemma legal_entry_movable g D :
  wf_state g → in_sync g → D = 0 ∨ D = 1 ∨ D = 2 ∨ D = 3 →
  Py.get (legal_moves g) D = Some 1 → movable (size g) (board g) D.
Proof.
  intros [Hn Hwf Hlm] Hsync HD Hget.
  destruct (update_legal_moves_spec (size g) (board g) (legal_moves g))
    as (v & E & _ & Hv); [done|by apply wf_board_shape|done|].
  unfold in_sync in Hsync. rewrite Hsync in E. injection E as <-.
  destruct (Hv D HD) as (f & Hf & Hm). rewrite Hget in Hf.
  destruct f; [by apply Hm|done].
Qed.

Lemma update_legal_moves_idem n b lm v :
  (0 < n)%nat → shape n b → length lm = 4%nat →
  _update_legal_moves n b lm = Some v →
  length v = 4%nat ∧ _update_legal_moves n b v = Some v.
Proof.
  intros Hn Hb Hlm E.
  destruct lm as [|a0 [|a1 [|a2 [|a3 [|]]]]]; try done.
  destruct (check_legal_spec n b 0 Hn Hb) as (v0 & E0 & _); [auto|].
  destruct (check_legal_spec n b 1 Hn Hb) as (v1 & E1 & _); [auto|].
  destruct (check_legal_spec n b 2 Hn Hb) as (v2 & E2 & _); [auto|].
  destruct (check_legal_spec n b 3 Hn Hb) as (v3 & E3 & _); [auto 6|].
  rewrite (update_legal_moves_eq n b a0 a1 a2 a3 v0 v1 v2 v3) in E by done.
  injection E as <-. split; [done|].
  by apply update_legal_moves_eq.
Qed.

(** What [step] does with a legal action, given the outcome of the move. *)
Lemma step_legal_eq g action b1 sps :
  Py.get (legal_moves g) action = Some 1 →
  move (size g) action (board g) [] = Some (b1, sps) →
  step g action
  = let score1 := scalar_add (score g) (Py.sum scalar_add sps) in
    if _is_reach_goal b1 (board_goal g) then
      lm ← _update_legal_moves (size g) b1 (legal_moves g);
      Some (MkGame (size g) (board_goal g) (best_score g) (n_episode g)
              b1 lm true score1 sps (n_step g + 1) (np_random g), 1, true)
    else
      '(b2, rng) ← _spawn_block (size g) b1 (np_random g);
      lm ← _update_legal_moves (size g) b2 (legal_moves g);
      if _is_game_over (size g) b2 then
        Some (MkGame (size g) (board_goal g)
                (Z.max (best_score g) score1) (n_episode g)
                b2 lm true score1 sps (n_step g + 1) rng, -1, true)
      else
        Some (MkGame (size g) (board_goal g) (best_score g) (n_episode g)
                b2 lm true score1 sps (n_step g + 1) rng, 0, false).
Proof.
  intros Hget Hmove. unfold step. rewrite Hget. simpl. rewrite Hmove. simpl.
  destruct (_is_reach_goal b1 (board_goal g)); simpl; [done|].
  destruct (_spawn_block (size g) b1 (np_random g)) as [[b2 rng]|];
    simpl; [|done].
  destruct (_is_game_over (size g) b2); simpl; done.
Qed.

Lemma step_illegal_eq g action flag :
  Py.get (legal_moves g) action = Some flag → flag ≠ 1 →
  step g action
  = lm ← _update_legal_moves (size g) (board g) (legal_moves g);
    Some (MkGame (size g) (board_goal g) (best_score g) (n_episode g)
            (board g) lm false (score g) [] (n_step g + 1) (np_random g),
          0, false).
Proof.
  intros Hget Hflag. unfold step. rewrite Hget. simpl.
  by destruct (Z.eqb_spec flag 1).
Qed.

(** *** Bounds on the exponents *)

Lemma Forall_tiles (P : Z → Prop) l : Forall P l → Forall P (tiles l).
Proof.
  induction 1 as [|x l Hx _ IH]; [constructor|]. rewrite tiles_cons.
  destruct (x =? 0); [done|by constructor].
Qed.

Lemma merge_bound M ts :
  Forall (λ x, 0 < x ≤ M) ts → Forall (λ x, 0 < x ≤ M + 1) (merge ts).
Proof.
  induction ts as [| |a l IH|a b l Hab IH] using merge_ind; intros H.
  - constructor.
  - apply Forall_cons in H as [Ha _]. constructor; [lia|constructor].
  - rewrite merge_eq. apply Forall_cons in H as [Ha H].
    apply Forall_cons in H as [_ H]. constructor; [lia|by apply IH].
  - rewrite merge_ne by done. apply Forall_cons in H as [Ha H].
    constructor; [lia|by apply IH].
Qed.

Lemma combined_bound M way l :
  0 ≤ M → Forall (λ x, 0 ≤ x ≤ M) l →
  Forall (λ x, 0 ≤ x ≤ M + 1) (combined way l).
Proof.
  intros HM Hl.
  assert (∀ l', Forall (λ x, 0 ≤ x ≤ M) l' →
            Forall (λ x, 0 ≤ x ≤ M + 1)
              (pad (length l) (merge (tiles l')))) as H.
  { intros l' Hl'. unfold pad. apply Forall_app. split.
    - eapply Forall_impl; [apply (merge_bound M)|simpl; intros; lia].
      pose proof (tiles_nonzero l') as Hnz.
      pose proof (Forall_tiles _ l' Hl') as Hr.
      rewrite Forall_forall in *. intros x Hx.
      specialize (Hnz x Hx). specialize (Hr x Hx). simpl in *. lia.
    - apply Forall_replicate. lia. }
  unfold combined, orient. destruct (way =? 0); [by apply H|].
  apply Forall_reverse. apply H. by apply Forall_reverse.
Qed.

Lemma axis_line_Forall n b D k (P : Z → Prop) :
  shape n b → (k < n)%nat →
  (∀ r c, (r < n)%nat → (c < n)%nat → P (cell b r c)) →
  Forall P (axis_line b D k).
Proof.
  intros Hb Hk HP. apply Forall_lookup. intros p x Hp.
  assert (p < n)%nat as Hpn
    by (apply lookup_lt_Some in Hp; by rewrite (length_axis_line n) in Hp).
  rewrite (cell_axis_line n) in Hp by done. injection Hp as <-.
  destruct (D <? 2); by apply HP.
Qed.

Lemma cell_of_axis_line n b D r c :
  shape n b → (r < n)%nat → (c < n)%nat →
  ∃ k p, (k < n)%nat ∧ axis_line b D k !! p = Some (cell b r c).
Proof.
  intros Hb Hr Hc. destruct (D <? 2) eqn:E.
  - exists r, c. split; [done|]. by rewrite (cell_axis_line n), E.
  - exists c, r. split; [done|]. by rewrite (cell_axis_line n), E.
Qed.

(** A move raises no exponent by more than one. *)
Lemma move_bounded n D b b' sps0 sps M :
  D = 0 ∨ D = 1 ∨ D = 2 ∨ D = 3 → shape n b → 0 ≤ M < 255 →
  bounded n b 0 M → move n D b sps0 = Some (b', sps) →
  bounded n b' 0 (M + 1).
Proof.
  intros HD Hb HM Hbd E r c Hr Hc.
  destruct (move_spec n D b sps0 HD Hb) as (b1 & E1 & Hwf & Hlines).
  rewrite E in E1. injection E1 as <- _.
  pose proof (wf_board_shape n b' Hwf) as Hb'.
  destruct (cell_of_axis_line n b' D r c Hb' Hr Hc) as (k & p & Hk & Hp).
  rewrite Hlines in Hp by done. unfold moved_line in Hp.
  assert (Forall (λ x, 0 ≤ x ≤ M + 1)
            (combined (way_of D) (axis_line b D k))) as HF.
  { apply combined_bound; [lia|]. by apply (axis_line_Forall n). }
  rewrite to_uint8_id in Hp.
  - rewrite Forall_lookup in HF. by apply (HF p).
  - eapply Forall_impl; [exact HF|]. simpl. intros; lia.
Qed.

(** [move] only accepts the four directions. *)
Lemma move_some_action n a b sps0 x :
  (0 < n)%nat → shape n b → move n a b sps0 = Some x →
  a = 0 ∨ a = 1 ∨ a = 2 ∨ a = 3.
Proof.
  intros Hn [Hlen HF]. unfold move, move_rows, move_cols, Py.range.
  destruct n as [|n]; [lia|]. simpl seq. simpl Py.for_.
  destruct (Z.ltb_spec a 2).
  - destruct (lookup_lt_is_Some_2 b 0) as [l ->]; [lia|]. simpl.
    unfold _combiner.
    destruct (Z.eqb_spec a 0); [auto|]. destruct (Z.eqb_spec a 1); [auto|].
    done.
  - unfold _combiner.
    destruct (Z.eqb_spec (a - 2) 0); [intros _; right; right; left; lia|].
    destruct (Z.eqb_spec (a - 2) 1); [intros _; right; right; right; lia|].
    done.
Qed.

(** *** The states of an episode *)

Lemma wf_zeros n : wf_board n (replicate n (replicate n 0)).
Proof.
  split; [by rewrite length_replicate|]. apply Forall_replicate.
  split; [by rewrite length_replicate|]. apply Forall_replicate. lia.
Qed.

Lemma cell_zeros n r c :
  (r < n)%nat → (c < n)%nat → cell (replicate n (replicate n 0)) r c = 0.
Proof.
  intros Hr Hc. unfold cell. by rewrite !lookup_total_replicate_2.
Qed.

Lemma spawn_bounded n b rng b' rng' M :
  wf_board n b → 2 ≤ M → bounded n b 0 M →
  _spawn_block n b rng = Some (b', rng') →
  (0 < n)%nat ∧ wf_board n b' ∧ bounded n b' 0 M.
Proof.
  intros Hwf HM Hbd E. pose proof (spawn_spec n b rng) as H.
  rewrite E in H. destruct H as (r & c & v & Hr & Hc & Hz & Hv & ->).
  split; [lia|]. split; [by apply wf_set_cell|].
  intros r' c' Hr' Hc'.
  rewrite (cell_set_cell n) by (auto; by apply wf_board_shape).
  destruct (decide _); [|by apply Hbd].
  destruct Hv as [-> | ->];
    [change (to_uint8 1) with 1|change (to_uint8 2) with 2]; lia.
Qed.

Lemma reset_inv g0 seed g :
  valid_goal g0 → reset g0 seed = Some g → episode_inv g false.
Proof.
  intros Hgoal. unfold reset, valid_goal in *.
  set (n := size g0) in *.
  destruct (_spawn_block n _ _) as [[b1 rng1]|] eqn:E1; [|done]. simpl.
  destruct (_spawn_block n b1 rng1) as [[b2 rng2]|] eqn:E2; [|done]. simpl.
  assert (bounded n (replicate n (replicate n 0)) 0 2) as Hbd0.
  { intros r c Hr Hc. rewrite cell_zeros by done. lia. }
  destruct (spawn_bounded _ _ _ _ _ 2 (wf_zeros n) ltac:(lia) Hbd0 E1)
    as (Hn & Hwf1 & Hbd1).
  destruct (spawn_bounded _ _ _ _ _ 2 Hwf1 ltac:(lia) Hbd1 E2)
    as (_ & Hwf2 & Hbd2).
  destruct (_update_legal_moves _ b2 _) as [lm|] eqn:Elm; [|done].
  simpl. intros [= <-].
  destruct (update_legal_moves_idem n b2 (replicate 4 1) lm)
    as [Hlen Hidem]; [done|by apply wf_board_shape|done|done|].
  constructor; simpl.
  - by constructor.
  - done.
  - done.
  - intros r c Hr Hc. specialize (Hbd2 r c Hr Hc). lia.
  - intros _ r c Hr Hc. specialize (Hbd2 r c Hr Hc). lia.
Qed.

Lemma step_inv g action g' reward terminated :
  episode_inv g false → step g action = Some (g', reward, terminated) →
  episode_inv g' terminated.
Proof.
  intros [[Hn Hcells Hlm] Hgoal Hsync _ Hlive] E.
  specialize (Hlive eq_refl). unfold valid_goal in *.
  pose proof (wf_board_shape _ _ Hcells) as Hb.
  destruct (Py.get (legal_moves g) action) as [flag|] eqn:Hget;
    [|by (unfold step in E; rewrite Hget in E)].
  destruct (decide (flag = 1)) as [->|Hflag].
  - destruct (move (size g) action (board g) []) as [[b1 sps]|] eqn:Em;
      [|by (unfold step in E; rewrite Hget in E; simpl in E;
            rewrite Em in E)].
    pose proof (move_some_action _ _ _ _ _ Hn Hb Em) as HD.
    destruct (move_spec (size g) action (board g) [] HD Hb)
      as (b1' & Em' & Hwf1 & _).
    rewrite Em in Em'. injection Em' as <- _.
    assert (bounded (size g) b1 0 (board_goal g)) as Hbd1.
    { replace (board_goal g) with (board_goal g - 1 + 1) by lia.
      apply (move_bounded _ action (board g) b1 [] sps);
        [done|done|lia|done|done]. }
    rewrite (step_legal_eq g action b1 sps Hget Em) in E. cbv zeta in E.
    destruct (_is_reach_goal b1 (board_goal g)) eqn:Eg.
    + destruct (_update_legal_moves (size g) b1 (legal_moves g))
        as [lm|] eqn:Elm; [|done].
      simpl in E. injection E as <- <- <-.
      destruct (update_legal_moves_idem (size g) b1 (legal_moves g) lm)
        as [Hlen Hidem]; [done|by apply wf_board_shape|done|done|].
      constructor; simpl; [by constructor|done|done|done|done].
    + assert (bounded (size g) b1 0 (board_goal g - 1)) as Hbd1'.
      { intros r c Hr Hc. specialize (Hbd1 r c Hr Hc).
        destruct (decide (cell b1 r c = board_goal g)) as [Heq|Hne]; [|lia].
        assert (_is_reach_goal b1 (board_goal g) = true) as Eg';
          [|congruence].
        apply (is_reach_goal_spec (size g)); [by apply wf_board_shape|].
        by exists r, c. }
      destruct (_spawn_block (size g) b1 (np_random g))
        as [[b2 rng2]|] eqn:Esp; [|done].
      simpl in E.
      destruct (spawn_bounded _ _ _ _ _ (board_goal g - 1) Hwf1
                  ltac:(lia) Hbd1' Esp) as (_ & Hwf2 & Hbd2).
      destruct (_update_legal_moves (size g) b2 (legal_moves g))
        as [lm|] eqn:Elm; [|done].
      simpl in E.
      destruct (update_legal_moves_idem (size g) b2 (legal_moves g) lm)
        as [Hlen Hidem]; [done|by apply wf_board_shape|done|done|].
      destruct (_is_game_over (size g) b2); injection E as <- <- <-;
        (constructor; simpl; [by constructor|done|done| |done]);
        intros r c Hr Hc; specialize (Hbd2 r c Hr Hc); lia.
  - rewrite (step_illegal_eq g action flag Hget Hflag) in E.
    destruct (_update_legal_moves (size g) (board g) (legal_moves g))
      as [lm|] eqn:Elm; [|done].
    simpl in E. injection E as <- <- <-.
    destruct (update_legal_moves_idem (size g) (board g) (legal_moves g) lm)
      as [Hlen Hidem]; [done|done|done|done|].
    constructor; simpl; [by constructor|done|done| |done].
    intros r c Hr Hc. specialize (Hlive r c Hr Hc). lia.
Qed.

Lemma reachable_inv g t : reachable g t → episode_inv g t.
Proof.
  induction 1 as [g0 seed g Hgoal E|g a g' r t _ IH E].
  - by eapply reset_inv.
  - by eapply step_inv.
Qed.

(** *** Numeric value of lines and boards *)

Lemma zsum_cons x l : zsum (x :: l) = x + zsum l.
Proof. done. Qed.

Lemma zsum_app l1 l2 : zsum (l1 ++ l2) = zsum l1 + zsum l2.
Proof.
  induction l1 as [|x l1 IH]; [done|].
  rewrite <- app_comm_cons, !zsum_cons, IH. lia.
Qed.

Lemma zsum_fmap_add {A} (f g : A → Z) l :
  zsum ((λ k, f k + g k) <$> l) = zsum (f <$> l) + zsum (g <$> l).
Proof.
  induction l as [|x l IH]; [done|]. rewrite !fmap_cons, !zsum_cons, IH. lia.
Qed.

Lemma zsum_fmap_zero {A} (l : list A) : zsum ((λ _, 0) <$> l) = 0.
Proof.
  induction l as [|x l IH]; [done|]. by rewrite !fmap_cons, !zsum_cons, IH.
Qed.

Lemma line_value_app l1 l2 :
  line_value (l1 ++ l2) = line_value l1 + line_value l2.
Proof. unfold line_value. by rewrite fmap_app, zsum_app. Qed.

Lemma line_value_cons x l : line_value (x :: l) = tile_value x + line_value l.
Proof. done. Qed.

Lemma line_value_zeros k : line_value (replicate k 0) = 0.
Proof. induction k as [|k IH]; [done|]. simpl. by rewrite line_value_cons, IH. Qed.

Lemma line_value_reverse l : line_value (reverse l) = line_value l.
Proof.
  induction l as [|x l IH]; [done|].
  rewrite reverse_cons, line_value_app, IH, !line_value_cons.
  unfold line_value at 2. simpl. lia.
Qed.

Lemma line_value_tiles l : line_value (tiles l) = line_value l.
Proof.
  induction l as [|x l IH]; [done|]. rewrite tiles_cons, line_value_cons.
  unfold tile_value. destruct (Z.eqb_spec x 0) as [->|Hx]; [by rewrite IH|].
  rewrite line_value_cons, IH. unfold tile_value.
  by destruct (Z.eqb_spec x 0).
Qed.

Lemma tile_value_fused a : 0 < a → tile_value (a + 1) = tile_value a + tile_value a.
Proof.
  intros Ha. unfold tile_value.
  destruct (Z.eqb_spec (a + 1) 0); [lia|]. destruct (Z.eqb_spec a 0); [lia|].
  rewrite Z.pow_add_r by lia. lia.
Qed.

Lemma line_value_merge ts :
  Forall (λ x, 0 < x) ts → line_value (merge ts) = line_value ts.
Proof.
  induction ts as [| |a l IH|a b l Hab IH] using merge_ind; intros H;
    [done|done| |].
  - rewrite merge_eq. apply Forall_cons in H as [Ha H].
    apply Forall_cons in H as [_ H].
    rewrite !line_value_cons, IH by done. rewrite tile_value_fused by done.
    lia.
  - rewrite merge_ne by done. apply Forall_cons in H as [Ha H].
    by rewrite !line_value_cons, IH.
Qed.

Lemma line_value_combined way l :
  Forall (λ x, 0 ≤ x) l → line_value (combined way l) = line_value l.
Proof.
  intros Hl.
  assert (∀ l' n, Forall (λ x, 0 ≤ x) l' →
            line_value (pad n (merge (tiles l'))) = line_value l') as H.
  { intros l' n Hl'. unfold pad.
    rewrite line_value_app, line_value_zeros, line_value_merge,
      line_value_tiles; [lia|].
    pose proof (tiles_nonzero l') as Hnz.
    pose proof (Forall_tiles _ l' Hl') as Hr.
    rewrite Forall_forall in *. intros x Hx.
    specialize (Hnz x Hx). specialize (Hr x Hx). simpl in *. lia. }
  unfold combined, orient. destruct (way =? 0); [by apply H|].
  rewrite line_value_reverse, H, line_value_reverse;
    [done|by apply Forall_reverse].
Qed.

Lemma fmap_seq_lookup_total {A} `{!Inhabited A} (l : list A) :
  ((λ k, l !!! k) <$> seq 0 (length l)) = l.
Proof.
  apply list_eq. intros i. rewrite list_lookup_fmap.
  destruct (decide (i < length l)%nat) as [H|H].
  - rewrite lookup_seq_lt by done. simpl.
    destruct (lookup_lt_is_Some_2 l i H) as [x Hx].
    by rewrite (list_lookup_total_correct _ _ _ Hx).
  - rewrite lookup_seq_ge by lia. by rewrite lookup_ge_None_2 by lia.
Qed.

Lemma zsum_fmap_ext {A} (f g : A → Z) l :
  (∀ i x, l !! i = Some x → f x = g x) →
  zsum (f <$> l) = zsum (g <$> l).
Proof. intros H. by rewrite (list_fmap_ext f g l H). Qed.

(** The value of a board is the sum of the values of its lines along
    either axis. *)
Lemma board_value_lines n b D :
  shape n b →
  board_value b = zsum ((λ k, line_value (axis_line b D k)) <$> seq 0 n).
Proof.
  intros [Hlen HF]. unfold axis_line. destruct (D <? 2).
  - unfold board_value. rewrite <- (fmap_seq_lookup_total b) at 1.
    by rewrite <- list_fmap_compose, Hlen.
  - clear Hlen. induction HF as [|l b Hl HF IH].
    + rewrite (zsum_fmap_ext _ (λ _, 0)) by done.
      by rewrite zsum_fmap_zero.
    + unfold board_value in *. rewrite fmap_cons, zsum_cons, IH.
      rewrite (zsum_fmap_ext (λ k, line_value (col (l :: b) k))
                 (λ k, tile_value (l !!! k) + line_value (col b k)))
        by done.
      rewrite zsum_fmap_add. f_equal. unfold line_value.
      rewrite <- (fmap_seq_lookup_total l) at 1.
      by rewrite <- list_fmap_compose, Hl.
Qed.

(** A move preserves the value of a board whose exponents are below 255. *)
Lemma move_value n D b b' sps0 sps :
  D = 0 ∨ D = 1 ∨ D = 2 ∨ D = 3 → shape n b → bounded n b 0 254 →
  move n D b sps0 = Some (b', sps) → board_value b' = board_value b.
Proof.
  intros HD Hb Hbd E.
  destruct (move_spec n D b sps0 HD Hb) as (b1 & E1 & Hwf & Hlines).
  rewrite E in E1. injection E1 as <- _.
  pose proof (wf_board_shape n b' Hwf) as Hb'.
  rewrite (board_value_lines n b' D Hb'), (board_value_lines n b D Hb).
  apply zsum_fmap_ext. intros i k Hk. apply lookup_seq in Hk as [-> Hk].
  simpl. rewrite Hlines by done. unfold moved_line.
  assert (Forall (λ x, 0 ≤ x ≤ 254) (axis_line b D i)) as HF
    by (by apply (axis_line_Forall n)).
  rewrite to_uint8_id.
  - apply line_value_combined. eapply Forall_impl; [exact HF|].
    simpl. intros; lia.
  - eapply Forall_impl; [apply (combined_bound 254); [lia|exact HF]|].
    simpl. intros; lia.
Qed.

(** *** Provenance of the tiles *)

Lemma grouping_eq a l : grouping (a :: a :: l) = Fused a :: grouping l.
Proof. simpl. by rewrite Z.eqb_refl. Qed.

Lemma grouping_ne a b l :
  a ≠ b → grouping (a :: b :: l) = Moved a :: grouping (b :: l).
Proof.
  intros H.
  change (grouping (a :: b :: l))
    with (if a =? b then Fused a :: grouping l
          else Moved a :: grouping (b :: l)).
  by destruct (Z.eqb_spec a b).
Qed.

Lemma fused_cons g gs :
  fused (g :: gs)
  = match g with Moved _ => [] | Fused e => [e + 1] end ++ fused gs.
Proof. done. Qed.

Lemma grouping_spec ts :
  concat (sources <$> grouping ts) = ts
  ∧ result <$> grouping ts = merge ts
  ∧ fused (grouping ts) = merged ts.
Proof.
  induction ts as [| |a l IH|a b l Hab IH] using merge_ind; [done|done| |].
  - destruct IH as (I1 & I2 & I3).
    rewrite merge_eq, merged_eq, grouping_eq, !fmap_cons, fused_cons.
    rewrite I2, I3. split; [|done].
    change (concat (sources (Fused a) :: (sources <$> grouping l)))
      with (a :: a :: concat (sources <$> grouping l)).
    by rewrite I1.
  - destruct IH as (I1 & I2 & I3).
    rewrite merge_ne, merged_ne, grouping_ne, !fmap_cons, fused_cons by done.
    rewrite I2, I3. split; [|done].
    change (concat (sources (Moved a)
                    :: (sources <$> grouping (b :: l))))
      with (a :: concat (sources <$> grouping (b :: l))).
    by rewrite I1.
Qed.

(** *** The scalar power is exact below the sign bit *)

Lemma scalar_pow2_exact e : 0 ≤ e < W - 1 → scalar_pow2 e = 2 ^ e.
Proof.
  intros He. unfold scalar_pow2, wrap.
  assert (0 < 2 ^ e < 2 ^ (W - 1)) as Hlt.
  { split; [apply Z.pow_pos_nonneg; lia|apply Z.pow_lt_mono_r; lia]. }
  assert (2 ^ W = 2 * 2 ^ (W - 1)) as ->.
  { rewrite <- Z.pow_succ_r by lia. f_equal. lia. }
  rewrite Z.mod_small by lia. lia.
Qed.

(** *** The goal check of [__init__] *)

Lemma to_float64_pow2 k : 0 ≤ k → to_float64 (2 ^ k) = 2 ^ k.
Proof.
  intros Hk. unfold to_float64.
  destruct (Z.ltb_spec (2 ^ k) (2 ^ 53)) as [|Hge]; [done|].
  assert (53 ≤ k) as Hk53.
  { destruct (decide (53 ≤ k)); [done|]. exfalso.
    assert (2 ^ k < 2 ^ 53) by (apply Z.pow_lt_mono_r; lia). lia. }
  rewrite Z.log2_pow2 by done.
  assert (2 ^ k = 2 ^ 52 * 2 ^ (k - 52)) as ->.
  { rewrite <- Z.pow_add_r by lia. f_equal. lia. }
  pose proof (Z.pow_pos_nonneg 2 (k - 52) ltac:(lia) ltac:(lia)) as Hp.
  cbv zeta. rewrite Z.mod_mul, Z.div_mul by lia.
  by destruct (Z.ltb_spec (2 * 0) (2 ^ (k - 52))); [|lia].
Qed.

(** ** The claims *)

(** C1 - Legality soundness. For every board of [n] x [n] cells ([n] at least
    1) and every direction [D] among left (0), right (1), up (2) and down
    (3), [_update_legal_moves] computes a vector whose entry [D] is 1 or 0,
    and the entry is 1 if and only if applying the move ([_combiner] on every
    line of the board in direction [D], written back into the [uint8] board)
    changes at least one cell. *)
Theorem legality_soundness n b lm D :
  (0 < n)%nat → wf_board n b → length lm = 4%nat →
  D = 0 ∨ D = 1 ∨ D = 2 ∨ D = 3 →
  ∃ v b' sps,
    _update_legal_moves n b lm = Some v
    ∧ move n D b [] = Some (b', sps)
    ∧ (Py.get v D = Some 1 ∨ Py.get v D = Some 0)
    ∧ (Py.get v D = Some 1 ↔ changed n b b').
Proof.
  intros Hn Hwf Hlm HD. pose proof (wf_board_shape n b Hwf) as Hb.
  destruct (update_legal_moves_spec n b lm Hn Hb Hlm) as (v & Ev & _ & Hv).
  destruct (move_spec n D b [] HD Hb) as (b' & Em & _ & _).
  exists v, b', ([] ++ move_events n b D). split; [done|]. split; [done|].
  destruct (Hv D HD) as (f & Hf & Hm). rewrite Hf.
  rewrite (move_changed_iff n D b b' [] _ HD Hwf Em), <- Hm.
  destruct f; split; auto; split; intros; done.
Qed.

(** C2 (amended) - The slide check of the program. For every board and
    direction, [_check_legal] answers, and it answers [True] exactly when
    some line along the axis of the move has an empty cell with a tile
    farther from the compaction edge: its running mask starts at the line
    at the edge opposite to the compaction edge and is compared with the
    lines scanned towards the compaction edge. Whenever the slide check as
    the specification words it answers [True], so does [_check_legal]; the
    converse fails. *)
Theorem slide_check_program n b D :
  (0 < n)%nat → shape n b → D = 0 ∨ D = 1 ∨ D = 2 ∨ D = 3 →
  ∃ v, _check_legal n b D = Some v
       ∧ (v = true
          ↔ ∃ k, (k < n)%nat ∧ gap (orient (way_of D) (axis_line b D k)))
       ∧ (spec_slide_check n b D = true → v = true).
Proof.
  intros Hn Hb HD.
  destruct (check_legal_spec n b D Hn Hb HD) as (v & E & Hv).
  exists v. split; [done|]. split; [done|].
  intros H. apply Hv. by apply spec_slide_check_gap.
Qed.

(** C6 - An illegal action is a defined outcome. In every state, for every
    action whose entry in the legal-move vector is 0, [step] returns (no
    exception), with reward 0 and [terminated = False]; the board, the
    score and the best score are unchanged and [is_legal] is [False]. *)
Theorem step_illegal_outcome g action :
  wf_state g → Py.get (legal_moves g) action = Some 0 →
  ∃ g', step g action = Some (g', 0, false)
        ∧ board g' = board g ∧ score g' = score g
        ∧ best_score g' = best_score g ∧ is_legal g' = false.
Proof.
  intros [Hn Hcells Hlm] Hget.
  rewrite (step_illegal_eq g action 0 Hget) by done.
  destruct (update_legal_moves_spec (size g) (board g) (legal_moves g))
    as (lm & -> & _); [done|by apply wf_board_shape|done|].
  simpl. eexists. split; [done|]. done.
Qed.

(** C4 - No double merge. In one call of [_combiner] on a line, every tile
    of the result is either one tile of the line moved as it is or the
    fusion of exactly two equal neighbouring tiles of the line, each tile of
    the line is used once, and the merge events are the values of the fused
    tiles; so no tile of the result comes from more than one merge. In
    particular three equal tiles [e, e, e] give [e + 1, e]: two collapse into
    one and the third is only displaced, with the single merge event
    [2 ** (e + 1)]. *)
Theorem no_double_merge n line way sps0 :
  length line = n → way = 0 ∨ way = 1 →
  (∃ gs, concat (sources <$> gs) = tiles (orient way line)
         ∧ _combiner n line way sps0
           = Some (orient way (pad n (result <$> gs)),
                   sps0 ++ (scalar_pow2 <$> fused gs)))
  ∧ (∀ e, tiles (orient way line) = [e; e; e] →
          _combiner n line way sps0
          = Some (orient way (pad n [e + 1; e]),
                  sps0 ++ [scalar_pow2 (e + 1)])).
Proof.
  intros Hn Hway. rewrite (combiner_spec n line way sps0 Hn Hway).
  unfold combined. rewrite Hn. split.
  - exists (grouping (tiles (orient way line))).
    destruct (grouping_spec (tiles (orient way line))) as (I1 & I2 & I3).
    by rewrite I1, I2, I3.
  - intros e ->. by rewrite merge_eq, merged_eq.
Qed.

(** C5 - Value conservation. In every state of a running episode and for
    every direction, the board after the move (before the spawn) has the
    same total numeric value, the sum of [2 ^ e] over its non-empty cells,
    as the board before it; each call of [_combiner] that the move makes
    returns a line with the same total value as the line it was given, and
    that line is what the move writes back. More generally every call of
    [_combiner] on a line of [uint8] cells preserves the total value. *)
Theorem value_conservation g D :
  reachable g false → D = 0 ∨ D = 1 ∨ D = 2 ∨ D = 3 →
  ∃ b' sps,
    move (size g) D (board g) [] = Some (b', sps)
    ∧ board_value b' = board_value (board g)
    ∧ (∀ k sps0, (k < size g)%nat →
         ∃ new_line sps',
           _combiner (size g) (axis_line (board g) D k) (way_of D) sps0
           = Some (new_line, sps')
           ∧ line_value new_line = line_value (axis_line (board g) D k)
           ∧ axis_line b' D k = new_line)
    ∧ (∀ line way sps0,
         length line = size g → way = 0 ∨ way = 1 →
         Forall (λ x, 0 ≤ x < 256) line →
         ∃ new_line sps',
           _combiner (size g) line way sps0 = Some (new_line, sps')
           ∧ line_value new_line = line_value line).
Proof.
  intros Hreach HD.
  destruct (reachable_inv g false Hreach)
    as [[Hn Hcells Hlm] Hgoal _ _ Hlive].
  specialize (Hlive eq_refl). unfold valid_goal in Hgoal.
  pose proof (wf_board_shape _ _ Hcells) as Hb.
  assert (bounded (size g) (board g) 0 254) as Hbd.
  { intros r c Hr Hc. specialize (Hlive r c Hr Hc). lia. }
  destruct (move_spec (size g) D (board g) [] HD Hb)
    as (b' & E & Hwf' & Hlines).
  exists b', ([] ++ move_events (size g) (board g) D).
  split; [done|]. split; [by apply (move_value _ D _ _ [] _ HD Hb Hbd E)|].
  split.
  - intros k sps0 Hk.
    assert (Forall (λ x, 0 ≤ x ≤ 254) (axis_line (board g) D k)) as HF
      by (by apply (axis_line_Forall (size g))).
    assert (way_of D = 0 ∨ way_of D = 1) as Hway
      by (unfold way_of; destruct HD as [-> | [-> | [-> | ->]]]; auto).
    rewrite (combiner_spec (size g) _ (way_of D) sps0)
      by (by rewrite ?(length_axis_line (size g))).
    eexists _, _. split; [done|]. split.
    + apply line_value_combined.
      eapply Forall_impl; [exact HF|]. simpl. intros; lia.
    + rewrite Hlines by done. unfold moved_line. apply to_uint8_id.
      eapply Forall_impl; [apply (combined_bound 254); [lia|exact HF]|].
      simpl. intros; lia.
  - intros line way sps0 Hlen Hway Hline.
    rewrite (combiner_spec (size g) line way sps0 Hlen Hway).
    eexists _, _. split; [done|]. apply line_value_combined.
    eapply Forall_impl; [exact Hline|]. simpl. intros; lia.
Qed.

(** C8 - Board exponent invariant. In every state of an episode ([reset]
    on an environment with a validated goal, then [step] calls up to the
    first one that returns [terminated]), every cell of the board holds an
    exponent between 0 and [board_goal]. *)
Theorem exponent_invariant g t r c :
  reachable g t → (r < size g)%nat → (c < size g)%nat →
  0 ≤ cell (board g) r c ≤ board_goal g.
Proof.
  intros H Hr Hc. apply reachable_inv in H. by apply (inv_cells g t H).
Qed.

(** C9 (amended) - Spawn safety and validity, for a board of at least two
    rows. Both seeding calls of [reset] find an empty cell, so [reset]
    succeeds; the call made by [step] after a legal move that did not reach
    the goal finds an empty cell, in every state whose legal-move vector is
    up to date; and every spawn that returns writes 1 or 2 into a cell that
    was empty and leaves the other cells as they were. *)
Theorem spawn_safety g seed :
  (2 ≤ size g)%nat →
  (∃ b1 rng1 b2 rng2 g',
     has_empty (size g) (replicate (size g) (replicate (size g) 0))
     ∧ _spawn_block (size g) (replicate (size g) (replicate (size g) 0))
         (default (np_random g) seed) = Some (b1, rng1)
     ∧ has_empty (size g) b1
     ∧ _spawn_block (size g) b1 rng1 = Some (b2, rng2)
     ∧ reset g seed = Some g' ∧ board g' = b2)
  ∧ (∀ action b1 sps,
       wf_state g → in_sync g → Py.get (legal_moves g) action = Some 1 →
       move (size g) action (board g) [] = Some (b1, sps) →
       _is_reach_goal b1 (board_goal g) = false →
       has_empty (size g) b1
       ∧ is_Some (_spawn_block (size g) b1 (np_random g)))
  ∧ (∀ b rng b' rng',
       shape (size g) b → _spawn_block (size g) b rng = Some (b', rng') →
       ∃ r c v, (r < size g)%nat ∧ (c < size g)%nat ∧ cell b r c = 0
                ∧ (v = 1 ∨ v = 2) ∧ cell b' r c = v
                ∧ ∀ r' c', r' ≠ r ∨ c' ≠ c → cell b' r' c' = cell b r' c').
Proof.
  intros Hsize. set (n := size g) in *. split; [|split].
  - assert (has_empty n (replicate n (replicate n 0))) as He0.
    { exists 0%nat, 0%nat. split; [lia|]. split; [lia|].
      apply cell_zeros; lia. }
    destruct (spawn_some n _ (default (np_random g) seed) He0)
      as [[b1 rng1] E1].
    pose proof (spawn_spec n (replicate n (replicate n 0))
                  (default (np_random g) seed)) as H1.
    rewrite E1 in H1. destruct H1 as (r & c & v & Hr & Hc & _ & _ & ->).
    pose proof (wf_zeros n) as Hwf0.
    pose proof (wf_board_shape n _ Hwf0) as Hb0.
    assert (has_empty n (set_cell r c v (replicate n (replicate n 0))))
      as He1.
    { destruct (decide (r = 0%nat ∧ c = 0%nat)) as [[-> ->]|Hne].
      - exists 0%nat, 1%nat. split; [lia|]. split; [lia|].
        rewrite (cell_set_cell n) by done.
        destruct (decide _) as [[_ ?]|]; [done|]. apply cell_zeros; lia.
      - exists 0%nat, 0%nat. split; [lia|]. split; [lia|].
        rewrite (cell_set_cell n) by done.
        destruct (decide _) as [[? ?]|]; [by destruct Hne|].
        apply cell_zeros; lia. }
    destruct (spawn_some n _ rng1 He1) as [[b2 rng2] E2].
    pose proof (spawn_spec n (set_cell r c v (replicate n (replicate n 0)))
                  rng1) as H2.
    rewrite E2 in H2.
    destruct H2 as (r2 & c2 & v2 & _ & _ & _ & _ & ->).
    pose proof (wf_set_cell n _ r2 c2 v2 (wf_set_cell n _ r c v Hwf0))
      as Hwf2.
    destruct (update_legal_moves_spec n _ (replicate 4 1)
                ltac:(lia) (wf_board_shape n _ Hwf2) eq_refl)
      as (lm & Elm & _).
    eexists _, rng1, _, rng2, _. split; [done|]. split; [done|].
    split; [done|]. split; [done|].
    unfold reset. fold n. rewrite E1. simpl. rewrite E2. simpl.
    change [1; 1; 1; 1] with (replicate 4 1). rewrite Elm. simpl. done.
  - intros action b1 sps Hwf Hsync Hget Em _.
    pose proof (wf_board_shape _ _ (wf_cells g Hwf)) as Hb.
    pose proof (move_some_action _ _ _ _ _ (wf_size g Hwf) Hb Em) as HD.
    pose proof (legal_entry_movable g action Hwf Hsync HD Hget) as Hm.
    destruct (move_movable n action (board g) b1 [] sps HD Hb Em Hm)
      as (r & c & Hr & Hc & _ & Hz).
    assert (has_empty n b1) as He by (by exists r, c).
    split; [done|]. by apply spawn_some.
  - intros b rng b' rng' Hb E. pose proof (spawn_spec n b rng) as H.
    rewrite E in H. destruct H as (r & c & v & Hr & Hc & Hz & Hv & ->).
    exists r, c, v. repeat (split; [done|]). split.
    + rewrite (cell_set_cell n) by done.
      destruct (decide _) as [|[]]; [|done].
      by destruct Hv as [-> | ->].
    + intros r' c' Hne. rewrite (cell_set_cell n) by done.
      destruct (decide _) as [[? ?]|]; [|done]. by destruct Hne.
Qed.

(** C10 - The goal check of the constructor, where it leaves the rule it
    announces. Whenever the logarithm is exact on the powers of two: the
    goal [2 ** 53 + 1], which is not a power of two, is accepted, with
    [board_goal = 53]; every power of two from [2 ** 64] on, given as a
    Python [int], makes the constructor raise [TypeError], although the
    assertion admits goals up to [2 ** 256]; and the powers of two from
    [2 ** 3] to [2 ** 63] are accepted with [board_goal] their exponent. *)
Theorem init_goal_check_diverges float_log2 size rng :
  (∀ k, 0 ≤ k → float_log2 (2 ^ k) = Whole k) →
  (∃ g, __init__ float_log2 size (2 ^ 53 + 1) rng = inr g
        ∧ board_goal g = 53)
  ∧ (∀ k, 64 ≤ k → __init__ float_log2 size (2 ^ k) rng = inl TypeError)
  ∧ (∀ k, 2 < k < 64 →
       ∃ g, __init__ float_log2 size (2 ^ k) rng = inr g
            ∧ board_goal g = k).
Proof.
  intros Hlog. split; [|split].
  - unfold __init__.
    assert (to_float64 (2 ^ 53 + 1) = 2 ^ 53) as ->
      by (vm_compute; reflexivity).
    rewrite (Hlog 53) by lia.
    assert (negb ((- 2 ^ 63 <=? 2 ^ 53 + 1) && (2 ^ 53 + 1 <? 2 ^ 64))
            = false) as -> by (vm_compute; reflexivity).
    assert ((2 ^ 53 + 1 <=? 0) = false) as -> by (vm_compute; reflexivity).
    simpl. eexists. split; [done|]. done.
  - intros k Hk. unfold __init__.
    assert (2 ^ 64 ≤ 2 ^ k) by (apply Z.pow_le_mono_r; lia).
    destruct (Z.ltb_spec (2 ^ k) (2 ^ 64)); [lia|].
    by rewrite andb_false_r.
  - intros k Hk. unfold __init__.
    assert (2 ^ 3 ≤ 2 ^ k) by (apply Z.pow_le_mono_r; lia).
    assert (2 ^ k < 2 ^ 64) by (apply Z.pow_lt_mono_r; lia).
    destruct (Z.leb_spec (- 2 ^ 63) (2 ^ k)); [|lia].
    destruct (Z.ltb_spec (2 ^ k) (2 ^ 64)); [|lia].
    destruct (Z.leb_spec (2 ^ k) 0); [lia|]. simpl.
    rewrite to_float64_pow2, Hlog by lia.
    destruct (Z.ltb_spec 2 k); [|lia]. destruct (Z.ltb_spec k 256); [|lia].
    simpl. eexists. split; [done|]. done.
Qed.

(** ** Further properties of the engine *)

(** *** Lines after a move *)

Lemma merge_pos ts : Forall (λ x, 0 < x) ts → Forall (λ x, 0 < x) (merge ts).
Proof.
  induction ts as [| |a l IH|a b l Hab IH] using merge_ind; intros H;
    [done|done| |].
  - rewrite merge_eq. apply Forall_cons in H as [Ha H].
    apply Forall_cons in H as [_ H]. constructor; [lia|by apply IH].
  - rewrite merge_ne by done. apply Forall_cons in H as [Ha H].
    constructor; [done|by apply IH].
Qed.

Lemma merged_bound M ts :
  Forall (λ x, 0 < x ≤ M) ts → Forall (λ x, 0 < x ≤ M + 1) (merged ts).
Proof.
  induction ts as [| |a l IH|a b l Hab IH] using merge_ind; intros H;
    [constructor|constructor| |].
  - rewrite merged_eq. apply Forall_cons in H as [Ha H].
    apply Forall_cons in H as [_ H]. constructor; [lia|by apply IH].
  - rewrite merged_ne by done. apply Forall_cons in H as [Ha H].
    by apply IH.
Qed.

Lemma tiles_pos l : Forall (λ x, 0 ≤ x) l → Forall (λ x, 0 < x) (tiles l).
Proof.
  intros Hl. pose proof (tiles_nonzero l) as Hnz.
  pose proof (Forall_tiles _ l Hl) as Hr.
  rewrite Forall_forall in *. intros x Hx.
  specialize (Hnz x Hx). specialize (Hr x Hx). simpl in *. lia.
Qed.

Lemma tiles_of_pos l : Forall (λ x, 0 < x) l → tiles l = l.
Proof.
  induction 1 as [|x l Hx _ IH]; [done|]. rewrite tiles_cons, IH.
  destruct (Z.eqb_spec x 0); [lia|done].
Qed.

Lemma tiles_zeros k : tiles (replicate k 0) = [].
Proof. induction k as [|k IH]; [done|]. simpl. done. Qed.

Lemma orient_involutive way l : orient way (orient way l) = l.
Proof.
  unfold orient. destruct (way =? 0); [done|apply reverse_involutive].
Qed.

Lemma length_orient way l : length (orient way l) = length l.
Proof. unfold orient. destruct (way =? 0); [done|apply length_reverse]. Qed.

Lemma Forall_orient (P : Z → Prop) way l :
  Forall P l → Forall P (orient way l).
Proof.
  intros H. unfold orient. destruct (way =? 0); [done|by apply Forall_reverse].
Qed.

Lemma tiles_orient way l : tiles (orient way l) = orient way (tiles l).
Proof. unfold orient. destruct (way =? 0); [done|apply tiles_reverse]. Qed.

(** Packed tiles followed by empty cells leave no gap. *)
Lemma no_gap_pad n m : Forall (λ x, 0 < x) m → ¬ gap (pad n m).
Proof.
  intros Hm (i & j & x & Hij & Hi & Hj & Hx). unfold pad in *.
  destruct (decide (j < length m)%nat) as [Hlt|Hge].
  - rewrite lookup_app_l in Hi by lia. rewrite Forall_lookup in Hm.
    specialize (Hm i 0 Hi). simpl in Hm. lia.
  - rewrite lookup_app_r in Hj by lia.
    apply lookup_replicate in Hj as [-> _]. done.
Qed.

Lemma combined_oriented way l :
  orient way (combined way l)
  = pad (length l) (merge (tiles (orient way l))).
Proof. unfold combined. apply orient_involutive. Qed.

(** X1 - Moving right is moving left on the mirrored line: [_combiner] with
    [way = 1] returns the mirror image of what it returns with [way = 0] on
    the reversed line, with the same merge events in the same order. *)
Theorem combiner_mirror n line sps0 :
  length line = n →
  ∃ new_line sps,
    _combiner n (reverse line) 0 sps0 = Some (new_line, sps)
    ∧ _combiner n line 1 sps0 = Some (reverse new_line, sps).
Proof.
  intros Hn.
  rewrite (combiner_spec n (reverse line) 0 sps0)
    by (rewrite ?length_reverse; auto).
  rewrite (combiner_spec n line 1 sps0) by auto.
  eexists _, _. split; [done|]. unfold combined.
  change (orient 0 (reverse line)) with (reverse line).
  change (orient 1 line) with (reverse line).
  by rewrite length_reverse.
Qed.

(** X2 - Shape of the line returned by [_combiner], for a line of the board
    (exponents are not negative): it has [size] cells, its tiles are packed
    against the compaction edge without an empty cell between them, and
    every merge event accounts for exactly one tile less than in the line
    given. *)
Theorem combiner_packs n line way sps0 :
  length line = n → way = 0 ∨ way = 1 → Forall (λ x, 0 ≤ x) line →
  ∃ new_line events,
    _combiner n line way sps0 = Some (new_line, sps0 ++ events)
    ∧ length new_line = n
    ∧ ¬ gap (orient way new_line)
    ∧ (length (tiles new_line) + length events = length (tiles line))%nat.
Proof.
  intros Hn Hway Hline. rewrite (combiner_spec n line way sps0 Hn Hway).
  eexists _, _. split; [done|].
  assert (Forall (λ x, 0 < x) (merge (tiles (orient way line)))) as Hpos.
  { apply merge_pos, tiles_pos. by apply Forall_orient. }
  split; [by rewrite length_combined|]. split.
  - rewrite combined_oriented. by apply no_gap_pad.
  - rewrite <- (length_orient way (tiles (combined way line))).
    rewrite <- tiles_orient, combined_oriented. unfold pad.
    rewrite tiles_app, tiles_zeros, app_nil_r, tiles_of_pos by done.
    rewrite length_fmap.
    rewrite length_merge, tiles_orient. apply length_orient.
Qed.

(** X3 - Below the sign bit of the scalar type the merge events are exact:
    on a line whose exponents are below [W - 2], the values that
    [_combiner] appends to [score_per_step] are the powers [2 ^ e] of the
    exponents [e] that its merges produce. *)
Theorem combiner_events_exact n line way sps0 :
  length line = n → way = 0 ∨ way = 1 →
  Forall (λ x, 0 ≤ x < W - 2) line →
  ∃ new_line,
    _combiner n line way sps0
    = Some (new_line,
            sps0 ++ ((λ e, 2 ^ e) <$> merged (tiles (orient way line)))).
Proof.
  intros Hn Hway Hline. rewrite (combiner_spec n line way sps0 Hn Hway).
  eexists. f_equal. f_equal. f_equal. apply Forall_fmap_ext_1.
  eapply Forall_impl; [apply (merged_bound (W - 3))|].
  - assert (Forall (λ x, 0 ≤ x) line) as H0
      by (eapply Forall_impl; [exact Hline|]; simpl; intros; lia).
    pose proof (tiles_pos _ (Forall_orient _ way _ H0)) as Hp.
    pose proof (Forall_tiles _ _ (Forall_orient _ way _ Hline)) as Hr.
    rewrite Forall_forall in *. intros x Hx.
    specialize (Hp x Hx). specialize (Hr x Hx). simpl in *. lia.
  - simpl. intros e He. apply scalar_pow2_exact. lia.
Qed.

(** X4 - The same symmetry for the board: moving right gives the mirror
    image of moving the mirrored board left, with the same merge events. *)
Theorem move_right_mirror n b sps0 :
  shape n b →
  ∃ b' sps,
    move n 0 (reverse <$> b) sps0 = Some (b', sps)
    ∧ move n 1 b sps0 = Some (reverse <$> b', sps).
Proof.
  intros Hb. destruct Hb as [Hlen HF].
  assert (shape n (reverse <$> b)) as Hb'.
  { split; [by rewrite length_fmap|]. apply Forall_fmap.
    eapply Forall_impl; [exact HF|]. intros l Hl. simpl.
    by rewrite length_reverse. }
  unfold move. simpl.
  rewrite (move_rows_spec n 0 (reverse <$> b) sps0) by auto.
  rewrite (move_rows_spec n 1 b sps0) by (auto; by split).
  eexists _, _. split; [done|]. f_equal. f_equal.
  - rewrite <- !list_fmap_compose. apply list_fmap_ext. intros i l _.
    simpl. unfold moved_line, combined.
    change (orient 0 (reverse l)) with (reverse l).
    change (orient 1 l) with (reverse l).
    change (orient 0 ?x) with x.
    change (orient 1 ?x) with (reverse x).
    by rewrite fmap_reverse, length_reverse.
  - f_equal. unfold move_events. f_equal. apply list_fmap_ext.
    intros i k Hk. apply lookup_seq in Hk as [-> Hk]. simpl.
    unfold axis_line, way_of, line_events. simpl.
    change (orient 0 ?x) with x. change (orient 1 ?x) with (reverse x).
    assert ((reverse <$> b) !!! i = reverse (b !!! i)) as ->; [|done].
    apply list_lookup_total_correct. rewrite list_lookup_fmap.
    by rewrite (list_lookup_lookup_total_lt b) by lia.
Qed.

(** X5 - After a move nothing is left to slide the same way: on a board
    whose exponents are below 255, the board that a move in direction [D]
    leaves has no empty cell between a tile and the compaction edge, so
    [_check_legal] answers [False] for [D] (only merges can make [D] legal
    again). *)
Theorem no_slide_after_move n D b b' sps0 sps :
  (0 < n)%nat → D = 0 ∨ D = 1 ∨ D = 2 ∨ D = 3 → shape n b →
  bounded n b 0 254 → move n D b sps0 = Some (b', sps) →
  _check_legal n b' D = Some false.
Proof.
  intros Hn HD Hb Hbd E.
  destruct (move_spec n D b sps0 HD Hb) as (b1 & E1 & Hwf & Hlines).
  rewrite E in E1. injection E1 as <- _.
  pose proof (wf_board_shape n b' Hwf) as Hb'.
  destruct (check_legal_spec n b' D Hn Hb' HD) as (v & Ev & Hv).
  rewrite Ev. f_equal. destruct v; [|done]. exfalso.
  destruct (proj1 Hv eq_refl) as (k & Hk & Hgap).
  rewrite Hlines in Hgap by done. unfold moved_line in Hgap.
  assert (Forall (λ x, 0 ≤ x ≤ 254) (axis_line b D k)) as HF
    by (by apply (axis_line_Forall n)).
  rewrite to_uint8_id in Hgap.
  - rewrite combined_oriented in Hgap. revert Hgap. apply no_gap_pad.
    apply merge_pos, tiles_pos, Forall_orient.
    eapply Forall_impl; [exact HF|]. simpl. intros; lia.
  - eapply Forall_impl; [apply (combined_bound 254); [lia|exact HF]|].
    simpl. intros; lia.
Qed.

(** *** The legal-move vector *)

Lemma gap_either_way n l p q x :
  length l = n → l !! p = Some 0 → l !! q = Some x → x ≠ 0 →
  gap (orient 0 l) ∨ gap (orient 1 l).
Proof.
  intros Hn Hp Hq Hx.
  change (orient 0 l) with l. change (orient 1 l) with (reverse l).
  assert (p ≠ q) as Hne by (intros ->; congruence).
  pose proof (lookup_lt_Some _ _ _ Hp). pose proof (lookup_lt_Some _ _ _ Hq).
  destruct (decide (p < q)%nat) as [Hlt|Hge].
  - left. exists p, q, x. done.
  - right. exists (n - S p)%nat, (n - S q)%nat, x. split; [lia|].
    rewrite !reverse_lookup_Some, Hn.
    replace (n - S (n - S p))%nat with p by lia.
    replace (n - S (n - S q))%nat with q by lia.
    repeat split; (done || lia).
Qed.

Lemma gap_has_empty_cell n b D k :
  shape n b → (k < n)%nat → D = 0 ∨ D = 1 ∨ D = 2 ∨ D = 3 →
  gap (orient (way_of D) (axis_line b D k)) → has_empty n b.
Proof.
  intros Hb Hk HD (i & j & x & _ & Hi & _).
  assert (∃ p, axis_line b D k !! p = Some 0) as [p Hp].
  { unfold orient in Hi. destruct (way_of D =? 0); [by exists i|].
    apply reverse_lookup_Some in Hi as [Hi _]. by eexists. }
  assert (p < n)%nat as Hpn
    by (apply lookup_lt_Some in Hp; by rewrite (length_axis_line n) in Hp).
  rewrite (cell_axis_line n) in Hp by done. injection Hp as Hp.
  destruct (D <? 2); [by exists k, p|by exists p, k].
Qed.

Lemma game_over_vector n b lm :
  (0 < n)%nat → shape n b → length lm = 4%nat →
  _is_game_over n b = true →
  _update_legal_moves n b lm = Some [0; 0; 0; 0].
Proof.
  intros Hn Hb Hlm Hover.
  destruct lm as [|a0 [|a1 [|a2 [|a3 [|]]]]]; try done.
  destruct (check_legal_spec n b 0 Hn Hb) as (v0 & E0 & H0); [auto|].
  destruct (check_legal_spec n b 1 Hn Hb) as (v1 & E1 & H1); [auto|].
  destruct (check_legal_spec n b 2 Hn Hb) as (v2 & E2 & H2); [auto|].
  destruct (check_legal_spec n b 3 Hn Hb) as (v3 & E3 & H3); [auto 6|].
  rewrite (update_legal_moves_eq n b a0 a1 a2 a3 v0 v1 v2 v3) by done.
  apply (is_game_over_spec n b Hb) in Hover as (Hfull & -> & ->).
  assert (∀ D (v : bool), D = 0 ∨ D = 1 ∨ D = 2 ∨ D = 3 →
            (v = true ↔ ∃ k, (k < n)%nat
               ∧ gap (orient (way_of D) (axis_line b D k))) →
            v = false) as Hno.
  { intros D v HD Hv. destruct v; [|done]. exfalso.
    destruct (proj1 Hv eq_refl) as (k & Hk & Hg).
    destruct (gap_has_empty_cell n b D k Hb Hk HD Hg)
      as (r' & c' & Hr' & Hc' & Hz).
    by apply (Hfull r' c'). }
  rewrite (Hno 0 v0), (Hno 1 v1), (Hno 2 v2), (Hno 3 v3); auto 6.
Qed.

(** X6 - Game over is the absence of a legal move. On a board with at
    least one tile, [_is_game_over] answers [True] exactly when the
    legal-move vector computed by [_update_legal_moves] is all zeros. *)
Theorem game_over_iff_no_legal_move n b lm :
  (0 < n)%nat → shape n b → has_tile n b → length lm = 4%nat →
  _is_game_over n b = true
  ↔ _update_legal_moves n b lm = Some [0; 0; 0; 0].
Proof.
  intros Hn Hb (r & c & Hr & Hc & Htile) Hlm.
  split; [by apply game_over_vector|].
  destruct lm as [|a0 [|a1 [|a2 [|a3 [|]]]]]; try done.
  destruct (check_legal_spec n b 0 Hn Hb) as (v0 & E0 & H0); [auto|].
  destruct (check_legal_spec n b 1 Hn Hb) as (v1 & E1 & H1); [auto|].
  destruct (check_legal_spec n b 2 Hn Hb) as (v2 & E2 & H2); [auto|].
  destruct (check_legal_spec n b 3 Hn Hb) as (v3 & E3 & H3); [auto 6|].
  rewrite (update_legal_moves_eq n b a0 a1 a2 a3 v0 v1 v2 v3) by done.
  rewrite (is_game_over_spec n b Hb).
  intros Hv.
  assert (_check_if_same n b 0 = false ∧ _check_if_same n b 1 = false
          ∧ v0 = false ∧ v1 = false ∧ v2 = false ∧ v3 = false)
    as (S0 & S1 & -> & -> & -> & ->).
  { destruct (_check_if_same n b 0), (_check_if_same n b 1),
      v0, v1, v2, v3; simpl in Hv; done. }
  split; [|done]. intros r' c' Hr' Hc' Hz.
  destruct (decide (cell b r c' = 0)) as [Hrow|Hcol].
  + (* the row of the tile has an empty cell *)
    destruct (gap_either_way n (b !!! r) c' c (cell b r c))
      as [Hg|Hg]; [by apply shape_row| | |done| |].
    * pose proof (cell_axis_line n b 0 r c' Hb Hr Hc') as E.
      simpl in E. unfold axis_line in E. simpl in E. by rewrite E, Hrow.
    * pose proof (cell_axis_line n b 0 r c Hb Hr Hc) as E.
      simpl in E. unfold axis_line in E. simpl in E. done.
    * assert (false = true) as X; [|done]. apply H0. by exists r.
    * assert (false = true) as X; [|done]. apply H1. by exists r.
  + (* the column of the empty cell holds a tile *)
    destruct (gap_either_way n (col b c') r' r (cell b r c'))
      as [Hg|Hg]; [rewrite length_col; apply Hb| | |done| |].
    * pose proof (cell_axis_line n b 2 c' r' Hb Hc' Hr') as E.
      simpl in E. unfold axis_line in E. simpl in E. by rewrite E, Hz.
    * pose proof (cell_axis_line n b 2 c' r Hb Hc' Hr) as E.
      simpl in E. unfold axis_line in E. simpl in E. done.
    * assert (false = true) as X; [|done]. apply H2. by exists c'.
    * assert (false = true) as X; [|done]. apply H3. by exists c'.
Qed.

(** X7 - The legal-move vector is a function of the board alone. Whatever
    the array [legal_moves] held before, [_update_legal_moves] leaves the
    same four flags, each 0 or 1, and running it again changes nothing. *)
Theorem update_legal_moves_board_only n b lm lm' :
  (0 < n)%nat → shape n b → length lm = 4%nat → length lm' = 4%nat →
  ∃ v, _update_legal_moves n b lm = Some v
       ∧ _update_legal_moves n b lm' = Some v
       ∧ _update_legal_moves n b v = Some v
       ∧ length v = 4%nat ∧ Forall (λ x, x = 0 ∨ x = 1) v.
Proof.
  intros Hn Hb Hlm Hlm'.
  destruct lm as [|a0 [|a1 [|a2 [|a3 [|]]]]]; try done.
  destruct lm' as [|c0 [|c1 [|c2 [|c3 [|]]]]]; try done.
  destruct (check_legal_spec n b 0 Hn Hb) as (v0 & E0 & _); [auto|].
  destruct (check_legal_spec n b 1 Hn Hb) as (v1 & E1 & _); [auto|].
  destruct (check_legal_spec n b 2 Hn Hb) as (v2 & E2 & _); [auto|].
  destruct (check_legal_spec n b 3 Hn Hb) as (v3 & E3 & _); [auto 6|].
  rewrite (update_legal_moves_eq n b a0 a1 a2 a3 v0 v1 v2 v3) by done.
  rewrite (update_legal_moves_eq n b c0 c1 c2 c3 v0 v1 v2 v3) by done.
  eexists. split; [done|]. split; [done|].
  split; [by apply update_legal_moves_eq|]. split; [done|].
  repeat first [apply Forall_nil_2 | apply Forall_cons_2];
    destruct (_ || _); auto.
Qed.

(** X8 - A board without cells. With [size = 0] the index [size - 1] (and
    0) addresses no line: [_check_legal] raises for every direction, and so
    does [_update_legal_moves]. *)
Theorem legal_moves_empty_board b lm D :
  length lm = 4%nat →
  _check_legal 0 b D = None ∧ _update_legal_moves 0 b lm = None.
Proof.
  intros Hlm.
  assert (∀ D', _check_legal 0 b D' = None) as Hnone.
  { intros D'. unfold _check_legal.
    destruct (D' =? 0); [done|]. destruct (D' =? 1); [done|].
    destruct (D' =? 2); done. }
  split; [done|].
  destruct lm as [|a0 [|a1 [|a2 [|a3 [|]]]]]; done.
Qed.

(** *** Every outcome of [step] *)

(** The branches of a call of [step] that returns. *)
Lemma step_cases g a g' r t :
  step g a = Some (g', r, t) →
  (size g' = size g ∧ board_goal g' = board_goal g
   ∧ n_episode g' = n_episode g ∧ n_step g' = n_step g + 1
   ∧ _update_legal_moves (size g) (board g') (legal_moves g)
     = Some (legal_moves g'))
  ∧ ((∃ flag, Py.get (legal_moves g) a = Some flag ∧ flag ≠ 1
        ∧ r = 0 ∧ t = false ∧ board g' = board g ∧ score g' = score g
        ∧ best_score g' = best_score g ∧ is_legal g' = false
        ∧ np_random g' = np_random g ∧ score_per_step g' = [])
     ∨ (Py.get (legal_moves g) a = Some 1
        ∧ ∃ b1 sps,
            move (size g) a (board g) [] = Some (b1, sps)
            ∧ score g' = scalar_add (score g) (Py.sum scalar_add sps)
            ∧ score_per_step g' = sps ∧ is_legal g' = true
            ∧ ((_is_reach_goal b1 (board_goal g) = true
                ∧ r = 1 ∧ t = true ∧ board g' = b1
                ∧ best_score g' = best_score g
                ∧ np_random g' = np_random g)
               ∨ (_is_reach_goal b1 (board_goal g) = false
                  ∧ _spawn_block (size g) b1 (np_random g)
                    = Some (board g', np_random g')
                  ∧ ((_is_game_over (size g) (board g') = true
                      ∧ r = -1 ∧ t = true
                      ∧ best_score g' = Z.max (best_score g) (score g'))
                     ∨ (_is_game_over (size g) (board g') = false
                        ∧ r = 0 ∧ t = false
                        ∧ best_score g' = best_score g)))))).
Proof.
  intros E.
  destruct (Py.get (legal_moves g) a) as [flag|] eqn:Hget;
    [|by (unfold step in E; rewrite Hget in E)].
  destruct (decide (flag = 1)) as [->|Hflag].
  - destruct (move (size g) a (board g) []) as [[b1 sps]|] eqn:Em;
      [|by (unfold step in E; rewrite Hget in E; simpl in E;
            rewrite Em in E)].
    rewrite (step_legal_eq g a b1 sps Hget Em) in E. cbv zeta in E.
    destruct (_is_reach_goal b1 (board_goal g)) eqn:Eg.
    + destruct (_update_legal_moves (size g) b1 (legal_moves g))
        as [lm|] eqn:Elm; [|done].
      simpl in E. injection E as <- <- <-. simpl.
      split; [done|]. right. split; [done|]. exists b1, sps.
      repeat (split; [done|]). left. done.
    + destruct (_spawn_block (size g) b1 (np_random g))
        as [[b2 rng2]|] eqn:Esp; [|done].
      simpl in E.
      destruct (_update_legal_moves (size g) b2 (legal_moves g))
        as [lm|] eqn:Elm; [|done].
      simpl in E.
      destruct (_is_game_over (size g) b2) eqn:Eo;
        injection E as <- <- <-; simpl;
        (split; [done|]); right; (split; [done|]); exists b1, sps;
        repeat (split; [done|]); right; repeat (split; [done|]).
      * left. done.
      * right. done.
  - rewrite (step_illegal_eq g a flag Hget Hflag) in E.
    destruct (_update_legal_moves (size g) (board g) (legal_moves g))
      as [lm|] eqn:Elm; [|done].
    simpl in E. injection E as <- <- <-. simpl.
    split; [done|]. left. exists flag. done.
Qed.

(** X9 - Reward and termination of [step]. Whenever [step] returns, the
    reward is 1, 0 or -1 and [terminated] holds exactly when the reward is
    not 0; the size, the goal and the episode counter are unchanged and
    the step counter has advanced by one. *)
Theorem step_reward_terminated g a g' r t :
  step g a = Some (g', r, t) →
  (r = 1 ∨ r = 0 ∨ r = -1) ∧ (t = true ↔ r ≠ 0)
  ∧ size g' = size g ∧ board_goal g' = board_goal g
  ∧ n_episode g' = n_episode g ∧ n_step g' = n_step g + 1.
Proof.
  intros E. apply step_cases in E as ((F1 & F2 & F3 & F4 & _) & H).
  assert ((r = 1 ∨ r = 0 ∨ r = -1) ∧ (t = true ↔ r ≠ 0)) as [R1 R2];
    [|done].
  destruct H as [(flag & _ & _ & -> & -> & _)
                |(_ & b1 & sps & _ & _ & _ & _ & H)].
  - split; [auto|]. split; done.
  - destruct H as [(_ & -> & -> & _)|(_ & _ & H)].
    + split; [auto|]. split; done.
    + destruct H as [(_ & -> & -> & _)|(_ & -> & -> & _)];
        (split; [auto|]); split; done.
Qed.

(** X10 - The best score. [step] never lowers [best_score]; it touches it
    only when it returns the reward -1 (the game is lost), and then the new
    value is the larger of the old one and the score of the episode. *)
Theorem best_score_monotone g a g' r t :
  step g a = Some (g', r, t) →
  best_score g ≤ best_score g'
  ∧ (r ≠ -1 → best_score g' = best_score g)
  ∧ (r = -1 → best_score g' = Z.max (best_score g) (score g')).
Proof.
  intros E. apply step_cases in E as (_ & H).
  destruct H as [(flag & _ & _ & -> & _ & _ & _ & -> & _)
                |(_ & b1 & sps & _ & _ & _ & _ & H)].
  - split; [lia|]. split; [done|]. done.
  - destruct H as [(_ & -> & _ & _ & -> & _)|(_ & _ & H)].
    + split; [lia|]. split; done.
    + destruct H as [(_ & -> & _ & ->)|(_ & -> & _ & ->)].
      * split; [lia|]. split; done.
      * split; [lia|]. split; done.
Qed.

Lemma step_board_wf g a g' r t :
  wf_state g → step g a = Some (g', r, t) → wf_board (size g) (board g').
Proof.
  intros [Hn Hcells Hlm] E. apply step_cases in E as (_ & H).
  pose proof (wf_board_shape _ _ Hcells) as Hb.
  destruct H as [(flag & _ & _ & _ & _ & -> & _)
                |(_ & b1 & sps & Em & _ & _ & _ & H)]; [done|].
  pose proof (move_some_action _ _ _ _ _ Hn Hb Em) as HD.
  destruct (move_spec (size g) a (board g) [] HD Hb)
    as (b1' & Em' & Hwf1 & _).
  rewrite Em in Em'. injection Em' as <- _.
  destruct H as [(_ & _ & _ & -> & _)|(_ & Esp & _)]; [done|].
  pose proof (spawn_spec (size g) b1 (np_random g)) as Hs.
  rewrite Esp in Hs. destruct Hs as (r0 & c0 & v & _ & _ & _ & _ & ->).
  by apply wf_set_cell.
Qed.

(** X11 - [step] keeps the state consistent. From a well-formed state,
    whenever [step] returns, the new board is again a [size] x [size] array
    of [uint8] and the new legal-move vector is the one computed from the
    new board. *)
Theorem step_keeps_state g a g' r t :
  wf_state g → step g a = Some (g', r, t) → wf_state g' ∧ in_sync g'.
Proof.
  intros Hwf E. pose proof (step_board_wf g a g' r t Hwf E) as Hwf'.
  destruct Hwf as [Hn Hcells Hlm].
  apply step_cases in E as ((Hsize & _ & _ & _ & Hup) & _).
  destruct (update_legal_moves_idem (size g) (board g') (legal_moves g)
              (legal_moves g')) as [Hlen Hidem];
    [done|by apply wf_board_shape|done|done|].
  split.
  - constructor; rewrite ?Hsize; done.
  - unfold in_sync. by rewrite Hsize.
Qed.

Lemma get_out_of_range (lm : list Z) a :
  length lm = 4%nat → a < -4 ∨ 3 < a → Py.get lm a = None.
Proof.
  intros Hlm Ha. unfold Py.get, Py.index, Py.index_n. rewrite Hlm.
  destruct (Z.leb_spec 0 a), (Z.ltb_spec a (Z.of_nat 4)),
    (Z.leb_spec (- Z.of_nat 4) a), (Z.ltb_spec a 0); simpl; try done; lia.
Qed.

(** X12 - [step] never raises on a direction. In a well-formed state whose
    legal-move vector is up to date, [step] returns for each of the four
    actions 0, 1, 2 and 3. *)
Theorem step_total_on_directions g a :
  wf_state g → in_sync g → a = 0 ∨ a = 1 ∨ a = 2 ∨ a = 3 →
  ∃ g' r t, step g a = Some (g', r, t).
Proof.
  intros Hwf Hsync HD. pose proof Hwf as [Hn Hcells Hlm].
  pose proof (wf_board_shape _ _ Hcells) as Hb.
  destruct (update_legal_moves_spec (size g) (board g) (legal_moves g))
    as (v & Ev & _ & Hv); [done|done|done|].
  unfold in_sync in Hsync. rewrite Hsync in Ev. injection Ev as <-.
  destruct (Hv a HD) as ([|] & Hget & Hm).
  - pose proof (proj1 Hm eq_refl) as Hmov.
    destruct (move_spec (size g) a (board g) [] HD Hb)
      as (b1 & Em & Hwf1 & _).
    rewrite (step_legal_eq g a b1 _ Hget Em). cbv zeta.
    destruct (_is_reach_goal b1 (board_goal g)).
    + destruct (update_legal_moves_spec (size g) b1 (legal_moves g))
        as (lm & -> & _); [done|by apply wf_board_shape|done|].
      simpl. by eexists _, _, _.
    + destruct (move_movable (size g) a (board g) b1 [] _ HD Hb Em Hmov)
        as (r0 & c0 & Hr0 & Hc0 & _ & Hz).
      destruct (spawn_some (size g) b1 (np_random g)) as [[b2 rng2] Esp];
        [by exists r0, c0|].
      pose proof (spawn_spec (size g) b1 (np_random g)) as Hs.
      rewrite Esp in Hs.
      destruct Hs as (r1 & c1 & v & _ & _ & _ & _ & ->).
      rewrite Esp. simpl.
      destruct (update_legal_moves_spec (size g) (set_cell r1 c1 v b1)
                  (legal_moves g)) as (lm & -> & _);
        [done|by apply wf_board_shape, wf_set_cell|done|].
      simpl. destruct (_is_game_over _ _); by eexists _, _, _.
  - rewrite (step_illegal_eq g a 0 Hget) by done.
    destruct (update_legal_moves_spec (size g) (board g) (legal_moves g))
      as (lm & -> & _); [done|done|done|].
    simpl. by eexists _, _, _.
Qed.

(** X13 - Actions that make [step] raise. In a well-formed state an action
    below -4 or above 3 indexes outside the legal-move vector
    ([IndexError]); and a negative action, which Python wraps around to an
    entry of the vector, fails on the assertion of [_combiner] as soon as
    that entry is 1. *)
Theorem step_bad_action g a :
  wf_state g →
  (a < -4 ∨ 3 < a → step g a = None)
  ∧ (a < 0 → Py.get (legal_moves g) a = Some 1 → step g a = None).
Proof.
  intros [Hn Hcells Hlm]. split.
  - intros Ha. unfold step. by rewrite (get_out_of_range _ a Hlm Ha).
  - intros Ha Hget. unfold step. rewrite Hget. simpl.
    destruct (move (size g) a (board g) []) as [x|] eqn:Em; [|done].
    apply move_some_action in Em; [lia|done|by apply wf_board_shape].
Qed.

(** X14 - After a lost game nothing moves. Once [step] has returned the
    reward -1, every direction is illegal in the state it leaves: a further
    [step] returns reward 0 and [terminated = False] and leaves the board
    as it is (the loss is reported once, not again). *)
Theorem stuck_after_loss g a g' t a' :
  wf_state g → step g a = Some (g', -1, t) →
  a' = 0 ∨ a' = 1 ∨ a' = 2 ∨ a' = 3 →
  ∃ g'', step g' a' = Some (g'', 0, false) ∧ board g'' = board g'.
Proof.
  intros Hwf E HD.
  pose proof (step_board_wf g a g' (-1) t Hwf E) as Hcells'.
  destruct Hwf as [Hn Hcells Hlm].
  apply step_cases in E as ((Hsize & _ & _ & _ & Hup) & H).
  destruct (update_legal_moves_idem (size g) (board g') (legal_moves g)
              (legal_moves g')) as [Hlm' Hsync'];
    [done|by apply wf_board_shape|done|done|].
  rewrite <- Hsize in Hcells', Hsync'.
  assert (0 < size g')%nat as Hn' by (by rewrite Hsize).
  assert (_is_game_over (size g') (board g') = true) as Hover.
  { rewrite Hsize.
    destruct H as [(flag & _ & _ & ? & _)|(_ & b1 & sps & _ & _ & _ & _ & H)];
      [done|].
    destruct H as [(_ & ? & _)|(_ & _ & H)]; [done|].
    destruct H as [(? & _)|(_ & ? & _)]; done. }
  pose proof (wf_board_shape _ _ Hcells') as Hb'.
  pose proof (game_over_vector _ _ _ Hn' Hb' Hlm' Hover) as Hvec.
  rewrite Hsync' in Hvec. injection Hvec as Hvec.
  assert (Py.get (legal_moves g') a' = Some 0) as Hget.
  { rewrite Hvec. destruct HD as [-> | [-> | [-> | ->]]]; done. }
  rewrite (step_illegal_eq g' a' 0 Hget) by done.
  rewrite Hsync'. simpl. eexists. split; [done|]. done.
Qed.

(** *** [reset] *)

Lemma reset_large g seed :
  (2 ≤ size g)%nat →
  ∃ r1 c1 v1 r2 c2 v2 lm rng,
    reset g seed
    = Some (MkGame (size g) (board_goal g) (best_score g) (n_episode g + 1)
              (set_cell r2 c2 v2
                 (set_cell r1 c1 v1
                    (replicate (size g) (replicate (size g) 0))))
              lm true 0 [] 0 rng)
    ∧ (r1 < size g)%nat ∧ (c1 < size g)%nat
    ∧ (r2 < size g)%nat ∧ (c2 < size g)%nat
    ∧ (v1 = 1 ∨ v1 = 2) ∧ (v2 = 1 ∨ v2 = 2) ∧ (r1 ≠ r2 ∨ c1 ≠ c2)
    ∧ length lm = 4%nat
    ∧ _update_legal_moves (size g)
        (set_cell r2 c2 v2
           (set_cell r1 c1 v1 (replicate (size g) (replicate (size g) 0))))
        lm = Some lm.
Proof.
  intros Hsize. set (n := size g) in *.
  pose proof (wf_zeros n) as Hwf0.
  pose proof (wf_board_shape n _ Hwf0) as Hb0.
  assert (has_empty n (replicate n (replicate n 0))) as He0.
  { exists 0%nat, 0%nat. split; [lia|]. split; [lia|].
    apply cell_zeros; lia. }
  destruct (spawn_some n _ (default (np_random g) seed) He0)
    as [[b1 rng1] E1].
  pose proof (spawn_spec n (replicate n (replicate n 0))
                (default (np_random g) seed)) as H1.
  rewrite E1 in H1. destruct H1 as (r1 & c1 & v1 & Hr1 & Hc1 & _ & Hv1 & ->).
  pose proof (wf_set_cell n _ r1 c1 v1 Hwf0) as Hwf1.
  assert (has_empty n (set_cell r1 c1 v1 (replicate n (replicate n 0))))
    as He1.
  { destruct (decide (r1 = 0%nat ∧ c1 = 0%nat)) as [[-> ->]|Hne].
    - exists 0%nat, 1%nat. split; [lia|]. split; [lia|].
      rewrite (cell_set_cell n) by done.
      destruct (decide _) as [[_ ?]|]; [done|]. apply cell_zeros; lia.
    - exists 0%nat, 0%nat. split; [lia|]. split; [lia|].
      rewrite (cell_set_cell n) by done.
      destruct (decide _) as [[? ?]|]; [by destruct Hne|].
      apply cell_zeros; lia. }
  destruct (spawn_some n _ rng1 He1) as [[b2 rng2] E2].
  pose proof (spawn_spec n (set_cell r1 c1 v1 (replicate n (replicate n 0)))
                rng1) as H2.
  rewrite E2 in H2.
  destruct H2 as (r2 & c2 & v2 & Hr2 & Hc2 & Hz2 & Hv2 & ->).
  pose proof (wf_set_cell n _ r2 c2 v2 Hwf1) as Hwf2.
  destruct (update_legal_moves_spec n _ (replicate 4 1)
              ltac:(lia) (wf_board_shape n _ Hwf2) eq_refl)
    as (lm & Elm & _).
  destruct (update_legal_moves_idem n _ (replicate 4 1) lm
              ltac:(lia) (wf_board_shape n _ Hwf2) eq_refl Elm)
    as [Hlen Hidem].
  exists r1, c1, v1, r2, c2, v2, lm, rng2.
  split; [|repeat (split; [done|]); split; [|done]].
  - unfold reset. fold n. rewrite E1. simpl. rewrite E2. simpl.
    change [1; 1; 1; 1] with (replicate 4 1). rewrite Elm. done.
  - destruct (decide (r1 = r2)) as [->|]; [|by left].
    destruct (decide (c1 = c2)) as [->|]; [|by right].
    exfalso. rewrite (cell_set_cell n) in Hz2 by done.
    destruct (decide _) as [|[]]; [|done].
    by destruct Hv1 as [-> | ->].
Qed.

(** X15 - What [reset] leaves, for a board of at least two rows. [reset]
    returns; the board holds exactly two tiles, each 1 or 2, in two
    different cells, and is empty elsewhere; the score and the step counter
    are 0, the list of merged values is empty, the episode counter has
    advanced by one and the best score is kept; the state is well formed and
    its legal-move vector is the one computed from the board. *)
Theorem reset_postcondition g seed :
  (2 ≤ size g)%nat →
  ∃ g', reset g seed = Some g'
    ∧ size g' = size g ∧ board_goal g' = board_goal g
    ∧ best_score g' = best_score g ∧ n_episode g' = n_episode g + 1
    ∧ score g' = 0 ∧ score_per_step g' = [] ∧ n_step g' = 0
    ∧ is_legal g' = true ∧ wf_state g' ∧ in_sync g'
    ∧ ∃ r1 c1 r2 c2,
        (r1 < size g)%nat ∧ (c1 < size g)%nat
        ∧ (r2 < size g)%nat ∧ (c2 < size g)%nat ∧ (r1 ≠ r2 ∨ c1 ≠ c2)
        ∧ (cell (board g') r1 c1 = 1 ∨ cell (board g') r1 c1 = 2)
        ∧ (cell (board g') r2 c2 = 1 ∨ cell (board g') r2 c2 = 2)
        ∧ ∀ r c, (r < size g)%nat → (c < size g)%nat →
            (r ≠ r1 ∨ c ≠ c1) → (r ≠ r2 ∨ c ≠ c2) →
            cell (board g') r c = 0.
Proof.
  intros Hsize.
  destruct (reset_large g seed Hsize)
    as (r1 & c1 & v1 & r2 & c2 & v2 & lm & rng & E & Hr1 & Hc1 & Hr2 & Hc2
        & Hv1 & Hv2 & Hne & Hlen & Hidem).
  rewrite E. eexists. split; [done|]. simpl.
  pose proof (wf_zeros (size g)) as Hwf0.
  pose proof (wf_set_cell _ _ r1 c1 v1 Hwf0) as Hwf1.
  pose proof (wf_set_cell _ _ r2 c2 v2 Hwf1) as Hwf2.
  repeat (split; [done|]). split; [constructor; simpl; [lia|done|done]|].
  split; [done|].
  assert (to_uint8 v1 = v1 ∧ to_uint8 v2 = v2) as [U1 U2]
    by (by destruct Hv1 as [-> | ->], Hv2 as [-> | ->]).
  assert (∀ r c, cell (set_cell r2 c2 v2
                   (set_cell r1 c1 v1
                      (replicate (size g) (replicate (size g) 0)))) r c
                 = if decide (r = r2 ∧ c = c2) then v2
                   else if decide (r = r1 ∧ c = c1) then v1
                   else cell (replicate (size g) (replicate (size g) 0)) r c)
    as Hcell.
  { intros r c.
    rewrite (cell_set_cell (size g)) by (auto; by apply wf_board_shape).
    destruct (decide _); [done|].
    rewrite (cell_set_cell (size g)) by (auto; by apply wf_board_shape).
    by destruct (decide _). }
  exists r1, c1, r2, c2. repeat (split; [done|]). split; [|split].
  - rewrite Hcell. destruct (decide _) as [[? ?]|]; [by destruct Hne|].
    destruct (decide _) as [|[]]; done.
  - rewrite Hcell. destruct (decide _) as [|[]]; done.
  - intros r c Hr Hc H1 H2. rewrite Hcell.
    destruct (decide _) as [[? ?]|]; [by destruct H2|].
    destruct (decide _) as [[? ?]|]; [by destruct H1|].
    by apply cell_zeros.
Qed.

(** X16 - When [reset] raises. [reset] fails exactly when the board has
    fewer than two rows: with no cell the first seeding spawn finds no
    empty cell, and with one cell the second one does. *)
Theorem reset_fails_iff_small g seed :
  reset g seed = None ↔ (size g < 2)%nat.
Proof.
  split.
  - intros E. destruct (decide (size g < 2)%nat) as [|Hge]; [done|].
    destruct (reset_large g seed) as (? & ? & ? & ? & ? & ? & ? & ? & E' & _);
      [lia|]. congruence.
  - intros Hsize. unfold reset.
    pose proof (spawn_spec (size g)
                  (replicate (size g) (replicate (size g) 0))
                  (default (np_random g) seed)) as H1.
    destruct (_spawn_block (size g) _ _) as [[b1 rng1]|] eqn:E1; [|done].
    simpl. destruct H1 as (r1 & c1 & v1 & Hr1 & Hc1 & _ & Hv1 & ->).
    pose proof (spawn_spec (size g)
                  (set_cell r1 c1 v1
                     (replicate (size g) (replicate (size g) 0))) rng1)
      as H2.
    destruct (_spawn_block (size g) _ rng1) as [[b2 rng2]|] eqn:E2; [|done].
    exfalso. destruct H2 as (r2 & c2 & v2 & Hr2 & Hc2 & Hz & _).
    rewrite (cell_set_cell (size g)) in Hz
      by (auto; apply wf_board_shape, wf_zeros).
    destruct (decide _) as [|Hne].
    + by destruct Hv1 as [-> | ->].
    + apply Hne. lia.
Qed.

(** *** The value of the board across a spawn and a step *)

Lemma line_value_insert l c x :
  (c < length l)%nat →
  line_value (<[c := x]> l) = line_value l - tile_value (l !!! c) + tile_value x.
Proof.
  revert c. induction l as [|y l IH]; intros [|c] Hc; simpl in Hc; try lia.
  - change (<[0%nat := x]> (y :: l)) with (x :: l).
    change ((y :: l) !!! 0%nat) with y. rewrite !line_value_cons. lia.
  - change (<[S c := x]> (y :: l)) with (y :: <[c := x]> l).
    change ((y :: l) !!! S c) with (l !!! c).
    rewrite !line_value_cons, IH by lia. lia.
Qed.

Lemma board_value_alter (f : list Z → list Z) r b :
  (r < length b)%nat →
  board_value (alter f r b)
  = board_value b - line_value (b !!! r) + line_value (f (b !!! r)).
Proof.
  unfold board_value.
  revert r. induction b as [|l b IH]; intros [|r] Hr; simpl in Hr; try lia.
  - change (alter f 0%nat (l :: b)) with (f l :: b).
    change ((l :: b) !!! 0%nat) with l. rewrite !fmap_cons, !zsum_cons. lia.
  - change (alter f (S r) (l :: b)) with (l :: alter f r b).
    change ((l :: b) !!! S r) with (b !!! r).
    rewrite !fmap_cons, !zsum_cons, IH by lia. lia.
Qed.

Lemma set_cell_value n b r c v :
  shape n b → (r < n)%nat → (c < n)%nat →
  board_value (set_cell r c v b)
  = board_value b - tile_value (cell b r c) + tile_value (to_uint8 v).
Proof.
  intros [Hlen HF] Hr Hc. unfold set_cell.
  rewrite board_value_alter by lia.
  rewrite line_value_insert by (rewrite (shape_row n b r) by done; lia).
  fold (cell b r c). lia.
Qed.

(** X17 - A spawn adds a 2 or a 4. On a [size] x [size] board of [uint8]
    cells, a successful [_spawn_block] raises the total numeric value of the
    board (the sum of [2 ^ exponent] over the tiles) by exactly 2 or by
    exactly 4. *)
Theorem spawn_adds_two_or_four n b rng b' rng' :
  wf_board n b → _spawn_block n b rng = Some (b', rng') →
  board_value b' = board_value b + 2 ∨ board_value b' = board_value b + 4.
Proof.
  intros Hwf E. pose proof (spawn_spec n b rng) as H. rewrite E in H.
  destruct H as (r & c & v & Hr & Hc & Hz & Hv & ->).
  rewrite (set_cell_value n) by (auto; by apply wf_board_shape).
  rewrite Hz. destruct Hv as [-> | ->]; [left|right]; vm_compute tile_value; lia.
Qed.

(** X18 - The value of the board across [step]. In a well-formed state whose
    exponents are all below 255, a [step] that returns leaves the total
    numeric value of the board unchanged when the action was illegal
    ([is_legal] is [False] afterwards) or when it reached the goal (reward
    1), and raises it by exactly 2 or 4 otherwise; so a legal move that does
    not reach the goal always changes the board. *)
Theorem step_board_value g a g' r t :
  wf_state g → bounded (size g) (board g) 0 254 →
  step g a = Some (g', r, t) →
  (is_legal g' = false ∨ r = 1 →
   board_value (board g') = board_value (board g))
  ∧ (is_legal g' = true → r ≠ 1 →
     (board_value (board g') = board_value (board g) + 2
      ∨ board_value (board g') = board_value (board g) + 4)
     ∧ board g' ≠ board g).
Proof.
  intros [Hn Hcells Hlm] Hbd E.
  pose proof (wf_board_shape _ _ Hcells) as Hb.
  apply step_cases in E as (_ & H).
  destruct H as [(flag & _ & _ & _ & _ & Eb & _ & _ & El & _)
                |(_ & b1 & sps & Em & _ & _ & El & H)].
  - rewrite Eb, El. split; [done|]. intros; done.
  - pose proof (move_some_action _ _ _ _ _ Hn Hb Em) as HD.
    pose proof (move_value _ _ _ _ _ _ HD Hb Hbd Em) as Hval.
    destruct (move_spec (size g) a (board g) [] HD Hb)
      as (b1' & Em' & Hwf1 & _).
    rewrite Em in Em'. injection Em' as <- _.
    destruct H as [(_ & -> & _ & -> & _)|(_ & Esp & H)].
    + split; [done|]. intros _ Hr. done.
    + assert (board_value (board g') = board_value b1 + 2
              ∨ board_value (board g') = board_value b1 + 4) as Hs.
      { pose proof (spawn_spec (size g) b1 (np_random g)) as Hsp.
        rewrite Esp in Hsp.
        destruct Hsp as (r0 & c0 & v & Hr0 & Hc0 & Hz & Hv & ->).
        rewrite (set_cell_value (size g)) by (auto; by apply wf_board_shape).
        rewrite Hz.
        destruct Hv as [-> | ->]; [left|right]; vm_compute tile_value; lia. }
      rewrite Hval in Hs.
      assert (r ≠ 1) as Hr1
        by (destruct H as [(_ & -> & _)|(_ & -> & _)]; done).
      split.
      * intros [Hl | Hr]; [congruence|done].
      * intros _ _. split; [done|]. intros Heq. rewrite Heq in Hs. lia.
Qed.

(** *** [_get_info] *)

Lemma foldl_max_spec x l :
  (foldl Z.max x l = x ∨ foldl Z.max x l ∈ l)
  ∧ x ≤ foldl Z.max x l ∧ ∀ y, y ∈ l → y ≤ foldl Z.max x l.
Proof.
  revert x. induction l as [|z l IH]; intros x.
  - simpl. split; [by left|]. split; [lia|]. by intros y Hy%not_elem_of_nil.
  - simpl. destruct (IH (Z.max x z)) as (Hin & Hge & Hub).
    split; [|split; [lia|]].
    + destruct Hin as [Hin|Hin].
      * rewrite Hin. destruct (Z.max_spec x z) as [[_ ->] | [_ ->]];
          [right; left|by left].
      * right. by right.
    + intros y [->|Hy]%elem_of_cons; [lia|by apply Hub].
Qed.

Lemma elem_of_cells n b x :
  shape n b →
  x ∈ concat b ↔ ∃ r c, (r < n)%nat ∧ (c < n)%nat ∧ cell b r c = x.
Proof.
  intros [Hlen HF]. rewrite list_elem_of_In, in_concat. split.
  - intros (l & Hl & Hx).
    apply list_elem_of_In, list_elem_of_lookup in Hl as [r Hr].
    apply list_elem_of_In, list_elem_of_lookup in Hx as [c Hc].
    rewrite Forall_lookup in HF. pose proof (HF r l Hr) as Hll.
    exists r, c. split; [apply lookup_lt_Some in Hr; lia|].
    split; [apply lookup_lt_Some in Hc; lia|]. unfold cell.
    rewrite (list_lookup_total_correct _ _ _ Hr).
    by rewrite (list_lookup_total_correct _ _ _ Hc).
  - intros (r & c & Hr & Hc & <-). exists (b !!! r).
    assert (b !! r = Some (b !!! r)) as Hbr
      by (apply list_lookup_lookup_total_lt; lia).
    split; [apply list_elem_of_In, list_elem_of_lookup; by exists r|].
    apply list_elem_of_In, list_elem_of_lookup. exists c.
    apply list_lookup_lookup_total_lt.
    rewrite Forall_lookup in HF. by rewrite (HF r _ Hbr).
Qed.

Lemma np_max_spec n b :
  (0 < n)%nat → shape n b →
  ∃ m, np_max b = Some m
       ∧ (∃ r c, (r < n)%nat ∧ (c < n)%nat ∧ cell b r c = m)
       ∧ ∀ r c, (r < n)%nat → (c < n)%nat → cell b r c ≤ m.
Proof.
  intros Hn Hb. pose proof (elem_of_cells n b) as Hcells.
  unfold np_max. destruct (concat b) as [|x rest].
  - exfalso. eapply not_elem_of_nil. apply (Hcells (cell b 0 0) Hb).
    by exists 0%nat, 0%nat.
  - destruct (foldl_max_spec x rest) as (Hin & Hge & Hub).
    eexists. split; [done|]. split.
    + apply (Hcells _ Hb). destruct Hin as [-> | Hin]; [left|by right].
    + intros r c Hr Hc.
      assert (cell b r c ∈ x :: rest) as [->|Hy]%elem_of_cons
        by (apply (Hcells _ Hb); by exists r, c); [done|by apply Hub].
Qed.

(** X19 - The maximum reported by [_get_info]. On a [size] x [size] board
    with [size] at least 1, [_get_info] returns; its ["max"] entry is the
    content of some cell and no cell exceeds it; the other entries are the
    score, the merged values of the last step, the legal-move vector and the
    legality flag of the state. On a board without cells [np.max] raises. *)
Theorem get_info_max g :
  (wf_state g →
   ∃ i, _get_info g = Some i
     ∧ (∃ r c, (r < size g)%nat ∧ (c < size g)%nat
               ∧ cell (board g) r c = info_max i)
     ∧ (∀ r c, (r < size g)%nat → (c < size g)%nat →
          cell (board g) r c ≤ info_max i)
     ∧ info_score i = score g ∧ info_score_per_step i = score_per_step g
     ∧ info_action_mask i = legal_moves g ∧ info_is_legal i = is_legal g)
  ∧ (concat (board g) = [] → _get_info g = None).
Proof.
  split.
  - intros [Hn Hcells _].
    destruct (np_max_spec (size g) (board g) Hn (wf_board_shape _ _ Hcells))
      as (m & E & Hat & Hub).
    unfold _get_info. rewrite E. simpl. eexists. split; [done|]. done.
  - intros E. unfold _get_info, np_max. by rewrite E.
Qed.

Lemma reachable_has_tile g t : reachable g t → has_tile (size g) (board g).
Proof.
  induction 1 as [g0 seed g Hgoal E|g a g' r t Hreach IH E].
  - unfold reset in E.
    pose proof (spawn_spec (size g0)
                  (replicate (size g0) (replicate (size g0) 0))
                  (default (np_random g0) seed)) as H1.
    destruct (_spawn_block (size g0) _ _) as [[b1 rng1]|]; [|done].
    simpl in E. destruct H1 as (r1 & c1 & v1 & Hr1 & Hc1 & _ & Hv1 & ->).
    pose proof (wf_set_cell _ _ r1 c1 v1 (wf_zeros (size g0))) as Hwf1.
    pose proof (spawn_spec (size g0)
                  (set_cell r1 c1 v1
                     (replicate (size g0) (replicate (size g0) 0))) rng1)
      as H2.
    destruct (_spawn_block (size g0) _ rng1) as [[b2 rng2]|]; [|done].
    simpl in E. destruct H2 as (r2 & c2 & v2 & Hr2 & Hc2 & _ & Hv2 & ->).
    destruct (_update_legal_moves _ _ _) as [lm|]; [|done].
    simpl in E. injection E as <-. simpl.
    exists r2, c2. split; [done|]. split; [done|].
    rewrite (cell_set_cell (size g0)) by (auto; by apply wf_board_shape).
    destruct (decide _) as [|[]]; [|done]. by destruct Hv2 as [-> | ->].
  - pose proof (reachable_inv _ _ Hreach) as [[Hn Hcells Hlm] Hgoal _ _ _].
    pose proof (wf_board_shape _ _ Hcells) as Hb.
    apply step_cases in E as ((Hsize & _) & H). rewrite Hsize.
    destruct H as [(flag & _ & _ & _ & _ & -> & _)
                  |(_ & b1 & sps & Em & _ & _ & _ & H)]; [done|].
    pose proof (move_some_action _ _ _ _ _ Hn Hb Em) as HD.
    destruct (move_spec (size g) a (board g) [] HD Hb)
      as (b1' & Em' & Hwf1 & _).
    rewrite Em in Em'. injection Em' as <- _.
    pose proof (wf_board_shape _ _ Hwf1) as Hb1.
    destruct H as [(Eg & _ & _ & -> & _)|(_ & Esp & _)].
    + apply (is_reach_goal_spec (size g) b1 _ Hb1) in Eg
        as (r0 & c0 & Hr0 & Hc0 & Hc).
      exists r0, c0. split; [done|]. split; [done|].
      unfold valid_goal in Hgoal. lia.
    + pose proof (spawn_spec (size g) b1 (np_random g)) as Hs.
      rewrite Esp in Hs.
      destruct Hs as (r0 & c0 & v & Hr0 & Hc0 & _ & Hv & ->).
      exists r0, c0. split; [done|]. split; [done|].
      rewrite (cell_set_cell (size g)) by done.
      destruct (decide _) as [|[]]; [|done]. by destruct Hv as [-> | ->].
Qed.

(** X20 - The maximum tile of an episode. In every state of an episode,
    [_get_info] returns, and its ["max"] entry lies between 1 and
    [board_goal]; it equals [board_goal] exactly when [_is_reach_goal]
    holds of the board, and it is below [board_goal] as long as the episode
    has not terminated. *)
Theorem episode_info_max g t :
  reachable g t →
  ∃ i, _get_info g = Some i
    ∧ 1 ≤ info_max i ≤ board_goal g
    ∧ (info_max i = board_goal g
       ↔ _is_reach_goal (board g) (board_goal g) = true)
    ∧ (t = false → info_max i < board_goal g).
Proof.
  intros Hreach. pose proof (reachable_has_tile g t Hreach) as Htile.
  pose proof (reachable_inv g t Hreach)
    as [[Hn Hcells Hlm] Hgoal _ Hall Hlive].
  pose proof (wf_board_shape _ _ Hcells) as Hb.
  destruct (np_max_spec (size g) (board g) Hn Hb)
    as (m & E & (r & c & Hr & Hc & Hat) & Hub).
  unfold _get_info. rewrite E. simpl. eexists. split; [done|]. simpl.
  destruct Htile as (r0 & c0 & Hr0 & Hc0 & Hne).
  pose proof (Hall r0 c0 Hr0 Hc0). pose proof (Hub r0 c0 Hr0 Hc0).
  pose proof (Hall r c Hr Hc).
  split; [lia|]. split.
  - rewrite (is_reach_goal_spec (size g)) by done. split.
    + intros <-. by exists r, c.
    + intros (r1 & c1 & Hr1 & Hc1 & Hg). pose proof (Hub r1 c1 Hr1 Hc1). lia.
  - intros Ht. pose proof (Hlive Ht r c Hr Hc). lia.
Qed.

(** *** The score within the range of the scalar type *)

Lemma wrap_small x : 0 < W → - 2 ^ (W - 1) ≤ x < 2 ^ (W - 1) → wrap W x = x.
Proof.
  intros HW Hx. unfold wrap.
  assert (2 ^ W = 2 * 2 ^ (W - 1)) as ->.
  { rewrite <- Z.pow_succ_r by lia. f_equal. lia. }
  rewrite Z.mod_small by lia. lia.
Qed.

Lemma sum_exact l acc :
  0 < W → Forall (λ v, 0 ≤ v) l → 0 ≤ acc → acc + zsum l < 2 ^ (W - 1) →
  foldl scalar_add acc l = acc + zsum l.
Proof.
  intros HW Hl. revert acc. induction Hl as [|v l Hv Hl IH]; intros acc Ha Hs.
  - simpl. lia.
  - rewrite zsum_cons in Hs.
    pose proof (Z.pow_pos_nonneg 2 (W - 1) ltac:(lia) ltac:(lia)) as Hp.
    assert (0 ≤ zsum l) as Hz.
    { clear -Hl. induction Hl as [|x l Hx _ IH]; [done|].
      rewrite zsum_cons. lia. }
    rewrite zsum_cons. cbn [foldl].
    assert (scalar_add acc v = acc + v) as ->
      by (unfold scalar_add; apply wrap_small; lia).
    rewrite IH by lia. lia.
Qed.

Lemma merged_range M ts :
  Forall (λ x, 0 < x ≤ M) ts → Forall (λ x, 1 < x ≤ M + 1) (merged ts).
Proof.
  induction ts as [| |a l IH|a b l Hab IH] using merge_ind; intros H;
    [constructor|constructor| |].
  - rewrite merged_eq. apply Forall_cons in H as [Ha H].
    apply Forall_cons in H as [_ H]. constructor; [lia|by apply IH].
  - rewrite merged_ne by done. apply Forall_cons in H as [Ha H].
    by apply IH.
Qed.

Lemma move_events_exact n b D :
  shape n b → bounded n b 0 (W - 3) →
  Forall (λ v, ∃ e, 1 < e < W - 1 ∧ v = 2 ^ e) (move_events n b D).
Proof.
  intros Hb Hbd. unfold move_events. apply Forall_concat, Forall_fmap.
  apply Forall_forall. intros k Hk%elem_of_seq. simpl.
  unfold line_events. apply Forall_fmap.
  assert (Forall (λ x, 0 ≤ x ≤ W - 3) (axis_line b D k)) as Hline
    by (apply (axis_line_Forall n); [done|lia|done]).
  eapply Forall_impl; [apply (merged_range (W - 3))|].
  - assert (Forall (λ x, 0 ≤ x) (axis_line b D k)) as H0
      by (eapply Forall_impl; [exact Hline|]; simpl; intros; lia).
    pose proof (tiles_pos _ (Forall_orient _ (way_of D) _ H0)) as Hp.
    pose proof (Forall_tiles _ _ (Forall_orient _ (way_of D) _ Hline)) as Hr.
    rewrite Forall_forall in *. intros x Hx.
    specialize (Hp x Hx). specialize (Hr x Hx). simpl in *. lia.
  - simpl. intros e He. exists e. split; [lia|].
    apply scalar_pow2_exact. lia.
Qed.

(** X21 - The score where nothing wraps. In a well-formed state whose
    exponents are at most [W - 3] (28 on 32 bits), whenever [step] returns,
    every value appended to [score_per_step] is the exact power [2 ^ e] of
    a merged exponent [e] of at least 2; and if the score is non-negative
    and the exact total stays below [2 ^ (W - 1)], the new score is the old
    one plus the exact sum of these values, so the score does not
    decrease. *)
Theorem step_score_exact g a g' r t :
  wf_state g → bounded (size g) (board g) 0 (W - 3) →
  step g a = Some (g', r, t) →
  Forall (λ v, ∃ e, 1 < e < W - 1 ∧ v = 2 ^ e) (score_per_step g')
  ∧ (0 ≤ score g → score g + zsum (score_per_step g') < 2 ^ (W - 1) →
     score g' = score g + zsum (score_per_step g') ∧ score g ≤ score g').
Proof.
  intros [Hn Hcells Hlm] Hbd E.
  pose proof (wf_board_shape _ _ Hcells) as Hb.
  apply step_cases in E as (_ & H).
  destruct H as [(flag & _ & _ & _ & _ & _ & Es & _ & _ & _ & ->)
                |(_ & b1 & sps & Em & Es & Esps & _)].
  - split; [constructor|]. intros _ _. rewrite Es. simpl. lia.
  - pose proof (move_some_action _ _ _ _ _ Hn Hb Em) as HD.
    destruct (move_spec (size g) a (board g) [] HD Hb)
      as (b1' & Em' & _ & _).
    rewrite Em in Em'. injection Em' as _ ->. simpl in Esps.
    pose proof (move_events_exact (size g) (board g) a Hb Hbd) as Hev.
    rewrite <- Esps in Hev. split; [done|]. intros Hs Hlt.
    assert (Forall (λ v, 0 ≤ v) (score_per_step g')) as Hpos.
    { eapply Forall_impl; [exact Hev|]. simpl. intros v (e & He & ->).
      apply Z.pow_nonneg. lia. }
    assert (0 ≤ zsum (score_per_step g')) as Hz.
    { clear -Hpos. induction Hpos as [|x l Hx _ IH]; [done|].
      rewrite zsum_cons. lia. }
    assert (0 < W) as HW.
    { destruct (decide (0 < W)); [done|]. exfalso.
      assert (2 ^ (W - 1) = 0) as Hp by (apply Z.pow_neg_r; lia). lia. }
    pose proof (Z.pow_pos_nonneg 2 (W - 1) ltac:(lia) ltac:(lia)) as Hp.
    rewrite Es, <- Esps. unfold Py.sum.
    rewrite sum_exact by (try done; lia).
    unfold scalar_add. rewrite wrap_small by lia. lia.
Qed.

Lemma move_events_values n b D :
  shape n b → bounded n b 0 (W - 3) →
  move_events n b D = merged_values n b D.
Proof.
  intros Hb Hbd. unfold move_events, merged_values. f_equal.
  apply Forall_fmap_ext_1, Forall_forall. intros k Hk%elem_of_seq.
  unfold line_events. apply Forall_fmap_ext_1.
  assert (Forall (λ x, 0 ≤ x ≤ W - 3) (axis_line b D k)) as Hline
    by (apply (axis_line_Forall n); [done|lia|done]).
  eapply Forall_impl; [apply (merged_range (W - 3))|].
  - assert (Forall (λ x, 0 ≤ x) (axis_line b D k)) as H0
      by (eapply Forall_impl; [exact Hline|]; simpl; intros; lia).
    pose proof (tiles_pos _ (Forall_orient _ (way_of D) _ H0)) as Hp.
    pose proof (Forall_tiles _ _ (Forall_orient _ (way_of D) _ Hline)) as Hr.
    rewrite Forall_forall in *. intros x Hx.
    specialize (Hp x Hx). specialize (Hr x Hx). simpl in *. lia.
  - simpl. intros e He. apply scalar_pow2_exact. lia.
Qed.

Lemma merged_values_nonneg n b D : Forall (λ v, 0 ≤ v) (merged_values n b D).
Proof.
  unfold merged_values. apply Forall_concat, Forall_fmap, Forall_forall.
  intros k _. simpl. apply Forall_fmap, Forall_forall. intros e _. simpl.
  apply Z.pow_nonneg. lia.
Qed.

Lemma score_exact sc vs :
  Forall (λ v, 0 ≤ v) vs → 0 ≤ sc → sc + zsum vs < 2 ^ (W - 1) →
  scalar_add sc (Py.sum scalar_add vs) = sc + zsum vs.
Proof.
  intros Hpos Hsc Hlt.
  assert (0 ≤ zsum vs) as Hz.
  { clear -Hpos. induction Hpos as [|x l Hx _ IH]; [done|].
    rewrite zsum_cons. lia. }
  assert (0 < W) as HW.
  { destruct (decide (0 < W)); [done|]. exfalso.
    assert (2 ^ (W - 1) = 0) as Hp by (apply Z.pow_neg_r; lia). lia. }
  pose proof (Z.pow_pos_nonneg 2 (W - 1) ltac:(lia) ltac:(lia)) as Hp.
  unfold Py.sum. rewrite sum_exact by (try done; lia).
  unfold scalar_add. rewrite wrap_small by lia. lia.
Qed.

(** X23 - The outcome of a legal action where nothing wraps. In a
    well-formed state whose legal-move vector is up to date, whose exponents
    are at most [W - 3] and whose non-negative score plus the merged values
    of the move stays below [2 ^ (W - 1)], for an action among 0..3 marked
    legal: every line along the axis of the move is replaced by its merged
    and packed line; [score_per_step] is the list of the exact values
    [2 ^ e] of the merged tiles and the score grows by exactly their sum; if
    some cell then holds [board_goal], [step] returns reward 1 and
    [terminated], the board is the board after the move and the random
    source is untouched; otherwise one tile (1 or 2) is written into a cell
    that was empty, [terminated] holds exactly when the board after the
    spawn has no empty cell and both adjacency checks are false, with reward
    -1 and [best_score = max(best_score, score)] in that case, and reward 0
    with [best_score] unchanged in the other. *)
Theorem legal_step_outcome g action :
  wf_state g → in_sync g →
  action = 0 ∨ action = 1 ∨ action = 2 ∨ action = 3 →
  Py.get (legal_moves g) action = Some 1 →
  bounded (size g) (board g) 0 (W - 3) → 0 ≤ score g →
  score g + zsum (merged_values (size g) (board g) action) < 2 ^ (W - 1) →
  ∃ b1,
    wf_board (size g) b1
    ∧ (∀ k, (k < size g)%nat →
         axis_line b1 action k
         = moved_line (way_of action) (axis_line (board g) action k))
    ∧ let sps := merged_values (size g) (board g) action in
      let score1 := score g + zsum sps in
      ((∃ r c, (r < size g)%nat ∧ (c < size g)%nat
               ∧ cell b1 r c = board_goal g)
       ∧ ∃ g', step g action = Some (g', 1, true)
               ∧ board g' = b1 ∧ score_per_step g' = sps
               ∧ score g' = score1 ∧ best_score g' = best_score g
               ∧ np_random g' = np_random g ∧ is_legal g' = true)
      ∨ ((¬ ∃ r c, (r < size g)%nat ∧ (c < size g)%nat
                   ∧ cell b1 r c = board_goal g)
         ∧ ∃ r c v g' reward terminated,
             (r < size g)%nat ∧ (c < size g)%nat ∧ cell b1 r c = 0
             ∧ (v = 1 ∨ v = 2)
             ∧ step g action = Some (g', reward, terminated)
             ∧ board g' = set_cell r c v b1 ∧ score_per_step g' = sps
             ∧ score g' = score1 ∧ is_legal g' = true
             ∧ (terminated = true
                ↔ no_empty (size g) (board g')
                  ∧ _check_if_same (size g) (board g') 0 = false
                  ∧ _check_if_same (size g) (board g') 1 = false)
             ∧ ((terminated = true ∧ reward = -1
                 ∧ best_score g' = Z.max (best_score g) score1)
                ∨ (terminated = false ∧ reward = 0
                   ∧ best_score g' = best_score g))).
Proof.
  intros Hwf Hsync HD Hget Hbd Hsc Hlt.
  pose proof (legal_entry_movable g action Hwf Hsync HD Hget) as Hm.
  destruct Hwf as [Hn Hcells Hlm].
  pose proof (wf_board_shape _ _ Hcells) as Hb.
  destruct (move_spec (size g) action (board g) [] HD Hb)
    as (b1 & Emove & Hwf1 & Hlines).
  pose proof (wf_board_shape _ _ Hwf1) as Hb1.
  change ([] ++ move_events (size g) (board g) action)
    with (move_events (size g) (board g) action) in Emove.
  rewrite (move_events_values _ _ _ Hb Hbd) in Emove.
  pose proof (score_exact (score g) _
                (merged_values_nonneg (size g) (board g) action) Hsc Hlt)
    as Hscore.
  exists b1. split; [done|]. split; [done|]. cbv zeta.
  rewrite (step_legal_eq g action b1 _ Hget Emove). cbv zeta.
  rewrite Hscore.
  destruct (_is_reach_goal b1 (board_goal g)) eqn:Eg.
  - left. split; [by apply (is_reach_goal_spec (size g))|].
    destruct (update_legal_moves_spec (size g) b1 (legal_moves g))
      as (lm & -> & _); [done|done|done|].
    simpl. eexists. split; [done|]. done.
  - right. split.
    { intros H. apply (is_reach_goal_spec (size g)) in H; [|done].
      congruence. }
    destruct (move_movable (size g) action (board g) b1 [] _ HD Hb Emove Hm)
      as (r0 & c0 & Hr0 & Hc0 & _ & Hz).
    destruct (spawn_some (size g) b1 (np_random g)) as [[b2 rng2] Esp].
    { by exists r0, c0. }
    pose proof (spawn_spec (size g) b1 (np_random g)) as Hs.
    rewrite Esp in Hs. destruct Hs as (r & c & v & Hr & Hc & Hrc & Hv & ->).
    rewrite Esp. simpl.
    pose proof (wf_set_cell (size g) b1 r c v Hwf1) as Hwf2.
    pose proof (wf_board_shape _ _ Hwf2) as Hb2.
    destruct (update_legal_moves_spec (size g) (set_cell r c v b1)
                (legal_moves g)) as (lm & -> & _); [done|done|done|].
    simpl.
    pose proof (is_game_over_spec (size g) (set_cell r c v b1) Hb2) as Hover.
    destruct (_is_game_over (size g) (set_cell r c v b1)) eqn:Eo.
    + exists r, c, v. eexists. exists (-1), true.
      repeat (split; [done|]). left. done.
    + exists r, c, v. eexists. exists 0, false.
      repeat (split; [done|]). right. done.
Qed.

(** *** [_check_if_same] and the merges of a move *)

(** X22 - Equal neighbours merge. When [_check_if_same] finds two equal
    neighbouring tiles along an axis, a move in either direction of that
    axis performs at least one merge: it returns with a non-empty list of
    merged values. *)
Theorem check_if_same_merges n b D :
  shape n b → D = 0 ∨ D = 1 ∨ D = 2 ∨ D = 3 →
  _check_if_same n b (if D <? 2 then 0 else 1) = true →
  ∃ b' sps, move n D b [] = Some (b', sps) ∧ sps ≠ [].
Proof.
  intros Hb HD Hsame.
  apply (check_if_same_spec n b D Hb HD) in Hsame as (k & Hk & Hadj).
  destruct (move_spec n D b [] HD Hb) as (b' & E & _ & _).
  exists b', ([] ++ move_events n b D). split; [done|]. simpl.
  assert (adjacent (orient (way_of D) (axis_line b D k))) as Ho.
  { unfold orient. destruct (way_of D =? 0); [done|].
    by apply adjacent_reverse. }
  pose proof (pair_in_merged _ (adjacent_pair_in _ Ho)) as Hlen.
  destruct (merged (tiles (orient (way_of D) (axis_line b D k))))
    as [|e es] eqn:Em; [simpl in Hlen; lia|].
  assert (In (scalar_pow2 e) (move_events n b D)) as Hin.
  { unfold move_events. apply in_concat.
    exists (line_events (way_of D) (axis_line b D k)). split.
    - apply list_elem_of_In, list_elem_of_fmap. exists k.
      split; [done|]. apply elem_of_seq. lia.
    - unfold line_events. rewrite Em, fmap_cons. by left. }
  intros Hnil. by rewrite Hnil in Hin.
Qed.

End Engine.

(** ** Concrete runs *)

(** The two line scenarios of the specification. *)
Example combiner_scenario_1 :
  _combiner 32 4 [1; 1; 1; 0] 0 [] = Some ([2; 1; 0; 0], [4]).
Proof. reflexivity. Qed.

Example combiner_scenario_2 :
  _combiner 32 4 [3; 0; 0; 3] 0 [] = Some ([4; 0; 0; 0], [16]).
Proof. reflexivity. Qed.

Example combiner_right :
  _combiner 32 4 [1; 1; 1; 0] 1 [] = Some ([0; 0; 1; 2], [4]).
Proof. reflexivity. Qed.

Example sample_state_in_sync : in_sync sample_state.
Proof. reflexivity. Qed.

Example twin_state_in_sync : in_sync (twin_state 30) ∧ in_sync (twin_state 62).
Proof. split; reflexivity. Qed.


Lemma sample_state_wf : wf_state sample_state.
Proof. constructor; [simpl; lia|board_wf|reflexivity]. Defined.

Lemma legality_soundness_witness :
  ∃ v b' sps,
    _update_legal_moves 2 [[1; 0]; [0; 0]] [1; 1; 1; 1] = Some v
    ∧ move 32 2 0 [[1; 0]; [0; 0]] [] = Some (b', sps)
    ∧ (Py.get v 0 = Some 1 ∨ Py.get v 0 = Some 0)
    ∧ (Py.get v 0 = Some 1 ↔ changed 2 [[1; 0]; [0; 0]] b').
Proof.
  apply (legality_soundness 32 2 [[1; 0]; [0; 0]] [1; 1; 1; 1] 0);
    [lia|board_wf|reflexivity|by left].
Defined.

(** C2 - counterexample. On a row [1, 0, 1] moved left, [_check_legal]
    answers [True] (the right-hand tile can slide) while the slide check as
    the specification words it, started at the compaction edge, answers
    [False]. *)
Lemma slide_check_spec_differs :
  _check_legal 3 [[1; 0; 1]; [0; 0; 0]; [0; 0; 0]] 0 = Some true
  ∧ spec_slide_check 3 [[1; 0; 1]; [0; 0; 0]; [0; 0; 0]] 0 = false.
Proof. split; reflexivity. Qed.

Lemma slide_check_program_witness :
  ∃ v, _check_legal 3 [[1; 0; 1]; [0; 0; 0]; [0; 0; 0]] 0 = Some v
       ∧ (v = true
          ↔ ∃ k, (k < 3)%nat
                 ∧ gap (orient (way_of 0)
                          (axis_line [[1; 0; 1]; [0; 0; 0]; [0; 0; 0]] 0 k)))
       ∧ (spec_slide_check 3 [[1; 0; 1]; [0; 0; 0]; [0; 0; 0]] 0 = true
          → v = true).
Proof.
  apply (slide_check_program 3 [[1; 0; 1]; [0; 0; 0]; [0; 0; 0]] 0);
    [lia|split; [reflexivity|repeat constructor]|by left].
Defined.

(** C3 - the score at the failing input. In [brim_state], a well-formed
    state whose legal-move vector is up to date, action 0 is legal and
    merges two tiles of value 2: the one merged value is 4, so the score
    should go from 2147483644 to 2147483648; with 32-bit scalars [step]
    leaves -2147483648. The rest of the outcome is as expected: one tile is
    spawned, the reward is 0 and the episode goes on. *)
Theorem step_score_wraps :
  wf_state brim_state ∧ in_sync brim_state
  ∧ Py.get (legal_moves brim_state) 0 = Some 1
  ∧ ∃ g', step 32 brim_state 0 = Some (g', 0, false)
          ∧ board g'
            = [ [26; 24; 22; 2; 0; 0]; [0; 1; 0; 0; 0; 0];
                [0; 0; 0; 0; 0; 0]; [0; 0; 0; 0; 0; 0];
                [0; 0; 0; 0; 0; 0]; [0; 0; 0; 0; 0; 0] ]
          ∧ score_per_step g' = [4]
          ∧ score brim_state + zsum (score_per_step g') = 2147483648
          ∧ score g' = -2147483648.
Proof.
  split; [constructor; [simpl; lia|board_wf|reflexivity]|].
  split; [reflexivity|]. split; [reflexivity|].
  eexists. split; [vm_compute; reflexivity|].
  repeat split; vm_compute; reflexivity.
Qed.

Lemma no_double_merge_witness :
  (∃ gs, concat (sources <$> gs) = tiles (orient 0 [1; 1; 1; 0])
         ∧ _combiner 32 4 [1; 1; 1; 0] 0 []
           = Some (orient 0 (pad 4 (result <$> gs)),
                   [] ++ (scalar_pow2 32 <$> fused gs)))
  ∧ (∀ e, tiles (orient 0 [1; 1; 1; 0]) = [e; e; e] →
          _combiner 32 4 [1; 1; 1; 0] 0 []
          = Some (orient 0 (pad 4 [e + 1; e]), [] ++ [scalar_pow2 32 (e + 1)])).
Proof.
  apply (no_double_merge 32 4 [1; 1; 1; 0] 0 []); [reflexivity|by left].
Defined.

(** Outside an episode the [uint8] cells bound the value: on a board set
    by hand, two neighbouring cells of exponent 255 fuse into [256], which
    the board stores as 0. No state of a running episode holds such
    cells. *)
Lemma value_lost_at_255 :
  wf_board 2 [[255; 255]; [0; 0]]
  ∧ move 32 2 0 [[255; 255]; [0; 0]] [] = Some ([[0; 0]; [0; 0]], [0])
  ∧ board_value [[0; 0]; [0; 0]] ≠ board_value [[255; 255]; [0; 0]].
Proof.
  split; [board_wf|]. split; [reflexivity|].
  intros H. vm_compute in H. discriminate H.
Qed.

Lemma value_conservation_witness :
  ∃ b' sps,
    move 32 (size sample_start) 0 (board sample_start) [] = Some (b', sps)
    ∧ board_value b' = board_value (board sample_start)
    ∧ (∀ k sps0, (k < size sample_start)%nat →
         ∃ new_line sps',
           _combiner 32 (size sample_start)
             (axis_line (board sample_start) 0 k) (way_of 0) sps0
           = Some (new_line, sps')
           ∧ line_value new_line
             = line_value (axis_line (board sample_start) 0 k)
           ∧ axis_line b' 0 k = new_line)
    ∧ (∀ line way sps0,
         length line = size sample_start → way = 0 ∨ way = 1 →
         Forall (λ x, 0 ≤ x < 256) line →
         ∃ new_line sps',
           _combiner 32 (size sample_start) line way sps0
           = Some (new_line, sps')
           ∧ line_value new_line = line_value line).
Proof.
  apply (value_conservation 32 sample_start 0).
  - apply (reach_reset 32 sample_env None).
    + unfold valid_goal. simpl. lia.
    + vm_compute. reflexivity.
  - by left.
Defined.

Lemma step_illegal_outcome_witness :
  ∃ g', step 32 sample_state 2 = Some (g', 0, false)
        ∧ board g' = [[1; 1]; [0; 0]] ∧ score g' = 0
        ∧ best_score g' = 0 ∧ is_legal g' = false.
Proof.
  apply (step_illegal_outcome 32 sample_state 2 sample_state_wf).
  reflexivity.
Defined.

(** C7 - the score at the failing inputs. With 32-bit scalars, merging two
    tiles of exponent 30 appends [-2147483648] instead of [2 ^ 31] and the
    score drops below zero; with 64-bit scalars the same happens for two
    tiles of exponent 62. *)
Theorem score_overflow :
  (∃ g', step 32 (twin_state 30) 0 = Some (g', 0, false)
         ∧ cell (board g') 0 0 = 31
         ∧ score_per_step g' = [-2147483648]
         ∧ score g' = -2147483648 ∧ score g' < score (twin_state 30))
  ∧ (∃ g', step 64 (twin_state 62) 0 = Some (g', 0, false)
           ∧ cell (board g') 0 0 = 63
           ∧ score_per_step g' = [-9223372036854775808]
           ∧ score g' = -9223372036854775808
           ∧ score g' < score (twin_state 62)).
Proof.
  split; (eexists; split; [vm_compute; reflexivity|]);
    repeat split; vm_compute; reflexivity.
Qed.

Lemma exponent_invariant_witness :
  0 ≤ cell (board sample_start) 0 0 ≤ board_goal sample_start.
Proof.
  apply (exponent_invariant 32 sample_start false 0 0).
  - apply (reach_reset 32 sample_env None).
    + unfold valid_goal. simpl. lia.
    + vm_compute. reflexivity.
  - vm_compute. lia.
  - vm_compute. lia.
Defined.

(** C9 - counterexample. In a 1 x 1 environment the first seeding call of
    [reset] fills the only cell, the second one finds no empty cell and
    fails, and so does [reset]. *)
Lemma reset_tiny_fails :
  ∃ b1 rng1,
    _spawn_block 1 (replicate 1 (replicate 1 0)) sample_rng = Some (b1, rng1)
    ∧ ¬ has_empty 1 b1
    ∧ _spawn_block 1 b1 rng1 = None
    ∧ reset tiny_env None = None.
Proof.
  eexists _, _. split; [vm_compute; reflexivity|]. split; [|split].
  - intros (r & c & Hr & Hc & H).
    destruct r as [|r], c as [|c]; try lia. vm_compute in H. discriminate H.
  - reflexivity.
  - reflexivity.
Qed.

Lemma spawn_safety_witness :
  (∃ b1 rng1 b2 rng2 g',
     has_empty 2 (replicate 2 (replicate 2 0))
     ∧ _spawn_block 2 (replicate 2 (replicate 2 0)) sample_rng
       = Some (b1, rng1)
     ∧ has_empty 2 b1
     ∧ _spawn_block 2 b1 rng1 = Some (b2, rng2)
     ∧ reset sample_env None = Some g' ∧ board g' = b2)
  ∧ (∀ action b1 sps,
       wf_state sample_env → in_sync sample_env →
       Py.get (legal_moves sample_env) action = Some 1 →
       move 32 2 action (board sample_env) [] = Some (b1, sps) →
       _is_reach_goal b1 11 = false →
       has_empty 2 b1 ∧ is_Some (_spawn_block 2 b1 sample_rng))
  ∧ (∀ b rng b' rng',
       shape 2 b → _spawn_block 2 b rng = Some (b', rng') →
       ∃ r c v, (r < 2)%nat ∧ (c < 2)%nat ∧ cell b r c = 0
                ∧ (v = 1 ∨ v = 2) ∧ cell b' r c = v
                ∧ ∀ r' c', r' ≠ r ∨ c' ≠ c → cell b' r' c' = cell b r' c').
Proof. apply (spawn_safety 32 sample_env None). simpl. lia. Defined.

(** *** Runs of the further properties *)

Example sample_step : step 32 sample_state 0 = Some (sample_next, 0, false).
Proof. reflexivity. Qed.

Example loss_step : step 32 loss_state 0 = Some (lost_state, -1, true).
Proof. reflexivity. Qed.

Lemma loss_state_wf : wf_state loss_state.
Proof. constructor; [simpl; lia|board_wf|reflexivity]. Defined.

Lemma combiner_mirror_witness :
  ∃ new_line sps,
    _combiner 32 4 (reverse [1; 1; 1; 0]) 0 [] = Some (new_line, sps)
    ∧ _combiner 32 4 [1; 1; 1; 0] 1 [] = Some (reverse new_line, sps).
Proof. apply (combiner_mirror 32 4 [1; 1; 1; 0] []). reflexivity. Defined.

Lemma combiner_packs_witness :
  ∃ new_line events,
    _combiner 32 4 [2; 0; 2; 2] 1 [] = Some (new_line, [] ++ events)
    ∧ length new_line = 4%nat
    ∧ ¬ gap (orient 1 new_line)
    ∧ (length (tiles new_line) + length events)%nat
      = length (tiles [2; 0; 2; 2]).
Proof.
  apply (combiner_packs 32 4 [2; 0; 2; 2] 1 []);
    [reflexivity|by right|repeat constructor; lia].
Defined.

Lemma combiner_events_exact_witness :
  ∃ new_line,
    _combiner 32 4 [3; 0; 0; 3] 0 []
    = Some (new_line,
            [] ++ ((λ e, 2 ^ e) <$> merged (tiles (orient 0 [3; 0; 0; 3])))).
Proof.
  apply (combiner_events_exact 32 4 [3; 0; 0; 3] 0 []);
    [reflexivity|by left|repeat constructor; lia].
Defined.

Lemma move_right_mirror_witness :
  ∃ b' sps,
    move 32 2 0 (reverse <$> [[1; 1]; [0; 2]]) [] = Some (b', sps)
    ∧ move 32 2 1 [[1; 1]; [0; 2]] [] = Some (reverse <$> b', sps).
Proof.
  apply (move_right_mirror 32 2 [[1; 1]; [0; 2]] []).
  split; [reflexivity|repeat constructor].
Defined.

Lemma no_slide_after_move_witness :
  _check_legal 2 [[2; 0]; [2; 0]] 0 = Some false.
Proof.
  apply (no_slide_after_move 32 2 0 [[1; 1]; [0; 2]] [[2; 0]; [2; 0]] [] [4]).
  - lia.
  - by left.
  - split; [reflexivity|repeat constructor].
  - intros r c Hr Hc.
    destruct r as [|[|r]], c as [|[|c]]; try lia; unfold cell; simpl; lia.
  - reflexivity.
Defined.

Lemma game_over_iff_no_legal_move_witness :
  _is_game_over 2 [[3; 1]; [2; 4]] = true
  ↔ _update_legal_moves 2 [[3; 1]; [2; 4]] [1; 1; 1; 1] = Some [0; 0; 0; 0].
Proof.
  apply (game_over_iff_no_legal_move 2 [[3; 1]; [2; 4]] [1; 1; 1; 1]).
  - lia.
  - split; [reflexivity|repeat constructor].
  - exists 0%nat, 0%nat. split; [lia|]. split; [lia|]. discriminate.
  - reflexivity.
Defined.

Lemma update_legal_moves_board_only_witness :
  ∃ v, _update_legal_moves 2 [[1; 1]; [0; 0]] [1; 1; 1; 1] = Some v
       ∧ _update_legal_moves 2 [[1; 1]; [0; 0]] [0; 0; 0; 0] = Some v
       ∧ _update_legal_moves 2 [[1; 1]; [0; 0]] v = Some v
       ∧ length v = 4%nat ∧ Forall (λ x, x = 0 ∨ x = 1) v.
Proof.
  apply (update_legal_moves_board_only 2 [[1; 1]; [0; 0]]
           [1; 1; 1; 1] [0; 0; 0; 0]).
  - lia.
  - split; [reflexivity|repeat constructor].
  - reflexivity.
  - reflexivity.
Defined.

Lemma legal_moves_empty_board_witness :
  _check_legal 0 [] 0 = None ∧ _update_legal_moves 0 [] [1; 1; 1; 1] = None.
Proof. apply (legal_moves_empty_board [] [1; 1; 1; 1] 0). reflexivity. Defined.

Lemma step_reward_terminated_witness :
  (-1 = 1 ∨ -1 = 0 ∨ -1 = -1)
  ∧ (true = true ↔ -1 ≠ 0)
  ∧ size lost_state = size loss_state
  ∧ board_goal lost_state = board_goal loss_state
  ∧ n_episode lost_state = n_episode loss_state
  ∧ n_step lost_state = n_step loss_state + 1.
Proof.
  apply (step_reward_terminated 32 loss_state 0 lost_state (-1) true).
  reflexivity.
Defined.

Lemma best_score_monotone_witness :
  best_score loss_state ≤ best_score lost_state
  ∧ (-1 ≠ -1 → best_score lost_state = best_score loss_state)
  ∧ (-1 = -1 →
     best_score lost_state
     = Z.max (best_score loss_state) (score lost_state)).
Proof.
  apply (best_score_monotone 32 loss_state 0 lost_state (-1) true).
  reflexivity.
Defined.

Lemma step_keeps_state_witness : wf_state sample_next ∧ in_sync sample_next.
Proof.
  apply (step_keeps_state 32 sample_state 0 sample_next 0 false);
    [exact sample_state_wf|reflexivity].
Defined.

Lemma step_total_on_directions_witness :
  ∃ g' r t, step 32 sample_state 1 = Some (g', r, t).
Proof.
  apply (step_total_on_directions 32 sample_state 1);
    [exact sample_state_wf|reflexivity|right; by left].
Defined.

Lemma step_bad_action_witness :
  (-3 < -4 ∨ 3 < -3 → step 32 sample_state (-3) = None)
  ∧ (-3 < 0 → Py.get (legal_moves sample_state) (-3) = Some 1 →
     step 32 sample_state (-3) = None).
Proof.
  apply (step_bad_action 32 sample_state (-3)). exact sample_state_wf.
Defined.

Lemma stuck_after_loss_witness :
  ∃ g'', step 32 lost_state 3 = Some (g'', 0, false)
         ∧ board g'' = board lost_state.
Proof.
  apply (stuck_after_loss 32 loss_state 0 lost_state true 3);
    [exact loss_state_wf|reflexivity|by do 3 right].
Defined.

Lemma reset_postcondition_witness :
  ∃ g', reset sample_env None = Some g'
    ∧ size g' = size sample_env ∧ board_goal g' = board_goal sample_env
    ∧ best_score g' = best_score sample_env
    ∧ n_episode g' = n_episode sample_env + 1
    ∧ score g' = 0 ∧ score_per_step g' = [] ∧ n_step g' = 0
    ∧ is_legal g' = true ∧ wf_state g' ∧ in_sync g'
    ∧ ∃ r1 c1 r2 c2,
        (r1 < size sample_env)%nat ∧ (c1 < size sample_env)%nat
        ∧ (r2 < size sample_env)%nat ∧ (c2 < size sample_env)%nat
        ∧ (r1 ≠ r2 ∨ c1 ≠ c2)
        ∧ (cell (board g') r1 c1 = 1 ∨ cell (board g') r1 c1 = 2)
        ∧ (cell (board g') r2 c2 = 1 ∨ cell (board g') r2 c2 = 2)
        ∧ ∀ r c, (r < size sample_env)%nat → (c < size sample_env)%nat →
            (r ≠ r1 ∨ c ≠ c1) → (r ≠ r2 ∨ c ≠ c2) →
            cell (board g') r c = 0.
Proof. apply (reset_postcondition sample_env None). simpl. lia. Defined.

Lemma reset_fails_iff_small_witness :
  reset tiny_env None = None ↔ (size tiny_env < 2)%nat.
Proof. apply (reset_fails_iff_small tiny_env None). Defined.

Lemma spawn_adds_two_or_four_witness :
  board_value [[2; 1]; [0; 0]] = board_value [[2; 0]; [0; 0]] + 2
  ∨ board_value [[2; 1]; [0; 0]] = board_value [[2; 0]; [0; 0]] + 4.
Proof.
  apply (spawn_adds_two_or_four 2 [[2; 0]; [0; 0]] sample_rng
           [[2; 1]; [0; 0]] (MkGen (draws sample_rng) 2));
    [board_wf|reflexivity].
Defined.

Lemma step_board_value_witness :
  (is_legal sample_next = false ∨ 0 = 1 →
   board_value (board sample_next) = board_value (board sample_state))
  ∧ (is_legal sample_next = true → 0 ≠ 1 →
     (board_value (board sample_next) = board_value (board sample_state) + 2
      ∨ board_value (board sample_next)
        = board_value (board sample_state) + 4)
     ∧ board sample_next ≠ board sample_state).
Proof.
  apply (step_board_value 32 sample_state 0 sample_next 0 false).
  - exact sample_state_wf.
  - intros r c Hr Hc. simpl in Hr, Hc.
    destruct r as [|[|r]], c as [|[|c]]; try lia; unfold cell; simpl; lia.
  - reflexivity.
Defined.

Lemma get_info_max_witness :
  (wf_state sample_state →
   ∃ i, _get_info sample_state = Some i
     ∧ (∃ r c, (r < size sample_state)%nat ∧ (c < size sample_state)%nat
               ∧ cell (board sample_state) r c = info_max i)
     ∧ (∀ r c, (r < size sample_state)%nat → (c < size sample_state)%nat →
          cell (board sample_state) r c ≤ info_max i)
     ∧ info_score i = score sample_state
     ∧ info_score_per_step i = score_per_step sample_state
     ∧ info_action_mask i = legal_moves sample_state
     ∧ info_is_legal i = is_legal sample_state)
  ∧ (concat (board sample_state) = [] → _get_info sample_state = None).
Proof. apply (get_info_max sample_state). Defined.

Lemma episode_info_max_witness :
  ∃ i, _get_info sample_start = Some i
    ∧ 1 ≤ info_max i ≤ board_goal sample_start
    ∧ (info_max i = board_goal sample_start
       ↔ _is_reach_goal (board sample_start) (board_goal sample_start) = true)
    ∧ (false = false → info_max i < board_goal sample_start).
Proof.
  apply (episode_info_max 32 sample_start false).
  apply (reach_reset 32 sample_env None).
  - unfold valid_goal. simpl. lia.
  - vm_compute. reflexivity.
Defined.

Lemma step_score_exact_witness :
  Forall (λ v, ∃ e, 1 < e < 32 - 1 ∧ v = 2 ^ e) (score_per_step sample_next)
  ∧ (0 ≤ score sample_state →
     score sample_state + zsum (score_per_step sample_next) < 2 ^ (32 - 1) →
     score sample_next
     = score sample_state + zsum (score_per_step sample_next)
     ∧ score sample_state ≤ score sample_next).
Proof.
  apply (step_score_exact 32 sample_state 0 sample_next 0 false).
  - exact sample_state_wf.
  - intros r c Hr Hc. simpl in Hr, Hc.
    destruct r as [|[|r]], c as [|[|c]]; try lia; unfold cell; simpl; lia.
  - reflexivity.
Defined.

Lemma check_if_same_merges_witness :
  ∃ b' sps, move 32 2 0 [[1; 1]; [0; 0]] [] = Some (b', sps) ∧ sps ≠ [].
Proof.
  apply (check_if_same_merges 32 2 [[1; 1]; [0; 0]] 0);
    [split; [reflexivity|repeat constructor]|by left|reflexivity].
Defined.

Lemma init_goal_check_diverges_witness :
  (∃ g, __init__ exact_log2 4 (2 ^ 53 + 1) sample_rng = inr g
        ∧ board_goal g = 53)
  ∧ (∀ k, 64 ≤ k → __init__ exact_log2 4 (2 ^ k) sample_rng = inl TypeError)
  ∧ (∀ k, 2 < k < 64 →
       ∃ g, __init__ exact_log2 4 (2 ^ k) sample_rng = inr g
            ∧ board_goal g = k).
Proof.
  apply (init_goal_check_diverges exact_log2 4 sample_rng).
  intros k Hk. unfold exact_log2. rewrite Z.log2_pow2 by done.
  by rewrite Z.eqb_refl.
Defined.

Lemma legal_step_outcome_witness :
  ∃ b1,
    wf_board 2 b1
    ∧ (∀ k, (k < 2)%nat →
         axis_line b1 0 k
         = moved_line (way_of 0) (axis_line (board sample_state) 0 k))
    ∧ let sps := merged_values 2 (board sample_state) 0 in
      let score1 := score sample_state + zsum sps in
      ((∃ r c, (r < 2)%nat ∧ (c < 2)%nat ∧ cell b1 r c = 11)
       ∧ ∃ g', step 32 sample_state 0 = Some (g', 1, true)
               ∧ board g' = b1 ∧ score_per_step g' = sps
               ∧ score g' = score1 ∧ best_score g' = 0
               ∧ np_random g' = sample_rng ∧ is_legal g' = true)
      ∨ ((¬ ∃ r c, (r < 2)%nat ∧ (c < 2)%nat ∧ cell b1 r c = 11)
         ∧ ∃ r c v g' reward terminated,
             (r < 2)%nat ∧ (c < 2)%nat ∧ cell b1 r c = 0
             ∧ (v = 1 ∨ v = 2)
             ∧ step 32 sample_state 0 = Some (g', reward, terminated)
             ∧ board g' = set_cell r c v b1 ∧ score_per_step g' = sps
             ∧ score g' = score1 ∧ is_legal g' = true
             ∧ (terminated = true
                ↔ no_empty 2 (board g')
                  ∧ _check_if_same 2 (board g') 0 = false
                  ∧ _check_if_same 2 (board g') 1 = false)
             ∧ ((terminated = true ∧ reward = -1
                 ∧ best_score g' = Z.max 0 score1)
                ∨ (terminated = false ∧ reward = 0 ∧ best_score g' = 0))).
Proof.
  apply (legal_step_outcome 32 sample_state 0).
  - exact sample_state_wf.
  - reflexivity.
  - by left.
  - reflexivity.
  - intros r c Hr Hc. simpl in Hr, Hc.
    destruct r as [|[|r]], c as [|[|c]]; try lia; unfold cell; simpl; lia.
  - simpl. lia.
  - vm_compute. reflexivity.
Defined.
